(** * A shallow embedding of the ancestry simulation (package [main], abm.go)

    The Go program simulates a population over generations, resolves the
    ancestors of the last generation and reports statistics on them.  This
    file embeds the simulation engine in Rocq and proves properties of it.

    Conventions of the embedding:
    - a Go [int] is a [Z]; slices are lists, indexed through [at_], which
      is [None] exactly where Go panics with an index out of range;
    - a Go run-time panic is [None]; a Go [error] value is an [Err];
    - [map[int]struct{}] is a [gset Z], [map[string]int] a [gmap string Z];
    - [float64] values are exact rationals ([Q]), so the rounding of
      floating-point arithmetic is outside the model; Go integers are
      unbounded here (the counters of the engine stay below the length of
      the arena);
    - the process-wide random source of [math/rand] is an explicit stream
      of raw draws that every function consuming randomness threads. *)

From Stdlib Require Import ZArith QArith Qround Lia Ascii.
From stdpp Require Import base numbers list gmap sets sorting strings pretty.

Local Open Scope Z_scope.
Set Warnings "-clear-no-such-hyp".

(** ** Slices *)

(** [l[i]] for a Go slice: out of range (or negative) panics. *)
Definition at_ {A : Type} (l : list A) (i : Z) : option A :=
  if bool_decide (i < 0) then None else l !! Z.to_nat i.

(** [l[i] = x], once [l[i]] is known to be in range. *)
Definition set_at {A : Type} (l : list A) (i : Z) (x : A) : list A :=
  <[Z.to_nat i := x]> l.

(** [len(l)] as a Go [int]. *)
Definition len {A : Type} (l : list A) : Z := Z.of_nat (length l).

(** [l[lo:hi]]: panics unless [0 <= lo <= hi <= len(l)]. *)
Definition slice {A : Type} (l : list A) (lo hi : Z) : option (list A) :=
  if bool_decide (0 ≤ lo ∧ lo ≤ hi ∧ hi ≤ len l)
  then Some (take (Z.to_nat hi - Z.to_nat lo)%nat (drop (Z.to_nat lo) l))
  else None.

(** ** A state monad with panics *)

Definition M (St A : Type) : Type := St → option (A * St).

Definition ret {St A : Type} (a : A) : M St A := λ st, Some (a, st).

Definition bind {St A B : Type} (m : M St A) (k : A → M St B) : M St B :=
  λ st, match m st with
        | Some (a, st') => k a st'
        | None => None
        end.

Definition get {St : Type} : M St St := λ st, Some (st, st).

Definition put {St : Type} (st : St) : M St unit := λ _, Some (tt, st).

(** A value whose computation may panic, e.g. an index expression. *)
Definition lift {St A : Type} (o : option A) : M St A :=
  λ st, match o with Some a => Some (a, st) | None => None end.

Declare Scope go_scope.
Delimit Scope go_scope with go.
Notation "'let*' x ':=' m 'in' k" := (bind m (λ x, k))
  (at level 10, x pattern, m at level 100, k at level 200) : go_scope.
Notation "m ';;' k" := (bind m (λ _, k))
  (at level 100, k at level 200, right associativity) : go_scope.
Local Open Scope go_scope.

(** [for range n { body }] over a state. *)
Fixpoint repeatM {St : Type} (n : nat) (body : M St unit) : M St unit :=
  match n with
  | O => ret tt
  | S n' => body ;; repeatM n' body
  end.

(** ** The random source *)

(** [math/rand]'s global source: an unbounded supply of raw values, read
    one after the other. *)
Record Rng := mkRng { stream : nat → Z; pos : nat }.

Definition rawDraw (r : Rng) : Z * Rng :=
  (stream r (pos r), mkRng (stream r) (S (pos r))).

(** [rand.Intn(n)]: a value of [[0, n)], panics when [n <= 0]. *)
Definition Intn (n : Z) : M Rng Z :=
  λ r, if bool_decide (n ≤ 0) then None
       else let (x, r') := rawDraw r in Some (x `mod` n, r').

(** [rand.Float64()]: a value of [[0, 1)], with 53 bits as in Go. *)
Definition Float64 : M Rng Q :=
  λ r, let (x, r') := rawDraw r in
       Some (Qmake (x `mod` 2 ^ 53) (2 ^ 53)%positive, r').

Definition Qltb (x y : Q) : bool := negb (Qle_bool y x).

(** ** Parameters and agents *)

Record Parameters := mkParameters {
  SimulationId : Z;
  NumAgents : Z;
  Generations : Z;
  GrowthRate : Q;
  Monogamous : bool;
  MatingK : Z;
  NumGenes : Z;
  MutationRate : Q;
  Compatible : bool;
  MateSelf : bool;
  MateSibling : bool;
  MateCousin : bool;
  MateSameSex : bool;
  Analysis_ : string
}.

Definition NewParameters : Parameters :=
  {| SimulationId := 0; NumAgents := 2; Generations := 32;
     GrowthRate := 102 # 100; Monogamous := false; MatingK := 50;
     NumGenes := 10; MutationRate := 0 # 1; Compatible := false;
     MateSelf := false; MateSibling := false; MateCousin := false;
     MateSameSex := false; Analysis_ := "NCDGg" |}.

Inductive Sex := MALE | FEMALE.

Global Instance Sex_eq_dec : EqDecision Sex.
Proof. solve_decision. Defined.

Record Agent := mkAgent {
  id : Z;
  generation : Z;
  sex : Sex;
  mother : Z;
  father : Z;
  children : list Z;
  ancestorVec : list Z;
  ancestorSet : gset Z;
  genes : list string
}.

(** ** Kinship predicates *)

Definition isSibling (a b : Agent) : bool :=
  bool_decide (generation a > 0)
  && (bool_decide (mother a = mother b) || bool_decide (father a = father b)).

Definition isCousin (agents : list Agent) (a b : Agent) : option bool :=
  if bool_decide (generation a < 2) || bool_decide (generation b < 2)
  then Some false
  else
    aMother ← at_ agents (mother a);
    aFather ← at_ agents (father a);
    bMother ← at_ agents (mother b);
    bFather ← at_ agents (father b);
    Some (isSibling aMother bMother || isSibling aMother bFather
          || isSibling aFather bMother || isSibling aFather bFather).

(** ** The simulation state *)

(** Used to keep track of agents that are in the mating pool (its [id]
    field is [sel_id] here). *)
Record selectedAgent := mkSelected { sel_id : Z; mated : bool }.

(** Used to keep track of agents that will reproduce. *)
Record matingPair := mkPair { male : Z; female : Z }.

(** The engine's state (its [id] field is [sim_id] here). *)
Record Simulation := mkSimulation {
  sim_id : Z;
  agents : list Agent;
  currGen : list selectedAgent;
  genBdrys : list Z;
  matingPairs : list matingPair;
  params : Parameters
}.

Definition with_agents (s : Simulation) (v : list Agent) : Simulation :=
  mkSimulation (sim_id s) v (currGen s) (genBdrys s) (matingPairs s) (params s).
Definition with_currGen (s : Simulation) (v : list selectedAgent) : Simulation :=
  mkSimulation (sim_id s) (agents s) v (genBdrys s) (matingPairs s) (params s).
Definition with_genBdrys (s : Simulation) (v : list Z) : Simulation :=
  mkSimulation (sim_id s) (agents s) (currGen s) v (matingPairs s) (params s).
Definition with_matingPairs (s : Simulation) (v : list matingPair) : Simulation :=
  mkSimulation (sim_id s) (agents s) (currGen s) (genBdrys s) v (params s).

(** The [error] values the engine returns. *)
Inductive Err :=
| ErrNoMatingPairs (simId generation : Z)
| ErrInsufficientSurvivors (simId survivors generation : Z)
| ErrNoAgents
| ErrOnlyZeroGeneration (simId : Z)
| ErrGeneConversion (simId : Z).

(** Methods of [*Simulation] that draw random numbers run on the pair of
    the simulation and the random source. *)
Definition St : Type := Simulation * Rng.

Definition onSim {A : Type} (m : M Simulation A) : M St A :=
  λ st, match m (fst st) with
        | Some (a, s') => Some (a, (s', snd st))
        | None => None
        end.

Definition onRng {A : Type} (m : M Rng A) : M St A :=
  λ st, match m (snd st) with
        | Some (a, r') => Some (a, (fst st, r'))
        | None => None
        end.

Fixpoint forEach {St E : Type} (l : list E) (body : E → M St unit) : M St unit :=
  match l with
  | [] => ret tt
  | x :: l' => body x ;; forEach l' body
  end.

Fixpoint mapM {St E A : Type} (f : E → M St A) (l : list E) : M St (list A) :=
  match l with
  | [] => ret []
  | x :: l' => let* y := f x in let* ys := mapM f l' in ret (y :: ys)
  end.

(** ** Creating a simulation *)

Definition coinSex : M Rng Sex :=
  let* x := Float64 in ret (if Qltb x (1 # 2) then MALE else FEMALE).

(** [fmt.Sprintf("%d-%d", agent.id, i)] for [i] in [range numGenes]. *)
Definition founderGenes (agentId numGenes : Z) : list string :=
  (λ i, pretty agentId +:+ "-" +:+ pretty i) <$> seqZ 0 numGenes.

Definition newFounder (p : Parameters) (i : Z) : M Rng Agent :=
  let* sx := coinSex in
  ret {| id := i; generation := 0; sex := sx; mother := 0; father := 0;
         children := []; ancestorVec := []; ancestorSet := ∅;
         genes := founderGenes i (NumGenes p) |}.

Fixpoint seedAgents (p : Parameters) (ids : list Z) (acc : list Agent)
  : M Rng (list Agent) :=
  match ids with
  | [] => ret acc
  | i :: ids' => let* a := newFounder p i in seedAgents p ids' (acc ++ [a])
  end.

Definition NewSimulation (p : Parameters) : M Rng Simulation :=
  let* ags := seedAgents p (seqZ 0 (NumAgents p)) [] in
  ret {| sim_id := SimulationId p;
         agents := ags;
         currGen := (λ i, mkSelected i false) <$> seqZ 0 (len ags);
         genBdrys := [len ags];
         matingPairs := [];
         params := p |}.

(** ** Compatibility *)

Definition compatible (s : Simulation) (a b : Agent) : option bool :=
  if negb (MateSelf (params s)) && bool_decide (id a = id b) then Some false
  else if negb (MateSameSex (params s)) && bool_decide (sex a = sex b)
  then Some false
  else if negb (MateSibling (params s)) && isSibling a b then Some false
  else if MateCousin (params s)
  then c ← isCousin (agents s) a b; Some (negb c)
  else Some true.

(** ** The current generation *)

Definition setCurrGen (gen : Z) : M Simulation unit :=
  λ s,
    let s0 := with_currGen s [] in
    if bool_decide (gen >= len (genBdrys s)) then Some (tt, s0)
    else
      start ← (if bool_decide (gen = 0) then Some 0
               else at_ (genBdrys s) (gen - 1));
      stop ← at_ (genBdrys s) gen;
      sl ← slice (agents s) start stop;
      Some (tt, with_currGen s0 ((λ a, mkSelected (id a) false) <$> sl)).

(** ** Pairing *)

(** Helper function for [pairAgents] that makes a single pair. *)
Definition makePair (agentA agentB : Agent) : matingPair :=
  if bool_decide (sex agentA = MALE)
  then {| male := id agentA; female := id agentB |}
  else {| male := id agentB; female := id agentA |}.

Definition markMated (cg : list selectedAgent) (i : Z) : option (list selectedAgent) :=
  c ← at_ cg i; Some (set_at cg i (mkSelected (sel_id c) true)).

(** The inner loop of [pairAgents], [for j := i + 1; j < hi; j++], started
    at [j]; [n] bounds the number of iterations left. *)
Fixpoint pairScan (n : nat) (agentA : Agent) (i j hi : Z) : M Simulation unit :=
  match n with
  | O => ret tt
  | S n' =>
    if bool_decide (j < hi) then
      let* s := get in
      let* cj := lift (at_ (currGen s) j) in
      if mated cj then pairScan n' agentA i (j + 1) hi
      else
        let* agentB := lift (at_ (agents s) (sel_id cj)) in
        let* ok := lift (compatible s agentA agentB) in
        if ok then
          let pair := makePair agentA agentB in
          let* cg := lift (markMated (currGen s) i) in
          let* cg := lift (markMated cg j) in
          put (with_currGen (with_matingPairs s (matingPairs s ++ [pair])) cg)
        else pairScan n' agentA i (j + 1) hi
    else ret tt
  end.

(** One iteration of the outer loop of [pairAgents]. *)
Definition pairStep (i : Z) : M Simulation unit :=
  let* s := get in
  let* ci := lift (at_ (currGen s) i) in
  let* agentA := lift (at_ (agents s) (sel_id ci)) in
  if mated ci then ret tt
  else
    let hi := Z.min (len (currGen s)) (i + MatingK (params s)) in
    pairScan (length (currGen s)) agentA i (i + 1) hi.

(** Creates pairs of compatible agents that will be used to generate
    children. *)
Definition pairAgents : M Simulation unit :=
  let* s := get in
  put (with_matingPairs s []) ;;
  forEach (seqZ 0 (len (currGen s))) pairStep.

(** ** Children *)

Definition addChild (a : Agent) (child : Z) : Agent :=
  mkAgent (id a) (generation a) (sex a) (mother a) (father a)
          (children a ++ [child]) (ancestorVec a) (ancestorSet a) (genes a).

(** The body of the gene loop of [newChild], for gene [i]. *)
Definition childGene (agents : list Agent) (father mother : Z)
    (mutationRate : Q) (i : Z) : M Rng string :=
  let* x := Float64 in
  let* g := lift (p ← at_ agents (if Qltb x (1 # 2) then father else mother);
                  at_ (genes p) i) in
  if Qltb 0 mutationRate then
    let* y := Float64 in
    ret (if Qltb y mutationRate then g +:+ "`" else g)
  else ret g.

Definition newChild (agents : list Agent) (father mother numGenes generation : Z)
    (mutationRate : Q) : M Rng (list Agent) :=
  let* sx := coinSex in
  let* gs := mapM (childGene agents father mother mutationRate) (seqZ 0 numGenes) in
  let agent := {| id := len agents; generation := generation; sex := sx;
                  mother := mother; father := father; children := [];
                  ancestorVec := []; ancestorSet := ∅; genes := gs |} in
  let agents := agents ++ [agent] in
  let* f := lift (at_ agents father) in
  let agents := set_at agents father (addChild f (id agent)) in
  let* m := lift (at_ agents mother) in
  let agents := set_at agents mother (addChild m (id agent)) in
  ret agents.

(** [s.agents = newChild(s.agents, father, mother, ...)]. *)
Definition breed (father mother generation : Z) : M St unit :=
  let* st := get in
  let s := fst st in
  let* ags := onRng (newChild (agents s) father mother (NumGenes (params s))
                              generation (MutationRate (params s))) in
  onSim (put (with_agents s ags)).

(** [int(math.Ceil(s.params.GrowthRate * float64(len(s.currGen))))]. *)
Definition iterations (s : Simulation) : Z :=
  Qceiling (GrowthRate (params s) * inject_Z (len (currGen s))).

(** [s.currGen[rand.Intn(len(s.currGen))].id]. *)
Definition randomMember : M St Z :=
  let* st := get in
  let* x := onRng (Intn (len (currGen (fst st)))) in
  let* c := lift (at_ (currGen (fst st)) x) in
  ret (sel_id c).

(** ** The three mating strategies *)

(** Makes children agents from the [matingPairs] vector. *)
Definition makeChildrenMonogamous (generation : Z) : M St unit :=
  let* st := get in
  repeatM (Z.to_nat (iterations (fst st)))
    (let* st := get in
     let* x := onRng (Intn (len (matingPairs (fst st)))) in
     let* pr := lift (at_ (matingPairs (fst st)) x) in
     breed (male pr) (female pr) generation).

(** Mating strategy in which any given agent mates with at most one other
    agent. *)
Definition monogamousMating (generation : Z) : M St (option Err) :=
  onSim pairAgents ;;
  let* st := get in
  if bool_decide (len (matingPairs (fst st)) = 0)
  then ret (Some (ErrNoMatingPairs (sim_id (fst st)) generation))
  else makeChildrenMonogamous generation ;; ret None.

(** The partner search of [nonMonogamousMating],
    [for ; !compat && k < matingK; k++], which returns the final values of
    [j], [compat] and [k]; [n] bounds the number of iterations left. *)
Fixpoint partnerSearch (n : nat) (matingK i j : Z) (compat : bool) (k : Z)
  : M St (Z * bool * Z) :=
  match n with
  | O => ret (j, compat, k)
  | S n' =>
    if negb compat && bool_decide (k < matingK) then
      let* j := randomMember in
      let* st := get in
      let* a := lift (at_ (agents (fst st)) i) in
      let* b := lift (at_ (agents (fst st)) j) in
      let* compat := lift (compatible (fst st) a b) in
      partnerSearch n' matingK i j compat (k + 1)
    else ret (j, compat, k)
  end.

(** Mating strategy in which agents to mate are repeatedly selected to mate
    with anyone but compatibility checking is done. *)
Definition nonMonogamousMating (generation : Z) : M St (option Err) :=
  let* st := get in
  repeatM (Z.to_nat (iterations (fst st)))
    (let* i := randomMember in
     let* st := get in
     let matingK := MatingK (params (fst st)) in
     let* (j, compat, k) := partnerSearch (Z.to_nat matingK) matingK i 0 false 0 in
     if bool_decide (k >= matingK) then ret tt
     else breed i j generation) ;;
  ret None.

(** Mating strategy in which no compatibility checks are done (fastest). *)
Definition anyMating (generation : Z) : M St (option Err) :=
  let* st := get in
  repeatM (Z.to_nat (iterations (fst st)))
    (let* i := randomMember in
     let* j := randomMember in
     breed i j generation) ;;
  ret None.

Definition setPairFunc (s : Simulation) : Z → M St (option Err) :=
  if negb (Monogamous (params s)) && negb (Compatible (params s)) then anyMating
  else if Monogamous (params s) then monogamousMating
  else nonMonogamousMating.

(** ** The engine *)

Definition swap {A : Type} (l : list A) (x y : Z) : option (list A) :=
  a ← at_ l x; b ← at_ l y; Some (set_at (set_at l x b) y a).

(** [rand.Shuffle(n, swap)]: [for i := n - 1; i > 0; i-- { swap(i, Intn(i+1)) }]. *)
Fixpoint shuffleFrom {A : Type} (i : nat) (l : list A) : M Rng (list A) :=
  match i with
  | O => ret l
  | S i' =>
    let* j := Intn (Z.of_nat i + 1) in
    let* l' := lift (swap l (Z.of_nat i) j) in
    shuffleFrom i' l'
  end.

Definition Shuffle {A : Type} (l : list A) : M Rng (list A) :=
  shuffleFrom (length l - 1) l.

Definition shuffleCurrGen : M St unit :=
  let* st := get in
  let* cg := onRng (Shuffle (currGen (fst st))) in
  onSim (put (with_currGen (fst st) cg)).

(** The loop of [Simulate], [for i := 1; i <= Generations; i++], started at
    [i] with [n] iterations left. *)
Fixpoint simulateFrom (n : nat) (i : Z) (pairFunc : Z → M St (option Err))
  : M St (option Err) :=
  match n with
  | O => ret None
  | S n' =>
    let* st := get in
    let s := fst st in
    if bool_decide (len (currGen s) < 2)
    then ret (Some (ErrInsufficientSurvivors (sim_id s) (len (currGen s)) i))
    else
      shuffleCurrGen ;;
      let* err := pairFunc i in
      match err with
      | Some e => ret (Some e)
      | None =>
        onSim (let* s := get in
               put (with_genBdrys s (genBdrys s ++ [len (agents s)]))) ;;
        onSim (setCurrGen i) ;;
        simulateFrom n' (i + 1) pairFunc
      end
  end.

(** This is the simulation engine function. *)
Definition Simulate : M St (option Err) :=
  onSim (setCurrGen 0) ;;
  let* st := get in
  simulateFrom (Z.to_nat (Generations (params (fst st)))) 1 (setPairFunc (fst st)).

(** A whole run: [NewSimulation] followed by [Simulate]. *)
Definition run (p : Parameters) (r : Rng) : option (option Err * St) :=
  match NewSimulation p r with
  | Some (s, r') => Simulate (s, r')
  | None => None
  end.

(** ** Ancestors *)

Definition setAncestry (a : Agent) (vec : list Z) (set : gset Z) : Agent :=
  mkAgent (id a) (generation a) (sex a) (mother a) (father a) (children a)
          vec set (genes a).

(** The body of [for _, parent := range parents]. *)
Definition addParent (acc : list Z * gset Z) (parent : Z) : list Z * gset Z :=
  if bool_decide (parent ∈ acc.2) then acc
  else (acc.1 ++ [parent], {[parent]} ∪ acc.2).

(** The loop [for sp < len(ancestorVec)] of [setAncestors]; it yields the
    vector and the set it has built.  [None] is a panic, or the loop has
    not finished within [fuel] iterations. *)
Fixpoint ancestorsLoop (fuel : nat) (agents : list Agent) (ancestorVec : list Z)
    (ancestorSet : gset Z) (sp : nat) (generation_ : Z)
  : option (list Z * gset Z) :=
  match fuel with
  | O => None
  | S fuel' =>
    if bool_decide (sp < length ancestorVec)%nat then
      curr ← ancestorVec !! sp;
      c ← at_ agents curr;
      let currGen := generation c in
      if bool_decide (currGen = 0) then Some (ancestorVec, ancestorSet)
      else
        let acc := foldl addParent (ancestorVec, ancestorSet) [mother c; father c] in
        ancestorsLoop fuel' agents acc.1 acc.2 (S sp)
          (if bool_decide (currGen < generation_) then currGen else generation_)
    else Some (ancestorVec, ancestorSet)
  end.

(** Finds all the ancestors for a given agent.  Every turn of the loop
    reads a distinct entry of the vector, whose entries in range are
    distinct but for [id], so [length agents + 2] turns are enough. *)
Definition setAncestors (agents : list Agent) (id_ : Z) : option (list Agent) :=
  a ← at_ agents id_;
  if bool_decide (generation a * 2 < 0) then None
  else
    acc ← ancestorsLoop (length agents + 2) agents [id_] ∅ 0 (generation a);
    let sorted := merge_sort (≤) acc.1 in
    let vec := take (length sorted - 1) sorted in
    Some (set_at agents id_ (setAncestry a vec acc.2)).

(** The loop of [CountCommonElementsSortedArray], at type [int]. *)
Fixpoint countCommonLoop (fuel : nat) (vecA vecB : list Z) (i j : nat) (total : Z)
  : option Z :=
  match fuel with
  | O => None
  | S fuel' =>
    match vecA !! i, vecB !! j with
    | Some x, Some y =>
      if bool_decide (x < y) then countCommonLoop fuel' vecA vecB (S i) j total
      else if bool_decide (x > y) then countCommonLoop fuel' vecA vecB i (S j) total
      else countCommonLoop fuel' vecA vecB (S i) (S j) (total + 1)
    | _, _ => Some total
    end
  end.

(** Counts the number of common elements in two ordered arrays.  Every
    turn of the loop advances [i] or [j], so [len(vecA) + len(vecB) + 1]
    turns are enough. *)
Definition CountCommonElementsSortedArray (vecA vecB : list Z) : option Z :=
  countCommonLoop (S (length vecA + length vecB)) vecA vecB 0 0 0.

(** The loop [for i := len(a.ancestorVec) - 1; i >= 0; i--] of
    [generationDiff], with [n = i + 1]; it yields [generationFound]. *)
Fixpoint generationFoundFrom (n : nat) (agents : list Agent) (avec : list Z)
    (bset : gset Z) : option Z :=
  match n with
  | O => Some 0
  | S i =>
    index ← avec !! i;
    if bool_decide (index ∈ bset)
    then c ← at_ agents index; Some (generation c)
    else generationFoundFrom i agents avec bset
  end.

(** Calculates the number of generations back you need to go to find a
    common ancestor between two agents. *)
Definition generationDiff (agents : list Agent) (a b : Agent) : option Z :=
  generationFound ←
    generationFoundFrom (length (ancestorVec a)) agents (ancestorVec a) (ancestorSet b);
  Some (generation a - generationFound).

(** Sets the ancestors for every agent in the given generation. *)
Definition setAncestorsGen (gen : Z) : M Simulation unit :=
  let* s := get in
  let* lo := lift (at_ (genBdrys s) (gen - 1)) in
  let* hi := lift (at_ (genBdrys s) gen) in
  forEach (seqZ lo (hi - lo))
    (λ i, let* s := get in
          let* ags := lift (setAncestors (agents s) i) in
          put (with_agents s ags)).

(** ** Reports *)

(** What the reports print, one constructor per report; the text layout
    is left out.  A mean is [None] where Go divides by zero. *)
Inductive Output :=
| OutParameters (simId : Z) (p : Parameters)
| OutNumAncestors (simId totAgents numAgentsLastGen generations : Z)
    (maxAncestors : Q) (min_ max_ : Z) (mean : option Z)
| OutCommonAncestors (simId min_ max_ : Z) (mean : option Z)
| OutGenerationDiffErr
| OutGenerationDiff (simId min_ max_ : Z) (mean : option Z)
| OutGenes (simId generation_ numGenes : Z) (maxGene : string)
    (maxGeneCnt numZeroAgents maxIndividual maxIndividualCnt : Z).

(** The reports run on the simulation and the lines printed so far. *)
Definition AnSt : Type := Simulation * list Output.

Definition emit (o : Output) : M AnSt unit :=
  λ st, Some (tt, (st.1, st.2 ++ [o])).

Definition onSimA {A : Type} (m : M Simulation A) : M AnSt A :=
  λ st, match m st.1 with
        | Some (a, s') => Some (a, (s', st.2))
        | None => None
        end.

Definition MaxInt : Z := 2 ^ 63 - 1.
Definition MinInt : Z := - 2 ^ 63.

(** [math.Round]: to the nearest integer, halves away from zero. *)
Definition roundQ (q : Q) : Z :=
  if Qle_bool 0 q then Qfloor (q + (1 # 2)) else - Qfloor (- q + (1 # 2)).

Definition meanOf (total : Z) (den : Q) : option Z :=
  if Qeq_bool den 0 then None else Some (roundQ (inject_Z total / den)).

(** The running minimum, maximum and total of the report loops. *)
Record Stats := mkStats { min_of : Z; max_of : Z; total_of : Z }.

Definition addStat (st : Stats) (x : Z) : Stats :=
  {| min_of := if bool_decide (x < min_of st) then x else min_of st;
     max_of := if bool_decide (x > max_of st) then x else max_of st;
     total_of := total_of st + x |}.

(** [s.agents[len(s.agents)-1].generation]. *)
Definition lastGeneration (s : Simulation) : option Z :=
  a ← at_ (agents s) (len (agents s) - 1); Some (generation a).

(** Reports statistics on number of ancestors agents in the last
    generation have. *)
Definition reportNumAncestors : M AnSt unit :=
  let* st := get in
  let s := st.1 in
  let* gen := lift (lastGeneration s) in
  let* start := lift (at_ (genBdrys s) (gen - 1)) in
  let* sl := lift (slice (agents s) start (len (agents s))) in
  let stats := foldl (λ acc a, addStat acc (len (ancestorVec a)))
                     (mkStats MaxInt MinInt 0) sl in
  let count := len sl in
  emit (OutNumAncestors (sim_id s) (len (agents s)) count gen
          (Qpower (2 # 1) (gen + 1) - (2 # 1))
          (min_of stats) (max_of stats)
          (meanOf (total_of stats) (inject_Z count))).

(** The inner loop of [reportCommonAncestors] for one agent. *)
Fixpoint commonWith (ags : list Agent) (agent : Agent) (js : list Z) (acc : Stats)
  : option Stats :=
  match js with
  | [] => Some acc
  | j :: js' =>
    b ← at_ ags j;
    common ← CountCommonElementsSortedArray (ancestorVec agent) (ancestorVec b);
    commonWith ags agent js' (addStat acc common)
  end.

Fixpoint commonAll (ags sl : list Agent) (acc : Stats) : option Stats :=
  match sl with
  | [] => Some acc
  | agent :: sl' =>
    acc' ← commonWith ags agent (seqZ (id agent + 1) (len ags - (id agent + 1))) acc;
    commonAll ags sl' acc'
  end.

(** Reports statistics on the number of common ancestors that agents in
    the last generation have. *)
Definition reportCommonAncestors : M AnSt unit :=
  let* st := get in
  let s := st.1 in
  let* gen := lift (lastGeneration s) in
  let* start := lift (at_ (genBdrys s) (gen - 1)) in
  let* sl := lift (slice (agents s) start (len (agents s) - 1)) in
  let* stats := lift (commonAll (agents s) sl (mkStats MaxInt MinInt 0)) in
  let pop := len (agents s) - start in
  emit (OutCommonAncestors (sim_id s) (min_of stats) (max_of stats)
          (meanOf (total_of stats) (inject_Z pop * inject_Z pop / (2 # 1)))).

(** The loop [for j := a.id - 1; j > 0; j--] of [reportGenDiff]. *)
Fixpoint genDiffInner (j : nat) (ags : list Agent) (lastGen : Z) (a : Agent)
    (acc : Stats) : option Stats :=
  match j with
  | O => Some acc
  | S j' =>
    b ← ags !! j;
    if bool_decide (generation b ≠ lastGen) then Some acc
    else
      difference ← generationDiff ags a b;
      genDiffInner j' ags lastGen a (addStat acc difference)
  end.

(** The loop [for i := len(s.agents) - 1; i >= 0; i--] of [reportGenDiff],
    with [n = i + 1]; it yields the statistics and [count]. *)
Fixpoint genDiffOuter (n : nat) (ags : list Agent) (lastGen : Z) (acc : Stats)
    (count : Z) : option (Stats * Z) :=
  match n with
  | O => Some (acc, count)
  | S i =>
    a ← ags !! i;
    if bool_decide (generation a ≠ lastGen) then Some (acc, count)
    else
      acc' ← genDiffInner (Z.to_nat (id a - 1)) ags lastGen a acc;
      genDiffOuter i ags lastGen acc' (count + 1)
  end.

(** Reports statistics on the number of generations back you have to
    search to find common ancestors of the agents in the last generation. *)
Definition reportGenDiff : M AnSt unit :=
  let* st := get in
  let s := st.1 in
  let* lastGen := lift (lastGeneration s) in
  if bool_decide (lastGen = 0) then emit OutGenerationDiffErr
  else
    let* res := lift (genDiffOuter (length (agents s)) (agents s) lastGen
                                   (mkStats MaxInt 0 0) 0) in
    emit (OutGenerationDiff (sim_id s) (min_of res.1) (max_of res.1)
            (meanOf (total_of res.1) (inject_Z (res.2 * res.2) / (2 # 1)))).

(** ** Gene analysis *)

(** [strings.Split(gene, "-")[0]]: the text before the first dash. *)
Fixpoint firstComponent (cs : list Ascii.ascii) : list Ascii.ascii :=
  match cs with
  | [] => []
  | c :: cs' => if bool_decide (c = "-"%char) then [] else c :: firstComponent cs'
  end.

Definition digitOf (c : Ascii.ascii) : option Z :=
  let n := Z.of_N (Ascii.N_of_ascii c) in
  if bool_decide (48 ≤ n ≤ 57) then Some (n - 48) else None.

Fixpoint digitsValue (cs : list Ascii.ascii) (acc : Z) : option Z :=
  match cs with
  | [] => Some acc
  | c :: cs' => d ← digitOf c; digitsValue cs' (acc * 10 + d)
  end.

(** [strconv.Atoi]: an optional sign and decimal digits, within the range
    of [int]; [None] is its error. *)
Definition Atoi (cs : list Ascii.ascii) : option Z :=
  let '(neg, ds) :=
    match cs with
    | c :: cs' =>
      if bool_decide (c = "-"%char) then (true, cs')
      else if bool_decide (c = "+"%char) then (false, cs')
      else (false, cs)
    | [] => (false, [])
    end in
  match ds with
  | [] => None
  | _ =>
    v ← digitsValue ds 0;
    let v := if neg then - v else v in
    if bool_decide (MinInt ≤ v ≤ MaxInt) then Some v else None
  end.

Definition increment `{Countable K} (m : gmap K Z) (k : K) : gmap K Z :=
  <[k := default 0 (m !! k) + 1]> m.

(** The tabulation loops of [analyzeGenes] over the genes of one agent;
    [inr tt] is the conversion error. *)
Fixpoint tabulateGenes (gs : list string) (tables : gmap string Z * gmap Z Z)
  : gmap string Z * gmap Z Z + unit :=
  match gs with
  | [] => inl tables
  | gene :: gs' =>
    let geneTable := increment tables.1 gene in
    match Atoi (firstComponent (String.list_ascii_of_string gene)) with
    | None => inr tt
    | Some individual => tabulateGenes gs' (geneTable, increment tables.2 individual)
    end
  end.

Fixpoint tabulateAgents (ags : list Agent) (tables : gmap string Z * gmap Z Z)
  : gmap string Z * gmap Z Z + unit :=
  match ags with
  | [] => inl tables
  | a :: ags' =>
    match tabulateGenes (genes a) tables with
    | inl tables' => tabulateAgents ags' tables'
    | inr e => inr e
    end
  end.

(** [for k, v := range table { if v > maxCnt { max, maxCnt = k, v } }]; Go
    leaves the order of the keys open, the model takes that of
    [map_to_list]. *)
Definition mostCommon {K : Type} `{Countable K} (m : gmap K Z) (k0 : K) : K * Z :=
  foldl (λ acc kv, if bool_decide (kv.2 > acc.2) then kv else acc)
        (k0, 0) (map_to_list m).

(** Reports statistics on gene distribution across a slice of agents. *)
Definition analyzeGenes (ags : list Agent) : M AnSt (option Err) :=
  let* st := get in
  let s := st.1 in
  match tabulateAgents ags (∅, ∅) with
  | inr _ => ret (Some (ErrGeneConversion (sim_id s)))
  | inl (geneTable, individualTable) =>
    let* first := lift (at_ ags 0) in
    let g := mostCommon geneTable "" in
    let i := mostCommon individualTable 0 in
    emit (OutGenes (sim_id s) (generation first) (Z.of_nat (size geneTable))
            g.1 g.2 (Z.of_nat (size individualTable)) i.1 i.2) ;;
    ret None
  end.

(** The loop [for _, end := range s.genBdrys] of [reportGenes]. *)
Fixpoint reportGenesFrom (bdrys : list Z) (start : Z) (lastGenOnly : bool)
  : M AnSt (option Err) :=
  match bdrys with
  | [] => ret None
  | stop :: bdrys' =>
    let* st := get in
    let s := st.1 in
    let* err :=
      (if negb lastGenOnly || bool_decide (stop = len (agents s))
       then let* sl := lift (slice (agents s) start stop) in analyzeGenes sl
       else ret None) in
    match err with
    | Some e => ret (Some e)
    | None => reportGenesFrom bdrys' stop lastGenOnly
    end
  end.

(** Reports gene statistics for a simulation. *)
Definition reportGenes (lastGenOnly : bool) : M AnSt (option Err) :=
  let* st := get in reportGenesFrom (genBdrys st.1) 0 lastGenOnly.

(** ** Analysis *)

(** [strings.Contains(s, c)] for a one-letter [c]. *)
Definition contains (s : string) (c : Ascii.ascii) : bool :=
  bool_decide (c ∈ String.list_ascii_of_string s).

Definition when (b : bool) (m : M AnSt unit) : M AnSt unit :=
  if b then m else ret tt.

(** The statistics selected by the analysis string, in the order in which
    [Analysis] computes them. *)
Definition statistics (sel : string) : M AnSt (option Err) :=
  when (contains sel "N") reportNumAncestors ;;
  when (contains sel "C") reportCommonAncestors ;;
  when (contains sel "D") reportGenDiff ;;
  if contains sel "G" then reportGenes (contains sel "g") else ret None.

(** Reports statistics on the outcome of a simulation. *)
Definition Analysis : M AnSt (option Err) :=
  let* st := get in
  let s := st.1 in
  emit (OutParameters (sim_id s) (params s)) ;;
  if bool_decide (len (agents s) = 0) then ret (Some ErrNoAgents)
  else
    let* gen := lift (lastGeneration s) in
    if bool_decide (gen = 0) then ret (Some (ErrOnlyZeroGeneration (sim_id s)))
    else
      onSimA (setAncestorsGen gen) ;;
      statistics (Analysis_ (params s)).

(** ** Specifications of monadic code *)

(** Partial correctness: if [m] returns from [st], its result and final
    state satisfy [Q]. *)
Definition wlp {St A : Type} (m : M St A) (st : St) (Q : A → St → Prop) : Prop :=
  ∀ a st', m st = Some (a, st') → Q a st'.

(** Total correctness: [m] returns from [st], and its result and final
    state satisfy [Q]. *)
Definition wp {St A : Type} (m : M St A) (st : St) (Q : A → St → Prop) : Prop :=
  ∃ a st', m st = Some (a, st') ∧ Q a st'.

(** ** Arenas *)

(** An arena whose ids are assigned in non-decreasing generation order
    (the id of an agent is its index) and in which the parents of every
    non-founder have strictly smaller ids. *)
Record ArenaOrdered (ags : list Agent) : Prop := mkArenaOrdered {
  arena_id : ∀ i a, at_ ags i = Some a → id a = i;
  arena_nonneg : ∀ i a, at_ ags i = Some a → 0 ≤ generation a;
  arena_mono : ∀ i j a b,
    at_ ags i = Some a → at_ ags j = Some b → i ≤ j →
    generation a ≤ generation b;
  arena_parents : ∀ i a,
    at_ ags i = Some a → generation a ≠ 0 →
    0 ≤ mother a < i ∧ 0 ≤ father a < i
}.

(** An arena whose ids are assigned in non-decreasing generation order and
    in which the parents of every non-founder are agents of the generation
    just before its own. *)
Record ArenaGenerational (ags : list Agent) : Prop := mkArenaGenerational {
  garena_id : ∀ i a, at_ ags i = Some a → id a = i;
  garena_nonneg : ∀ i a, at_ ags i = Some a → 0 ≤ generation a;
  garena_mono : ∀ i j a b,
    at_ ags i = Some a → at_ ags j = Some b → i ≤ j →
    generation a ≤ generation b;
  garena_parents : ∀ i a,
    at_ ags i = Some a → generation a ≠ 0 →
    ∃ m f, at_ ags (mother a) = Some m ∧ at_ ags (father a) = Some f
           ∧ generation m = generation a - 1
           ∧ generation f = generation a - 1
}.

(** The mother and father ids of every agent are indices of the arena
    (for a founder they are 0). *)
Definition ParentsValid (ags : list Agent) : Prop :=
  ∀ i a, at_ ags i = Some a →
         0 ≤ mother a < len ags ∧ 0 ≤ father a < len ags.

(** What [setAncestors] reads of an agent. *)
Definition kin (a : Agent) : Z * Z * Z * Z :=
  (id a, generation a, mother a, father a).

(** [a1] is the agent at index [i] with its ancestors resolved in the
    arena [ags]. *)
Definition Resolved (ags : list Agent) (i : Z) (a1 : Agent) : Prop :=
  ∃ ags', setAncestors ags i = Some ags' ∧ at_ ags' i = Some a1.

(** ** The frame of a generation step *)

(** What a step of the engine keeps: the arena and the generation index
    are untouched. *)
Definition Keeps (s s' : Simulation) : Prop :=
  agents s' = agents s ∧ genBdrys s' = genBdrys s
  ∧ params s' = params s ∧ sim_id s' = sim_id s.

(** What breeding keeps: the arena only grows, the generation index is
    untouched. *)
Definition Grows (s s' : Simulation) : Prop :=
  (length (agents s) ≤ length (agents s'))%nat ∧ genBdrys s' = genBdrys s
  ∧ params s' = params s ∧ sim_id s' = sim_id s.

(** The relation of the engine's state before and after breeding. *)
Definition GrowsSt (st st' : St) : Prop := Grows st.1 st'.1.

(** The generation index of a state: non-decreasing, its last entry the
    length of the arena. *)
Definition IndexOK (s : Simulation) : Prop :=
  Sorted Z.le (genBdrys s) ∧ last (genBdrys s) = Some (len (agents s)).

(** The number of generation steps that a run has completed, read off
    what [Simulate] returns: all of them without an error, and those before
    generation [g] when the step of generation [g] fails. *)
Definition completedSteps (p : Parameters) (e : option Err) : Z :=
  match e with
  | None => Z.max 0 (Generations p)
  | Some (ErrInsufficientSurvivors _ _ g) => g - 1
  | Some (ErrNoMatingPairs _ g) => g - 1
  | Some _ => 0
  end.

(** ** Invariants of the engine *)

(** An agent but for its list of children, the only field that changes
    after the agent is created. *)
Definition noChildren (a : Agent) : Agent :=
  mkAgent (id a) (generation a) (sex a) (mother a) (father a) []
          (ancestorVec a) (ancestorSet a) (genes a).

(** The arena of a simulation with [numGenes] genes: the id of an agent is
    its index, and every agent has its genes. *)
Definition ArenaInv (numGenes : Z) (ags : list Agent) : Prop :=
  ∀ i a, at_ ags i = Some a →
         id a = i ∧ (Z.to_nat numGenes ≤ length (genes a))%nat.

(** The state of the engine between two operations: the arena is
    well-formed and the current generation holds ids of the arena. *)
Definition SimInv (s : Simulation) : Prop :=
  ArenaInv (NumGenes (params s)) (agents s)
  ∧ Forall (λ c, 0 ≤ sel_id c < len (agents s)) (currGen s).

(** The invariant of the engine between two operations: [SimInv], and the
    parents of every agent are agents of the arena. *)
Definition EngineInv (s : Simulation) : Prop :=
  SimInv s ∧ ParentsValid (agents s).

(** The child that [newChild] appends, once its sex and genes are drawn. *)
Definition childOf (ags : list Agent) (father_ mother_ generation_ : Z)
    (sx : Sex) (gs : list string) : Agent :=
  {| id := len ags; generation := generation_; sex := sx;
     mother := mother_; father := father_; children := [];
     ancestorVec := []; ancestorSet := ∅; genes := gs |}.

(** [kid] is a child bred for generation [gen] in a simulation with
    [numGenes] genes. *)
Definition BredFor (numGenes gen : Z) (kid : Agent) : Prop :=
  generation kid = gen ∧ length (genes kid) = Z.to_nat numGenes.

(** [kid] is such a child whose parents are agents of the arena [ags]. *)
Definition BredIn (ags : list Agent) (numGenes gen : Z) (kid : Agent) : Prop :=
  BredFor numGenes gen kid
  ∧ 0 ≤ mother kid < len ags ∧ 0 ≤ father kid < len ags.

(** The state [s] of a simulation that was [s0] before [k] children, each
    of which satisfies [K], were bred: nothing but the arena has changed,
    the arena is well-formed, and it is the old one followed by the
    children (the old agents have gained entries in their child lists). *)
Definition Bred (K : Agent → Prop) (s0 : Simulation) (k : nat) (s : Simulation) : Prop :=
  s = with_agents s0 (agents s)
  ∧ ArenaInv (NumGenes (params s0)) (agents s)
  ∧ ∃ kids, length kids = k
            ∧ noChildren <$> agents s = (noChildren <$> agents s0) ++ kids
            ∧ Forall K kids.

(** A pair whose two ids are agents of the arena. *)
Definition PairValid (ags : list Agent) (pr : matingPair) : Prop :=
  0 ≤ male pr < len ags ∧ 0 ≤ female pr < len ags.

(** The state during [pairAgents], started from [s0]: the arena and the
    index are untouched, the current generation holds the same ids, and
    the pairs made so far are of agents of the arena. *)
Definition Pairing (s0 s : Simulation) : Prop :=
  Keeps s0 s
  ∧ sel_id <$> currGen s = sel_id <$> currGen s0
  ∧ Forall (PairValid (agents s0)) (matingPairs s).

(** A child of generation [gen] whose parents are a pair of [pool]. *)
Definition FromPool (numGenes gen : Z) (pool : list matingPair) (kid : Agent) : Prop :=
  BredFor numGenes gen kid
  ∧ ∃ pr, pr ∈ pool ∧ father kid = male pr ∧ mother kid = female pr.

(** What a strategy owes the driver when it is called for generation
    [gen] on a state with at least two current agents: it returns, and
    when it returns no error it has bred children of generation [gen] from
    agents of the arena. *)
Definition StrategyOK (pairFunc : Z → M St (option Err)) : Prop :=
  ∀ gen st,
    EngineInv st.1 → 2 ≤ len (currGen st.1) →
    wp (pairFunc gen) st
       (λ e st', e = None →
                 ∃ s1 k, Keeps st.1 s1
                         ∧ Bred (BredIn (agents st.1) (NumGenes (params st.1)) gen)
                                s1 k st'.1).

(** ** Concrete data *)

(** The arena of the test suite ([setupSim] of abm_test.go): two founders
    and three generations of their descendants. *)
Definition testAgent (i g : Z) (sx : Sex) (m f : Z) (cs : list Z) : Agent :=
  mkAgent i g sx m f cs [] ∅ [].

Definition testArena : list Agent :=
  [ testAgent 0 0 MALE 0 0 [2; 3; 4];
    testAgent 1 0 MALE 0 0 [2; 3; 4];
    testAgent 2 1 FEMALE 0 1 [];
    testAgent 3 1 MALE 0 1 [5; 6; 7; 8];
    testAgent 4 1 MALE 0 1 [5; 6; 7; 8];
    testAgent 5 2 FEMALE 3 4 [9; 10];
    testAgent 6 2 MALE 3 4 [11; 12; 13];
    testAgent 7 2 FEMALE 3 4 [9; 10];
    testAgent 8 2 MALE 3 4 [11; 12; 13];
    testAgent 9 3 MALE 5 7 [];
    testAgent 10 3 FEMALE 5 7 [];
    testAgent 11 3 FEMALE 8 6 [];
    testAgent 12 3 FEMALE 8 6 [];
    testAgent 13 3 FEMALE 8 6 [] ].

(** [setupSim] with the given parameters: the arena above, its generation
    boundaries as [SetGenBdrys] computes them, generation 3 current. *)
Definition testSim (p : Parameters) : Simulation :=
  {| sim_id := SimulationId p; agents := testArena;
     currGen := (λ i, mkSelected i false) <$> [9; 10; 11; 12; 13];
     genBdrys := [2; 5; 9; 14]; matingPairs := []; params := p |}.

Definition allowCousins (p : Parameters) : Parameters :=
  mkParameters (SimulationId p) (NumAgents p) (Generations p) (GrowthRate p)
    (Monogamous p) (MatingK p) (NumGenes p) (MutationRate p) (Compatible p)
    (MateSelf p) (MateSibling p) true (MateSameSex p) (Analysis_ p).

(** A random source all of whose raw draws are zero: every founder is
    male and every [Intn] yields 0. *)
Definition zeroRng : Rng := mkRng (λ _, 0) 0.

(** The default parameters with compatibility checks on, for one
    generation. *)
Definition compatibleOneGeneration : Parameters :=
  mkParameters 0 2 1 (102 # 100) false 50 10 (0 # 1) true
               false false false false "NCDGg".

(** A random source whose second raw draw is 2^52 and whose other draws
    are zero: of two founders the first is male, the second female. *)
Definition maleFemaleRng : Rng :=
  mkRng (λ n, match n with 1%nat => 2 ^ 52 | _ => 0 end) 0.

(** Two founders, one generation, growth rate 2.0, the monogamous
    strategy, no genes. *)
Definition monogamousPair : Parameters :=
  mkParameters 0 2 1 (2 # 1) true 50 0 (0 # 1) true
               false false false false "N".

(** The state of that simulation at the start of its generation step: a
    male and a female founder. *)
Definition monogamousStart : St :=
  ({| sim_id := 0;
      agents := [mkAgent 0 0 MALE 0 0 [] [] ∅ []; mkAgent 1 0 FEMALE 0 0 [] [] ∅ []];
      currGen := [mkSelected 0 false; mkSelected 1 false];
      genBdrys := [2];
      matingPairs := [];
      params := monogamousPair |},
   mkRng (stream maleFemaleRng) 2).

(** That state once its current generation is shuffled, and once it is
    paired. *)
Definition monogamousShuffled : St :=
  Eval vm_compute in
    match shuffleCurrGen monogamousStart with
    | Some (_, st) => st
    | None => monogamousStart
    end.

Definition monogamousPaired : Simulation :=
  Eval vm_compute in
    match pairAgents monogamousShuffled.1 with
    | Some (_, s) => s
    | None => monogamousShuffled.1
    end.

(** The state in which the strategy of generation 1 starts: the founders
    are seeded, generation 0 is current and shuffled. *)
Definition firstStepStart (p : Parameters) (r : Rng) : option St :=
  match NewSimulation p r with
  | Some (s, r') =>
    match onSim (setCurrGen 0) (s, r') with
    | Some (_, st) =>
      match shuffleCurrGen st with
      | Some (_, st') => Some st'
      | None => None
      end
    | None => None
    end
  | None => None
  end.

(** The default parameters with compatibility checks on and a search
    width of one draw, for one generation. *)
Definition oneDraw : Parameters :=
  mkParameters 0 2 1 (102 # 100) false 1 10 (0 # 1) true
               false false false false "NCDGg".

(** A random source that makes the first founder male and the second
    female, and whose first two draws of parents pick the female, then the
    male. *)
Definition oneDrawRng : Rng :=
  mkRng (λ n, match n with 1%nat => 2 ^ 52 | 4%nat => 1 | _ => 0 end) 0.

(** The selection loop of [analyzeGenes],
    [for k, v := range table { if v > maxCnt { max, maxCnt = k, v } }],
    over the entries of the table in the order [l]. *)
Definition mostCommonIn {K : Type} (l : list (K * Z)) (k0 : K) : K * Z :=
  foldl (λ acc kv, if bool_decide (kv.2 > acc.2) then kv else acc) (k0, 0) l.
(** A gene after [n] mutations: each one appends a backtick
    ([agent.genes[len(agent.genes)-1] += "`"] in [newChild]). *)
Fixpoint mutated (n : nat) (gene : string) : string :=
  match n with
  | O => gene
  | S n' => mutated n' gene +:+ "`"
  end.

(** The gene [k] of the founder [i], as [NewSimulation] prints it. *)
Definition founderGene (i k : Z) : string := pretty i +:+ "-" +:+ pretty k.
(** ** Recomputing the generation index *)

(** The loop [for i := range len(s.agents)] of [SetGenBdrys], at index [i]
    with the agents from [i] on still to visit. *)
Fixpoint genBdrysFrom (ags : list Agent) (i gen : Z) (bdrys : list Z) : list Z :=
  match ags with
  | [] => bdrys
  | a :: ags' =>
    if bool_decide (gen ≠ generation a)
    then genBdrysFrom ags' (i + 1) (generation a) (bdrys ++ [i])
    else genBdrysFrom ags' (i + 1) gen bdrys
  end.

(** Creates the generation index from the generations of the agents. *)
Definition SetGenBdrys : M Simulation unit :=
  let* s := get in
  match agents s with
  | [] => put (with_genBdrys s [])
  | first :: _ =>
    put (with_genBdrys s (genBdrysFrom (agents s) 0 (generation first) []
                          ++ [len (agents s)]))
  end.
(** ** Births *)

(** [agents[i].children = append(agents[i].children, c)], for [i] in
    range. *)
Definition addChildAt (ags : list Agent) (i c : Z) : list Agent :=
  match at_ ags i with
  | Some a => set_at ags i (addChild a c)
  | None => ags
  end.

(** The arena once [kid] is born: the child is appended and its id is
    entered in the list of children of its father, then in that of its
    mother. *)
Definition bear (ags : list Agent) (kid : Agent) : list Agent :=
  addChildAt (addChildAt (ags ++ [kid]) (father kid) (id kid)) (mother kid) (id kid).

(** The gene [g] is inherited at position [k] from the agent [parent] of
    the arena [ags]: it is the gene of the parent at that position,
    marked with one more backtick if it has mutated, which takes a
    positive mutation rate. *)
Definition inherited (ags : list Agent) (rate : Q) (parent : Z) (k : nat)
    (g : string) : Prop :=
  ∃ pa g0, at_ ags parent = Some pa ∧ genes pa !! k = Some g0
           ∧ (g = g0 ∨ Qltb 0 rate = true ∧ g = g0 +:+ "`").

(** [kid] is a child that [newChild] makes in the arena [ags] for the
    father [f] and the mother [m]. *)
Record Newborn (ags : list Agent) (f m numGenes gen : Z) (rate : Q)
    (kid : Agent) : Prop := mkNewborn {
  newborn_id : id kid = len ags;
  newborn_generation : generation kid = gen;
  newborn_father : father kid = f;
  newborn_mother : mother kid = m;
  newborn_children : children kid = [];
  newborn_ancestorVec : ancestorVec kid = [];
  newborn_ancestorSet : ancestorSet kid = ∅;
  newborn_numGenes : length (genes kid) = Z.to_nat numGenes;
  newborn_genes : ∀ k g, genes kid !! k = Some g →
                         inherited ags rate f k g ∨ inherited ags rate m k g
}.

(** The agent [a] at index [j] once [kid] is born: the id of the child is
    entered in its list of children if it is the father, and once more if
    it is the mother. *)
Definition withChildOf (kid : Agent) (j : Z) (a : Agent) : Agent :=
  let a1 := if bool_decide (father kid = j) then addChild a (id kid) else a in
  if bool_decide (mother kid = j) then addChild a1 (id kid) else a1.

(** [n] births one after the other, each of a child that satisfies [K] in
    the arena into which it is born. *)
Inductive Births (K : list Agent → Agent → Prop) (ags : list Agent)
  : nat → list Agent → Prop :=
| Births_none : Births K ags 0 ags
| Births_more (n : nat) (ags1 : list Agent) (kid : Agent) :
    Births K ags n ags1 → K ags1 kid → Births K ags (S n) (bear ags1 kid).

(** A child bred for generation [gen] by a strategy that started in the
    state [s0]: its parents are members of the current generation of [s0]
    and satisfy [P] in the arena into which the child is born. *)
Definition Offspring (s0 : Simulation) (gen : Z) (P : list Agent → Z → Z → Prop)
    (ags : list Agent) (kid : Agent) : Prop :=
  Newborn ags (father kid) (mother kid) (NumGenes (params s0)) gen
          (MutationRate (params s0)) kid
  ∧ father kid ∈ sel_id <$> currGen s0
  ∧ mother kid ∈ sel_id <$> currGen s0
  ∧ P ags (father kid) (mother kid).

(** No condition on the parents. *)
Definition anyPair (ags : list Agent) (f m : Z) : Prop := True.

(** The mother was found compatible with the father, in this order of the
    two, in the state [s0] with the arena [ags]. *)
Definition compatiblePair (s0 : Simulation) (ags : list Agent) (f m : Z) : Prop :=
  ∃ a b, at_ ags f = Some a ∧ at_ ags m = Some b
         ∧ compatible (with_agents s0 ags) a b = Some true.

(** The parents are a pair of the pool. *)
Definition pooledPair (pool : list matingPair) (ags : list Agent) (f m : Z) : Prop :=
  mkPair f m ∈ pool.

(** The state while a strategy that started in [st0] breeds: nothing but
    the arena has changed, and the arena has seen [k] births. *)
Definition Breeding (K : list Agent → Agent → Prop) (st0 : St) (k : nat) (st : St)
  : Prop :=
  st.1 = with_agents st0.1 (agents st.1) ∧ Births K (agents st0.1) k (agents st.1).


(** The id of every agent is its index in the arena. *)
Definition IdsOK (ags : list Agent) : Prop :=
  ∀ j a, at_ ags j = Some a → id a = j.

(** What a strategy leaves alone: the generation index, the parameters,
    the id of the simulation and the ids of the current generation. *)
Definition Frame (s s' : Simulation) : Prop :=
  genBdrys s' = genBdrys s ∧ params s' = params s ∧ sim_id s' = sim_id s
  ∧ sel_id <$> currGen s' = sel_id <$> currGen s.

(** What every strategy does when it is called for generation [gen]: it
    breeds children of that generation from members of the current
    generation, none when it returns an error, and changes nothing else in
    the arena. *)
Definition StrategyBreeds (pairFunc : Z → M St (option Err)) : Prop :=
  ∀ gen st,
    IdsOK (agents st.1) →
    wlp (pairFunc gen) st
        (λ e st', Frame st.1 st'.1
                  ∧ ∃ n, Births (Offspring st.1 gen anyPair) (agents st.1) n
                                (agents st'.1)
                         ∧ (e ≠ None → n = 0%nat)).

(** The state during [pairAgents], started in [s0]: the arena and the
    index are untouched, the current generation holds the same ids, and
    the pairs made so far are of members of the current generation. *)
Definition PairingMembers (s0 s : Simulation) : Prop :=
  Keeps s0 s
  ∧ sel_id <$> currGen s = sel_id <$> currGen s0
  ∧ Forall (λ pr, male pr ∈ sel_id <$> currGen s0
                  ∧ female pr ∈ sel_id <$> currGen s0) (matingPairs s).


(** ** The lineage of an arena *)

(** The gene [g], at position [k] of an agent, comes from a founder: it
    is the gene that [NewSimulation] printed at that position for an agent
    of generation 0, marked with one backtick for each mutation since;
    unless the mutation rate is positive there is none. *)
Definition FromFounder (p : Parameters) (ags : list Agent) (k : nat) (g : string)
  : Prop :=
  ∃ f fa n, at_ ags f = Some fa ∧ generation fa = 0
            ∧ g = mutated n (founderGene f (Z.of_nat k))
            ∧ (Qltb 0 (MutationRate p) = false → n = 0%nat).

(** The agent at index [c] is a child of the agent at index [j]: it is no
    founder and [j] is its mother or its father. *)
Definition IsChild (ags : list Agent) (j c : Z) : Prop :=
  ∃ k, at_ ags c = Some k ∧ generation k ≠ 0 ∧ (mother k = j ∨ father k = j).

(** What the engine keeps of the arena of a simulation with the
    parameters [p], whatever the generation index: ids are indices; the
    parents of an agent that is no founder are agents of the generation
    just before its own, and those of a founder are set to 0; every agent
    has [NumGenes] genes, each from a founder; the list of children of an
    agent holds the ids of its children and nothing else; and no ancestor
    is resolved. *)
Record Lineal (p : Parameters) (ags : list Agent) : Prop := mkLineal {
  lin_ids : IdsOK ags;
  lin_parents : ∀ j a,
    at_ ags j = Some a → generation a ≠ 0 →
    ∃ m f, at_ ags (mother a) = Some m ∧ at_ ags (father a) = Some f
           ∧ generation m = generation a - 1
           ∧ generation f = generation a - 1;
  lin_founders : ∀ j a,
    at_ ags j = Some a → generation a = 0 → mother a = 0 ∧ father a = 0;
  lin_genes : ∀ j a,
    at_ ags j = Some a →
    length (genes a) = Z.to_nat (NumGenes p)
    ∧ ∀ k g, genes a !! k = Some g → FromFounder p ags k g;
  lin_children : ∀ j a,
    at_ ags j = Some a → ∀ c, c ∈ children a ↔ IsChild ags j c;
  lin_unresolved : ∀ j a,
    at_ ags j = Some a → ancestorVec a = [] ∧ ancestorSet a = ∅
}.

(** The index [j] lies in the generation [g] of the generation index
    [bdrys]: below the boundary of [g], and not below the boundary before
    (none for generation 0). *)
Definition InGeneration (bdrys : list Z) (g j : Z) : Prop :=
  (∃ hi, at_ bdrys g = Some hi ∧ j < hi)
  ∧ (g = 0 ∨ ∃ lo, at_ bdrys (g - 1) = Some lo ∧ lo ≤ j).

(** The generation index describes the arena: every agent lies in its
    generation. *)
Definition Layout (s : Simulation) : Prop :=
  ∀ j a, at_ (agents s) j = Some a → InGeneration (genBdrys s) (generation a) j.

(** The invariant of the engine, in the states from which [Simulate]
    returns. *)
Definition Lineage (s : Simulation) : Prop :=
  Lineal (params s) (agents s) ∧ IndexOK s ∧ Layout s.

(** The current generation of a state whose index has [i] entries: its
    members are agents of the last generation, [i - 1]. *)
Definition CurrOK (s : Simulation) : Prop :=
  Forall (λ c, ∃ a, at_ (agents s) (sel_id c) = Some a
                    ∧ generation a = len (genBdrys s) - 1) (currGen s).

(** ** The founders *)

(** The sex that [NewSimulation] and [newChild] give for the raw draw [x]:
    [MALE] when [rand.Float64() < 0.5]. *)
Definition sexOfDraw (x : Z) : Sex :=
  if Qltb (Qmake (x `mod` 2 ^ 53) (2 ^ 53)%positive) (1 # 2) then MALE else FEMALE.

(** The founder with the id [i] and the sex [sx]. *)
Definition founder (p : Parameters) (i : Z) (sx : Sex) : Agent :=
  {| id := i; generation := 0; sex := sx; mother := 0; father := 0;
     children := []; ancestorVec := []; ancestorSet := ∅;
     genes := founderGenes i (NumGenes p) |}.

(** The founder [i] of a simulation that is created from the random
    source [r]: its sex is decided by the draw [i] from there on. *)
Definition founderOf (p : Parameters) (r : Rng) (i : Z) : Agent :=
  founder p i (sexOfDraw (stream r (pos r + Z.to_nat i))).


(** The simulation that [NewSimulation] creates for the parameters [p]
    from the random source [r]. *)
Definition newSimulation (p : Parameters) (r : Rng) : Simulation :=
  {| sim_id := SimulationId p;
     agents := founderOf p r <$> seqZ 0 (NumAgents p);
     currGen := (λ i, mkSelected i false) <$> seqZ 0 (Z.max 0 (NumAgents p));
     genBdrys := [Z.max 0 (NumAgents p)];
     matingPairs := [];
     params := p |}.

(** The arena [ags'] holds the agents of [ags] at their indices, with
    their lists of children possibly longer. *)
Definition Extends (ags ags' : list Agent) : Prop :=
  ∀ j a, at_ ags j = Some a → ∃ a', at_ ags' j = Some a' ∧ noChildren a' = noChildren a.


(** A condition on the parents that births do not undo. *)
Definition Lasting (P : list Agent → Z → Z → Prop) : Prop :=
  ∀ ags ags' f m, Extends ags ags' → P ags f m → P ags' f m.


(** ** The pool of the monogamous strategy *)

(** The positions of the current generation that the position pairs [ps]
    take up. *)
Definition positions (ps : list (Z * Z)) : list Z := ps ≫= λ p, [p.1; p.2].

(** The pair [pr] is made in the state [s] of the members at the positions
    [p.1] and [p.2] of the current generation: the second follows the
    first at a distance below [MatingK], the compatibility test accepts
    the two, the first in first position, and [makePair] makes the pair
    of them. *)
Definition PairMade (s : Simulation) (pr : matingPair) (p : Z * Z) : Prop :=
  ∃ ci cj a b,
    at_ (currGen s) p.1 = Some ci ∧ at_ (currGen s) p.2 = Some cj
    ∧ at_ (agents s) (sel_id ci) = Some a ∧ at_ (agents s) (sel_id cj) = Some b
    ∧ p.1 < p.2 < p.1 + MatingK (params s)
    ∧ compatible s a b = Some true
    ∧ pr = makePair a b.

(** The members at the positions [i] and [j] of the current generation
    of [s], if neither is taken up by [ps], have been refused by the
    compatibility test. *)
Definition RefusedAt (s : Simulation) (ps : list (Z * Z)) (i j : Z) : Prop :=
  i ∉ positions ps → j ∉ positions ps →
  ∀ ci cj a b,
    at_ (currGen s) i = Some ci → at_ (currGen s) j = Some cj →
    at_ (agents s) (sel_id ci) = Some a → at_ (agents s) (sel_id cj) = Some b →
    compatible s a b = Some false.

(** The state [s] during [pairAgents], started in [s0], when the pairs
    made so far are those of the position pairs [ps]. *)
Record PairingInv (s0 s : Simulation) (ps : list (Z * Z)) : Prop := mkPairingInv {
  pi_keeps : Keeps s0 s;
  pi_ids : sel_id <$> currGen s = sel_id <$> currGen s0;
  pi_pairs : Forall2 (PairMade s0) (matingPairs s) ps;
  pi_nodup : NoDup (positions ps);
  pi_mated : ∀ k c, at_ (currGen s) k = Some c → (mated c = true ↔ k ∈ positions ps)
}.

(** ** The sizes of the generations *)



(** The default parameters with the monogamous strategy and a search
    width of 1. *)
Definition monogamousNarrow : Parameters :=
  mkParameters 0 2 32 (102 # 100) true 1 10 (0 # 1) true
               false false false false "NCDGg".


(** ** Ancestors *)

(** [x] is an ancestor of the agent [i] in the arena [ags]: a parent of
    [i], or a parent of an ancestor of [i]; founders have no parents. *)
Inductive Ancestor (ags : list Agent) (i : Z) : Z → Prop :=
| Ancestor_parent (a : Agent) (x : Z) :
    at_ ags i = Some a → generation a ≠ 0 →
    x = mother a ∨ x = father a → Ancestor ags i x
| Ancestor_more (y : Z) (c : Agent) (x : Z) :
    Ancestor ags i y → at_ ags y = Some c → generation c ≠ 0 →
    x = mother c ∨ x = father c → Ancestor ags i x.

(** The state of the loop of [setAncestors] for the agent [id_], at the
    position [sp] of the vector [vec]: the vector starts with [id_] and
    goes on with ancestors of [id_], the same ids as the set; the entries
    before [sp] are no founders and have their parents in the vector; the
    generations never increase along the vector, and no entry is more
    than one generation below the entry at [sp]. *)
Record BfsInv (ags : list Agent) (id_ : Z) (sp : nat) (vec : list Z)
    (set : gset Z) : Prop := mkBfsInv {
  bfs_head : head vec = Some id_;
  bfs_set : set = list_to_set (tail vec);
  bfs_sound : Forall (Ancestor ags id_) (tail vec);
  bfs_done : ∀ k x c,
    (k < sp)%nat → vec !! k = Some x → at_ ags x = Some c →
    generation c ≠ 0 ∧ mother c ∈ tail vec ∧ father c ∈ tail vec;
  bfs_order : ∀ k1 k2 x1 x2 c1 c2,
    (k1 ≤ k2)%nat → vec !! k1 = Some x1 → vec !! k2 = Some x2 →
    at_ ags x1 = Some c1 → at_ ags x2 = Some c2 →
    generation c2 ≤ generation c1;
  bfs_front : ∀ y cy x c,
    vec !! sp = Some y → at_ ags y = Some cy → x ∈ vec → at_ ags x = Some c →
    generation cy - 1 ≤ generation c
}.


(** ** The analysis of a run *)

(** The gene has a first component that [strconv.Atoi] converts. *)
Definition Parses (gene : string) : Prop :=
  is_Some (Atoi (firstComponent (String.list_ascii_of_string gene))).

(** Whether the loop of [reportGenes] over the boundaries [bdrys], that
    starts at [start] in an arena of [n] agents, comes to analyse a
    generation with no agent. *)
Fixpoint analysesEmpty (bdrys : list Z) (start n : Z) (lastGenOnly : bool) : bool :=
  match bdrys with
  | [] => false
  | stop :: bdrys' =>
    (negb lastGenOnly || bool_decide (stop = n)) && bool_decide (start = stop)
    || analysesEmpty bdrys' stop n lastGenOnly
  end.

(** Two founders, two generations, the strategy with compatibility
    checks, siblings not allowed, one gene, the gene report alone. *)
Definition siblingsOnly : Parameters :=
  mkParameters 0 2 2 (102 # 100) false 50 1 (0 # 1) true
               false false false false "G".

(** A random source whose second raw draw is 2^52 and whose draw [n] is
    [n] otherwise: of two founders the first is male, the second female,
    and [Intn(2)] alternates. *)
Definition countingRng : Rng :=
  mkRng (λ n, match n with 1%nat => 2 ^ 52 | _ => Z.of_nat n end) 0.

(** * Properties *)

(** ** Slices *)

Lemma at_Some {A : Type} (l : list A) (i : Z) (x : A) :
  at_ l i = Some x ↔ 0 ≤ i ∧ l !! Z.to_nat i = Some x.
Proof.
  unfold at_. case_bool_decide; split; intros H1; try done.
  - lia.
  - split; [lia | done].
  - by destruct H1.
Qed.

Lemma at_of_nat {A : Type} (l : list A) (n : nat) : at_ l (Z.of_nat n) = l !! n.
Proof.
  unfold at_. rewrite bool_decide_eq_false_2 by lia. by rewrite Nat2Z.id.
Qed.

Lemma at_lt {A : Type} (l : list A) (i : Z) :
  0 ≤ i < len l → ∃ x, at_ l i = Some x.
Proof.
  intros [H0 H1]. unfold len in H1.
  destruct (lookup_lt_is_Some_2 l (Z.to_nat i)) as [x Hx]; [lia |].
  exists x. by apply at_Some.
Qed.

Lemma at_Some_lt {A : Type} (l : list A) (i : Z) (x : A) :
  at_ l i = Some x → 0 ≤ i < len l.
Proof.
  intros [H0 H1]%at_Some. apply lookup_lt_Some in H1. unfold len. lia.
Qed.

(** ** Siblings and cousins *)

Lemma isSibling_true (a b : Agent) :
  isSibling a b = true ↔
  generation a > 0 ∧ (mother a = mother b ∨ father a = father b).
Proof.
  unfold isSibling.
  rewrite andb_true_iff, orb_true_iff, !bool_decide_eq_true. tauto.
Qed.

(** C5, as the code has it: the sibling predicate holds for [(a, b)]
    exactly when [a], the first agent, is at generation > 0 and the two
    share a mother id or a father id; the generation of [b] is not looked
    at.  So a generation-0 agent in first position is never a sibling of
    anyone, and for two agents of the same generation (as at every call of
    the engine) the predicate is that both are beyond generation 0 and
    share a parent id. *)
Theorem isSibling_first_generation (a b : Agent) :
  (isSibling a b = true ↔
     generation a > 0 ∧ (mother a = mother b ∨ father a = father b))
  ∧ (isSibling a b = true ∧ generation a = generation b ↔
     generation a = generation b ∧ generation a > 0 ∧ generation b > 0
     ∧ (mother a = mother b ∨ father a = father b))
  ∧ ¬ (generation a = 0 ∧ isSibling a b = true).
Proof.
  split; [apply isSibling_true |]. split.
  - rewrite isSibling_true. split.
    + intros [[Hg Hp] He]. repeat split; try done. lia.
    + intros (He & Hg & _ & Hp). done.
  - rewrite isSibling_true. lia.
Qed.

(** C5, refuted as stated: agent 2 of the test arena (generation 1, mother
    0) passes the sibling test against founder 0, a generation-0 agent. *)
Lemma isSibling_founder_second :
  ∃ x y, at_ testArena 0 = Some x ∧ at_ testArena 2 = Some y
         ∧ generation x = 0 ∧ isSibling y x = true.
Proof. eexists _, _. repeat split; reflexivity. Qed.

Lemma isCousin_Some_true (ags : list Agent) (a b : Agent) :
  isCousin ags a b = Some true ↔
  generation a >= 2 ∧ generation b >= 2 ∧
  ∃ aMother aFather bMother bFather,
    at_ ags (mother a) = Some aMother ∧ at_ ags (father a) = Some aFather ∧
    at_ ags (mother b) = Some bMother ∧ at_ ags (father b) = Some bFather ∧
    (isSibling aMother bMother = true ∨ isSibling aMother bFather = true ∨
     isSibling aFather bMother = true ∨ isSibling aFather bFather = true).
Proof.
  unfold isCousin. split.
  - destruct (bool_decide (generation a < 2)) eqn:Ha; [done |].
    destruct (bool_decide (generation b < 2)) eqn:Hb; [done |]. simpl.
    apply bool_decide_eq_false in Ha, Hb.
    destruct (at_ ags (mother a)) as [am|]; [| done].
    destruct (at_ ags (father a)) as [af|]; [| done].
    destruct (at_ ags (mother b)) as [bm|]; [| done].
    destruct (at_ ags (father b)) as [bf|]; [| done]. simpl.
    intros [= H]. repeat split; [lia | lia |].
    exists am, af, bm, bf. repeat split.
    rewrite !orb_true_iff in H. tauto.
  - intros (Ha & Hb & am & af & bm & bf & -> & -> & -> & -> & H).
    rewrite !bool_decide_eq_false_2 by lia. simpl. f_equal.
    rewrite !orb_true_iff. tauto.
Qed.

(** A pair reaches rule 4 when the self, same-sex and sibling rules let it
    pass. *)
Definition reachesRule4 (s : Simulation) (a b : Agent) : Prop :=
  negb (MateSelf (params s)) && bool_decide (id a = id b) = false
  ∧ negb (MateSameSex (params s)) && bool_decide (sex a = sex b) = false
  ∧ negb (MateSibling (params s)) && isSibling a b = false.

(** What rule 4 does in the code: a pair that reaches it is rejected
    exactly when the cousin flag is set and the two are cousins. *)
Lemma compatible_rule4 (s : Simulation) (a b : Agent) :
  reachesRule4 s a b →
  compatible s a b = Some false ↔
  MateCousin (params s) = true ∧ isCousin (agents s) a b = Some true.
Proof.
  intros (H1 & H2 & H3). unfold compatible. rewrite H1, H2, H3.
  destruct (MateCousin (params s)).
  - destruct (isCousin (agents s) a b) as [[]|]; simpl;
      split; (intros [? ?] || intros ?); try done.
  - split; [done | intros [? ?]; done].
Qed.

(** C1 at a failing input: agents 9 and 11 of the test arena are cousins
    (their parents 5, 7, 8 and 6 are siblings) and reach rule 4 under the
    default parameters.  With cousin mating disallowed, the default, the
    code finds them compatible; with cousin mating allowed it rejects
    them. *)
Theorem compatible_cousin_flag_inverted :
  ∃ a b,
    at_ testArena 9 = Some a ∧ at_ testArena 11 = Some b
    ∧ reachesRule4 (testSim NewParameters) a b
    ∧ reachesRule4 (testSim (allowCousins NewParameters)) a b
    ∧ isCousin testArena a b = Some true
    ∧ MateCousin NewParameters = false
    ∧ compatible (testSim NewParameters) a b = Some true
    ∧ compatible (testSim (allowCousins NewParameters)) a b = Some false.
Proof. eexists _, _. repeat split; reflexivity. Qed.

(** ** Counting common elements *)

Lemma StronglySorted_drop {A : Type} (R : relation A) (l : list A) (n : nat) :
  StronglySorted R l → StronglySorted R (drop n l).
Proof.
  intros H. rewrite <- (take_drop n l) in H.
  by apply StronglySorted_app_1_r in H.
Qed.

Lemma ascending_StronglySorted (l : list Z) :
  Sorted Z.le l → NoDup l → StronglySorted Z.lt l.
Proof.
  intros Hs Hn. apply Sorted_StronglySorted in Hs; [| apply _].
  induction l as [|x l IH]; [constructor |].
  apply StronglySorted_inv in Hs as [Hs Hx].
  apply NoDup_cons in Hn as [Hx' Hn].
  constructor; [by apply IH |].
  rewrite Forall_forall in Hx |- *. intros y Hy.
  specialize (Hx y Hy). assert (x ≠ y) by (intros ->; done). lia.
Qed.

Lemma head_not_in_greater (x y : Z) (l : list Z) :
  x < y → StronglySorted Z.lt (y :: l) → x ∉ y :: l.
Proof.
  intros Hxy [_ Hy]%StronglySorted_inv [->|Hin]%elem_of_cons; [lia |].
  rewrite Forall_forall in Hy. specialize (Hy x Hin). lia.
Qed.

Lemma head_not_in_tail (x : Z) (l : list Z) :
  StronglySorted Z.lt (x :: l) → x ∉ l.
Proof.
  intros [_ Hx]%StronglySorted_inv Hin.
  rewrite Forall_forall in Hx. specialize (Hx x Hin). lia.
Qed.

(** The loop started at [i], [j] adds the number of elements that the two
    remaining suffixes share. *)
Lemma countCommonLoop_suffixes (vecA vecB : list Z) :
  StronglySorted Z.lt vecA → StronglySorted Z.lt vecB →
  ∀ (fuel i j : nat) (total : Z),
    (length vecA - i + (length vecB - j) < fuel)%nat →
    countCommonLoop fuel vecA vecB i j total =
    Some (total + Z.of_nat (size (list_to_set (drop i vecA) ∩
                                  list_to_set (drop j vecB) : gset Z))).
Proof.
  intros HA HB fuel.
  induction fuel as [|fuel IH]; intros i j total Hfuel; [lia |].
  simpl.
  destruct (vecA !! i) as [x|] eqn:Hi; cycle 1.
  { apply lookup_ge_None in Hi. rewrite (drop_ge vecA) by done. simpl.
    rewrite intersection_empty_l_L, size_empty. f_equal. lia. }
  destruct (vecB !! j) as [y|] eqn:Hj; cycle 1.
  { apply lookup_ge_None in Hj. rewrite (drop_ge vecB) by done. simpl.
    rewrite intersection_empty_r_L, size_empty. f_equal. lia. }
  pose proof (lookup_lt_Some _ _ _ Hi) as Hli.
  pose proof (lookup_lt_Some _ _ _ Hj) as Hlj.
  pose proof (StronglySorted_drop Z.lt vecA i HA) as HdA.
  pose proof (StronglySorted_drop Z.lt vecB j HB) as HdB.
  rewrite (drop_S vecA x i Hi) in HdA |- *.
  rewrite (drop_S vecB y j Hj) in HdB |- *.
  case_bool_decide as Hlt; [| case_bool_decide as Hgt].
  - rewrite IH by lia. rewrite (drop_S vecB y j Hj). do 4 f_equal.
    pose proof (head_not_in_greater x y _ Hlt HdB) as Hx.
    rewrite !list_to_set_cons. set_solver.
  - rewrite IH by lia. rewrite (drop_S vecA x i Hi). do 4 f_equal.
    assert (y < x) as Hyx by lia.
    pose proof (head_not_in_greater y x _ Hyx HdA) as Hy.
    rewrite !list_to_set_cons. set_solver.
  - assert (x = y) as -> by lia.
    rewrite IH by lia.
    pose proof (head_not_in_tail _ _ HdA) as HxA.
    pose proof (head_not_in_tail _ _ HdB) as HxB.
    rewrite !list_to_set_cons.
    replace (({[y]} ∪ list_to_set (drop (S i) vecA)) ∩
             ({[y]} ∪ list_to_set (drop (S j) vecB)) : gset Z)
      with ({[y]} ∪ (list_to_set (drop (S i) vecA) ∩
                     list_to_set (drop (S j) vecB)) : gset Z) by set_solver.
    rewrite (size_union (C:=gset Z) {[y]}) by set_solver.
    rewrite size_singleton. f_equal. lia.
Qed.

(** C6: on ascending, duplicate-free sequences the count is the size of
    the intersection of the two sets of elements, and it is symmetric. *)
Theorem CountCommonElementsSortedArray_intersection (vecA vecB : list Z)
    (HA : Sorted Z.le vecA) (HnA : NoDup vecA)
    (HB : Sorted Z.le vecB) (HnB : NoDup vecB) :
  CountCommonElementsSortedArray vecA vecB =
    Some (Z.of_nat (size (list_to_set vecA ∩ list_to_set vecB : gset Z)))
  ∧ CountCommonElementsSortedArray vecA vecB =
    CountCommonElementsSortedArray vecB vecA.
Proof.
  pose proof (ascending_StronglySorted _ HA HnA) as SA.
  pose proof (ascending_StronglySorted _ HB HnB) as SB.
  unfold CountCommonElementsSortedArray.
  rewrite (countCommonLoop_suffixes vecA vecB SA SB) by lia.
  rewrite (countCommonLoop_suffixes vecB vecA SB SA) by lia.
  simpl. split; [done |]. do 4 f_equal. set_solver.
Qed.

Lemma CountCommonElementsSortedArray_intersection_witness :
  CountCommonElementsSortedArray [1; 2; 3; 5] [0; 2; 4] = Some 1
  ∧ CountCommonElementsSortedArray [1; 2; 3; 5] [0; 2; 4] =
    CountCommonElementsSortedArray [0; 2; 4] [1; 2; 3; 5].
Proof.
  apply (CountCommonElementsSortedArray_intersection [1; 2; 3; 5] [0; 2; 4]).
  - repeat constructor; lia.
  - repeat constructor; set_solver.
  - repeat constructor; lia.
  - repeat constructor; set_solver.
Defined.

(** ** Resolving ancestors *)

Lemma ArenaGenerational_ordered (ags : list Agent) :
  ArenaGenerational ags → ArenaOrdered ags.
Proof.
  intros [Hid Hnn Hmono Hpar]. split; try done.
  intros i a Ha Hg.
  destruct (Hpar i a Ha Hg) as (m & f & Hm & Hf & Hgm & Hgf).
  pose proof (at_Some_lt _ _ _ Hm). pose proof (at_Some_lt _ _ _ Hf).
  split; split; try lia.
  - destruct (decide (mother a < i)) as [|Hge]; [done |].
    assert (generation a ≤ generation m) by (apply (Hmono i (mother a)); [done .. | lia]).
    lia.
  - destruct (decide (father a < i)) as [|Hge]; [done |].
    assert (generation a ≤ generation f) by (apply (Hmono i (father a)); [done .. | lia]).
    lia.
Qed.

Lemma below_length (id_ : Z) (rest : list Z) :
  NoDup rest → Forall (λ x, 0 ≤ x < id_) rest → (length rest ≤ Z.to_nat id_)%nat.
Proof.
  intros Hn Hr. rewrite <- (length_seqZ 0 id_).
  apply submseteq_length, NoDup_submseteq; [done |].
  intros x Hx. rewrite Forall_forall in Hr. apply elem_of_seqZ.
  specialize (Hr x Hx). lia.
Qed.

Section AncestorsLoop.
Variable ags : list Agent.
Variable id_ : Z.
(** What is known of the ancestors found so far. *)
Variable P : Z → Prop.
Hypothesis P_range : ∀ x, P x → 0 ≤ x < id_.
Hypothesis id_range : 0 ≤ id_ < len ags.
Hypothesis P_parents : ∀ curr c,
  curr = id_ ∨ P curr → at_ ags curr = Some c → generation c ≠ 0 →
  P (mother c) ∧ P (father c).

Lemma addParent_found (rest : list Z) (parent : Z) :
  NoDup rest → Forall P rest → P parent →
  ∃ rest', addParent (id_ :: rest, list_to_set rest) parent
           = (id_ :: rest', list_to_set rest')
           ∧ NoDup rest' ∧ Forall P rest'
           ∧ rest `prefix_of` rest' ∧ parent ∈ rest'.
Proof.
  intros Hn HP Hp. unfold addParent. simpl. case_bool_decide as Hin.
  - exists rest. repeat split; try done. set_solver.
  - exists (rest ++ [parent]). repeat split.
    + f_equal. rewrite list_to_set_app_L. set_solver.
    + apply NoDup_app. repeat split; [done | | apply NoDup_singleton].
      intros x Hx ->%list_elem_of_singleton. set_solver.
    + apply Forall_app. split; [done | by constructor].
    + by apply prefix_app_r.
    + set_solver.
Qed.

(** The loop finishes within the fuel, without a panic, and what it has
    found extends what it started with. *)
Lemma ancestorsLoop_found (fuel : nat) :
  ∀ (sp : nat) (rest : list Z) (gen : Z),
    NoDup rest → Forall P rest →
    (Z.to_nat id_ + 1 - sp < fuel)%nat →
    ∃ rest', ancestorsLoop fuel ags (id_ :: rest) (list_to_set rest) sp gen
             = Some (id_ :: rest', list_to_set rest')
             ∧ NoDup rest' ∧ Forall P rest' ∧ rest `prefix_of` rest'.
Proof.
  induction fuel as [|fuel IH]; intros sp rest gen Hn HP Hfuel; [lia |].
  simpl ancestorsLoop. case_bool_decide as Hsp; cycle 1.
  { exists rest. done. }
  assert (Forall (λ x, 0 ≤ x < id_) rest) as Hr.
  { eapply Forall_impl; [exact HP | exact P_range]. }
  pose proof (below_length id_ rest Hn Hr) as Hlen.
  destruct (lookup_lt_is_Some_2 (id_ :: rest) sp Hsp) as [curr Hcurr].
  rewrite Hcurr. simpl.
  assert (curr = id_ ∨ P curr) as HPc.
  { apply list_elem_of_lookup_2, elem_of_cons in Hcurr as [->|Hin]; [by left |].
    right. rewrite Forall_forall in HP. by apply HP. }
  assert (0 ≤ curr < len ags) as Hcr.
  { destruct HPc as [->|Hc%P_range]; lia. }
  destruct (at_lt ags curr Hcr) as [c Hc]. rewrite Hc. simpl.
  case_bool_decide as Hg.
  { exists rest. done. }
  destruct (P_parents curr c HPc Hc Hg) as [Hm Hf].
  destruct (addParent_found rest (mother c) Hn HP Hm)
    as (rest1 & -> & Hn1 & HP1 & Hpre1 & _).
  destruct (addParent_found rest1 (father c) Hn1 HP1 Hf)
    as (rest2 & -> & Hn2 & HP2 & Hpre2 & _).
  simpl in Hsp. simpl.
  destruct (IH (S sp) rest2
               (if bool_decide (generation c < gen) then generation c else gen)
               Hn2 HP2) as (rest' & -> & Hn' & HP' & Hpre'); [lia |].
  exists rest'. repeat split; try done.
  by repeat (etrans; [eassumption |]).
Qed.
End AncestorsLoop.

Lemma at_set_at_eq {A : Type} (l : list A) (i : Z) (x : A) :
  0 ≤ i < len l → at_ (set_at l i x) i = Some x.
Proof.
  intros [H0 H1]. unfold len in H1. apply at_Some. split; [done |].
  apply list_lookup_insert_eq. lia.
Qed.

Lemma at_set_at_ne {A : Type} (l : list A) (i j : Z) (x : A) :
  0 ≤ i → i ≠ j → at_ (set_at l i x) j = at_ l j.
Proof.
  intros H0 Hne. unfold at_, set_at. case_bool_decide; [done |].
  apply list_lookup_insert_ne. lia.
Qed.

(** Sorting the vector and cutting its last entry removes the agent
    itself: every ancestor has a smaller id. *)
Lemma sort_remove_self (id_ : Z) (rest : list Z) :
  Forall (λ x, x < id_) rest →
  take (length (merge_sort (≤) (id_ :: rest)) - 1) (merge_sort (≤) (id_ :: rest))
  = merge_sort (≤) rest.
Proof.
  intros Hr.
  assert (merge_sort (≤) (id_ :: rest) = merge_sort (≤) rest ++ [id_]) as ->.
  { apply (StronglySorted_unique Z.le).
    - apply StronglySorted_merge_sort; apply _.
    - apply StronglySorted_app_2.
      + intros x1 x2 H1 ->%list_elem_of_singleton.
        rewrite merge_sort_Permutation in H1.
        rewrite Forall_forall in Hr. specialize (Hr x1 H1). lia.
      + apply StronglySorted_merge_sort; apply _.
      + repeat constructor.
    - rewrite !merge_sort_Permutation. by rewrite Permutation_cons_append. }
  rewrite length_app. simpl.
  replace (length (merge_sort Z.le rest) + 1 - 1)%nat
    with (length (merge_sort Z.le rest)) by lia.
  apply take_app_length.
Qed.

Lemma sorted_NoDup_ascending (l : list Z) :
  NoDup l → StronglySorted Z.lt (merge_sort (≤) l).
Proof.
  intros Hn. apply ascending_StronglySorted.
  - apply Sorted_merge_sort. apply _.
  - by rewrite merge_sort_Permutation.
Qed.

Lemma ancestorsLoop_S (fuel : nat) (ags : list Agent) (vec : list Z)
    (set : gset Z) (sp : nat) (gen : Z) :
  ancestorsLoop (S fuel) ags vec set sp gen =
  if bool_decide (sp < length vec)%nat then
    curr ← vec !! sp;
    c ← at_ ags curr;
    if bool_decide (generation c = 0) then Some (vec, set)
    else
      let acc := foldl addParent (vec, set) [mother c; father c] in
      ancestorsLoop fuel ags acc.1 acc.2 (S sp)
        (if bool_decide (generation c < gen) then generation c else gen)
  else Some (vec, set).
Proof. reflexivity. Qed.

(** What [setAncestors] stores, for any property [P] of ids that the
    parents of the agent have and that passes from an agent to its
    parents: the sorted list of the distinct ancestors found, and the same
    ids as a set; the parents are among them. *)
Lemma setAncestors_found (ags : list Agent) (id_ : Z) (a : Agent) (P : Z → Prop) :
  (∀ x, P x → 0 ≤ x < id_) →
  (∀ curr c, curr = id_ ∨ P curr → at_ ags curr = Some c → generation c ≠ 0 →
             P (mother c) ∧ P (father c)) →
  at_ ags id_ = Some a →
  0 ≤ generation a →
  ∃ rest, setAncestors ags id_
          = Some (set_at ags id_ (setAncestry a (merge_sort (≤) rest) (list_to_set rest)))
          ∧ NoDup rest ∧ Forall P rest
          ∧ (generation a ≠ 0 → mother a ∈ rest ∧ father a ∈ rest).
Proof.
  intros P_range P_parents Ha Hnn.
  pose proof (at_Some_lt _ _ _ Ha) as Hid.
  unfold setAncestors. rewrite Ha. simpl.
  rewrite bool_decide_eq_false_2 by lia.
  replace (length ags + 2)%nat with (S (length ags + 1)) by lia.
  rewrite ancestorsLoop_S. rewrite bool_decide_eq_true_2 by (simpl; lia). simpl.
  rewrite Ha. simpl. case_bool_decide as Hg.
  { exists []. simpl. repeat split; try done; constructor. }
  destruct (P_parents id_ a (or_introl eq_refl) Ha Hg) as [Hm Hf].
  change (∅ : gset Z) with (list_to_set [] : gset Z).
  destruct (addParent_found ags id_ P P_range Hid P_parents [] (mother a)
              (NoDup_nil_2) (Forall_nil_2 _) Hm)
    as (rest1 & -> & Hn1 & HP1 & _ & Hin1).
  destruct (addParent_found ags id_ P P_range Hid P_parents rest1 (father a)
              Hn1 HP1 Hf)
    as (rest2 & -> & Hn2 & HP2 & Hpre2 & Hin2).
  simpl.
  destruct (ancestorsLoop_found ags id_ P P_range Hid P_parents
              (length ags + 1) 1 rest2
              (if bool_decide (generation a < generation a)
               then generation a else generation a) Hn2 HP2)
    as (rest' & -> & Hn' & HP' & Hpre').
  { unfold len in Hid. lia. }
  simpl. exists rest'. split.
  - do 3 f_equal. apply sort_remove_self.
    eapply Forall_impl; [exact HP' |]. intros x Hx%P_range. simpl. lia.
  - repeat split; try done.
    + eapply elem_of_prefix; [| exact Hpre'].
      eapply elem_of_prefix; [exact Hin1 | exact Hpre2].
    + eapply elem_of_prefix; [exact Hin2 | exact Hpre'].
Qed.


(** Case analysis on an index into a list that is given entry by entry. *)
Ltac at_cases H :=
  let n := fresh "n" in
  let En := fresh "En" in
  let H0 := fresh "Hge" in
  let H1 := fresh "Hlk" in
  pose proof (proj1 (at_Some _ _ _) H) as [H0 H1]; clear H;
  match type of H1 with
  | _ !! ?k = _ => remember k as n eqn:En
  end;
  repeat (destruct n as [|n];
          [simpl in H1; injection H1 as <- | simpl in H1]);
  try discriminate H1.

Lemma testArena_generational : ArenaGenerational testArena.
Proof.
  split.
  - intros i a H. at_cases H; simpl; lia.
  - intros i a H. at_cases H; simpl; lia.
  - intros i j a b Ha Hb Hij. at_cases Ha; at_cases Hb; simpl; lia.
  - intros i a H Hg.
    at_cases H; simpl in Hg |- *; try done;
      eexists _, _; (split; [reflexivity |]); (split; [reflexivity |]);
      simpl; lia.
Qed.


(** ** Generational distance *)

Lemma generationFoundFrom_last (ags : list Agent) (l : list Z) (m : Z)
    (bset : gset Z) (c : Agent) :
  m ∈ bset → at_ ags m = Some c →
  generationFoundFrom (length (l ++ [m])) ags (l ++ [m]) bset = Some (generation c).
Proof.
  intros Hin Hc. rewrite length_app. simpl. rewrite Nat.add_1_r. simpl.
  rewrite list_lookup_middle by done. simpl.
  rewrite bool_decide_eq_true_2 by done. by rewrite Hc.
Qed.

(** C10: in an arena ordered by generation where parents come from the
    generation just before, resolving the ancestors of an agent [a] of
    generation >= 1 succeeds, and the generational distance of [a] to
    itself is then 1. *)
Theorem generationDiff_self (ags : list Agent) (id_ : Z) (a : Agent)
    (Harena : ArenaGenerational ags)
    (Ha : at_ ags id_ = Some a)
    (Hgen : generation a >= 1) :
  ∃ ags' a',
    setAncestors ags id_ = Some ags'
    ∧ at_ ags' id_ = Some a'
    ∧ generationDiff ags' a' a' = Some 1.
Proof.
  pose proof (ArenaGenerational_ordered ags Harena) as [_ _ _ Hbelow].
  destruct Harena as [Hids Hnn Hmono Hpar].
  pose proof (at_Some_lt _ _ _ Ha) as Hid.
  set (P := λ x, 0 ≤ x < id_ ∧ ∃ c, at_ ags x = Some c ∧ generation c < generation a).
  destruct (setAncestors_found ags id_ a P) as (rest & -> & Hn & HP & Hin).
  - by intros x [Hx _].
  - intros curr c Hcurr Hc Hg.
    assert (curr ≤ id_ ∧ generation c ≤ generation a) as [Hle Hgc].
    { destruct Hcurr as [->|[Hr (c' & Hc' & Hlt)]].
      - rewrite Ha in Hc. injection Hc as <-. lia.
      - rewrite Hc in Hc'. injection Hc' as <-. lia. }
    destruct (Hbelow curr c Hc Hg) as [Hmr Hfr].
    destruct (Hpar curr c Hc Hg) as (m & f & Hm & Hf & Hgm & Hgf).
    split; (split; [lia |]); [exists m | exists f]; (split; [done | lia]).
  - done.
  - by apply (Hnn id_).
  - destruct Hin as [Hmo _]; [lia |].
    destruct (Hpar id_ a Ha) as (mo & fa & Hmoa & _ & Hgmo & _); [lia |].
    pose proof (StronglySorted_merge_sort Z.le rest) as Hsorted.
    pose proof (merge_sort_Permutation Z.le rest) as Hperm.
    rewrite <- Hperm in Hmo.
    destruct (merge_sort Z.le rest) as [|m l _] using rev_ind.
    { by apply elem_of_nil in Hmo. }
    assert (m ∈ rest) as Hm by (rewrite <- Hperm; set_solver).
    rewrite Forall_forall in HP. destruct (HP m Hm) as [Hmr (c & Hc & Hgc)].
    eexists _, _. split; [done |]. split; [by apply at_set_at_eq |].
    unfold generationDiff. simpl.
    rewrite (generationFoundFrom_last _ l m _ c).
    + simpl. f_equal.
      assert (mother a ≤ m) as Hle.
      { apply elem_of_app in Hmo as [Hl|Hl%list_elem_of_singleton]; [| lia].
        eapply StronglySorted_app_1_elem_of; [exact Hsorted | exact Hl | set_solver]. }
      pose proof (Hmono (mother a) m mo c Hmoa Hc Hle). lia.
    + by apply elem_of_list_to_set.
    + rewrite at_set_at_ne by lia. done.
Qed.

Lemma generationDiff_self_witness :
  ∃ ags' a',
    setAncestors testArena 9 = Some ags'
    ∧ at_ ags' 9 = Some a'
    ∧ generationDiff ags' a' a' = Some 1.
Proof.
  apply (generationDiff_self testArena 9 (testAgent 9 3 MALE 5 7 [])).
  - apply testArena_generational.
  - reflexivity.
  - simpl. lia.
Defined.

(** ** Rules for the monad *)

Section Rules.
Context {St : Type}.

Lemma wlp_ret {A} (a : A) (st : St) Q : Q a st → wlp (ret a) st Q.
Proof. intros H a' st' [= <- <-]. done. Qed.

Lemma wlp_bind {A B} (m : M St A) (k : A → M St B) (st : St) Q :
  wlp m st (λ a st1, wlp (k a) st1 Q) → wlp (bind m k) st Q.
Proof.
  intros H b st' Hb. unfold bind in Hb.
  destruct (m st) as [[a st1]|] eqn:Hm; [| done].
  by apply (H a st1).
Qed.

Lemma wlp_get (st : St) Q : Q st st → wlp get st Q.
Proof. intros H a st' [= <- <-]. done. Qed.

Lemma wlp_put (st0 st : St) Q : Q tt st0 → wlp (put st0) st Q.
Proof. intros H a st' [= <- <-]. done. Qed.

Lemma wlp_lift {A} (o : option A) (st : St) Q :
  (∀ a, o = Some a → Q a st) → wlp (lift o) st Q.
Proof.
  intros H a st' Ha. unfold lift in Ha. destruct o; [| done].
  injection Ha as <- <-. by apply H.
Qed.

Lemma wlp_mono {A} (m : M St A) (st : St) (Q Q' : A → St → Prop) :
  wlp m st Q → (∀ a st', Q a st' → Q' a st') → wlp m st Q'.
Proof. intros H HQ a st' Hm. by apply HQ, H. Qed.

(** A loop keeps a reflexive and transitive relation between the state
    at its start and its state, if every turn does. *)
Lemma wlp_repeatM (R : St → St → Prop) (body : M St unit) (n : nat) (st : St) :
  (∀ x, R x x) → (∀ x y z, R x y → R y z → R x z) →
  (∀ st1, wlp body st1 (λ _ st2, R st1 st2)) →
  wlp (repeatM n body) st (λ _ st', R st st').
Proof.
  intros Hrefl Htrans Hbody. revert st.
  induction n as [|n IH]; intros st; simpl.
  - by apply wlp_ret.
  - apply wlp_bind. eapply wlp_mono; [apply Hbody |].
    intros ? st1 H1. eapply wlp_mono; [apply IH |].
    intros ? st2 H2. simpl in *. by eapply Htrans.
Qed.

Lemma wlp_forEach {E} (R : St → St → Prop) (body : E → M St unit)
    (l : list E) (st : St) :
  (∀ x, R x x) → (∀ x y z, R x y → R y z → R x z) →
  (∀ e st1, wlp (body e) st1 (λ _ st2, R st1 st2)) →
  wlp (forEach l body) st (λ _ st', R st st').
Proof.
  intros Hrefl Htrans Hbody. revert st.
  induction l as [|e l IH]; intros st; simpl.
  - by apply wlp_ret.
  - apply wlp_bind. eapply wlp_mono; [apply Hbody |].
    intros ? st1 H1. eapply wlp_mono; [apply IH |].
    intros ? st2 H2. simpl in *. by eapply Htrans.
Qed.

Lemma wp_ret {A} (a : A) (st : St) Q : Q a st → wp (ret a) st Q.
Proof. intros H. by exists a, st. Qed.

Lemma wp_bind {A B} (m : M St A) (k : A → M St B) (st : St) Q :
  wp m st (λ a st1, wp (k a) st1 Q) → wp (bind m k) st Q.
Proof.
  intros (a & st1 & Hm & b & st2 & Hk & HQ).
  exists b, st2. split; [| done]. unfold bind. by rewrite Hm.
Qed.

Lemma wp_get (st : St) Q : Q st st → wp get st Q.
Proof. intros H. by exists st, st. Qed.

Lemma wp_put (st0 st : St) Q : Q tt st0 → wp (put st0) st Q.
Proof. intros H. by exists tt, st0. Qed.

Lemma wp_lift {A} (o : option A) (a : A) (st : St) Q :
  o = Some a → Q a st → wp (lift o) st Q.
Proof. intros -> H. by exists a, st. Qed.

Lemma wp_mono {A} (m : M St A) (st : St) (Q Q' : A → St → Prop) :
  wp m st Q → (∀ a st', Q a st' → Q' a st') → wp m st Q'.
Proof. intros (a & st' & Hm & HQ) H. exists a, st'. split; [done | by apply H]. Qed.

End Rules.

Lemma wlp_onSim {A} (m : M Simulation A) (st : St) Q :
  wlp m st.1 (λ a s', Q a (s', st.2)) → wlp (onSim m) st Q.
Proof.
  intros H a st' Ha. unfold onSim in Ha.
  destruct (m st.1) as [[a' s']|] eqn:Hm; [| done].
  injection Ha as <- <-. by apply H.
Qed.

Lemma wlp_onRng {A} (m : M Rng A) (st : St) Q :
  wlp m st.2 (λ a r', Q a (st.1, r')) → wlp (onRng m) st Q.
Proof.
  intros H a st' Ha. unfold onRng in Ha.
  destruct (m st.2) as [[a' r']|] eqn:Hm; [| done].
  injection Ha as <- <-. by apply H.
Qed.

Lemma wp_onSim {A} (m : M Simulation A) (st : St) Q :
  wp m st.1 (λ a s', Q a (s', st.2)) → wp (onSim m) st Q.
Proof.
  intros (a & s' & Hm & HQ). exists a, (s', st.2). split; [| done].
  unfold onSim. by rewrite Hm.
Qed.

Lemma wp_onRng {A} (m : M Rng A) (st : St) Q :
  wp m st.2 (λ a r', Q a (st.1, r')) → wp (onRng m) st Q.
Proof.
  intros (a & r' & Hm & HQ). exists a, (st.1, r'). split; [| done].
  unfold onRng. by rewrite Hm.
Qed.

(** ** What the engine keeps *)

Lemma Keeps_refl (s : Simulation) : Keeps s s.
Proof. done. Qed.

Lemma Keeps_trans (s1 s2 s3 : Simulation) : Keeps s1 s2 → Keeps s2 s3 → Keeps s1 s3.
Proof.
  unfold Keeps. intros (H1 & H2 & H3 & H4) (H1' & H2' & H3' & H4').
  repeat split; congruence.
Qed.

Lemma Grows_refl (s : Simulation) : Grows s s.
Proof. done. Qed.

Lemma Grows_trans (s1 s2 s3 : Simulation) : Grows s1 s2 → Grows s2 s3 → Grows s1 s3.
Proof.
  unfold Grows. intros (H1 & H2 & H3 & H4) (H1' & H2' & H3' & H4').
  repeat split; [lia | congruence ..].
Qed.

Lemma Keeps_Grows (s s' : Simulation) : Keeps s s' → Grows s s'.
Proof. unfold Keeps, Grows. intros (H1 & H2 & H3 & H4). by rewrite H1. Qed.

Lemma setCurrGen_Keeps (gen : Z) (s : Simulation) :
  wlp (setCurrGen gen) s (λ _ s', Keeps s s').
Proof.
  intros [] s' H. unfold setCurrGen in H.
  case_bool_decide; [by injection H as <- |].
  destruct (if bool_decide (gen = 0) then _ else _); [| done]. simpl in H.
  destruct (at_ (genBdrys s) gen); [| done]. simpl in H.
  destruct (slice _ _ _); [| done]. simpl in H.
  by injection H as <-.
Qed.

Lemma pairScan_Keeps (n : nat) (agentA : Agent) (i hi : Z) :
  ∀ (j : Z) (s : Simulation), wlp (pairScan n agentA i j hi) s (λ _ s', Keeps s s').
Proof.
  induction n as [|n IH]; intros j s; simpl.
  - by apply wlp_ret.
  - case_bool_decide; [| by apply wlp_ret].
    apply wlp_bind, wlp_get, wlp_bind, wlp_lift. intros cj _.
    destruct (mated cj); [apply IH |].
    apply wlp_bind, wlp_lift. intros agentB _.
    apply wlp_bind, wlp_lift. intros [] _; [| apply IH].
    apply wlp_bind, wlp_lift. intros cg1 _.
    apply wlp_bind, wlp_lift. intros cg2 _.
    by apply wlp_put.
Qed.

Lemma pairAgents_Keeps (s : Simulation) : wlp pairAgents s (λ _ s', Keeps s s').
Proof.
  unfold pairAgents. apply wlp_bind, wlp_get, wlp_bind, wlp_put.
  eapply wlp_mono.
  - apply (wlp_forEach Keeps); [apply Keeps_refl | apply Keeps_trans |].
    intros i s1. unfold pairStep.
    apply wlp_bind, wlp_get, wlp_bind, wlp_lift. intros ci _.
    apply wlp_bind, wlp_lift. intros agentA _.
    destruct (mated ci); [by apply wlp_ret | apply pairScan_Keeps].
  - intros ? s' H. simpl in H. exact H.
Qed.

Lemma newChild_length (ags : list Agent) (f m numGenes gen : Z) (rate : Q) (r : Rng) :
  wlp (newChild ags f m numGenes gen rate) r
      (λ ags' _, length ags' = S (length ags)).
Proof.
  unfold newChild.
  apply wlp_bind. intros sx r1 _.
  apply wlp_bind. intros gs r2 _.
  apply wlp_bind, wlp_lift. intros fa _.
  apply wlp_bind, wlp_lift. intros mo _.
  apply wlp_ret. unfold set_at. rewrite !length_insert, length_app. simpl. lia.
Qed.

Lemma breed_Grows (f m gen : Z) (st : St) :
  wlp (breed f m gen) st (λ _ st', Grows st.1 st'.1 ∧ agents st'.1 ≠ agents st.1).
Proof.
  unfold breed. apply wlp_bind, wlp_get, wlp_bind, wlp_onRng.
  eapply wlp_mono; [apply newChild_length |].
  intros ags' r' Hlen. simpl in Hlen. apply wlp_onSim, wlp_put. simpl.
  split; [unfold Grows; simpl; split; [lia | done] |].
  intros Heq. rewrite Heq in Hlen. lia.
Qed.

Lemma randomMember_same (st : St) :
  wlp randomMember st (λ _ st', st'.1 = st.1).
Proof.
  unfold randomMember. apply wlp_bind, wlp_get, wlp_bind, wlp_onRng.
  intros x r' _. apply wlp_bind, wlp_lift. intros c _. by apply wlp_ret.
Qed.

Lemma partnerSearch_same (n : nat) (matingK i : Z) :
  ∀ (j : Z) (compat : bool) (k : Z) (st : St),
    wlp (partnerSearch n matingK i j compat k) st (λ _ st', st'.1 = st.1).
Proof.
  induction n as [|n IH]; intros j compat k st; simpl.
  - by apply wlp_ret.
  - destruct (negb compat && bool_decide (k < matingK)); [| by apply wlp_ret].
    apply wlp_bind. eapply wlp_mono; [apply randomMember_same |].
    intros j' st1 H1. simpl in H1.
    apply wlp_bind, wlp_get, wlp_bind, wlp_lift. intros a _.
    apply wlp_bind, wlp_lift. intros b _.
    apply wlp_bind, wlp_lift. intros c _.
    eapply wlp_mono; [apply IH |]. intros ? st2 H2. simpl in H2. congruence.
Qed.

Lemma GrowsSt_refl (st : St) : GrowsSt st st.
Proof. apply Grows_refl. Qed.

Lemma GrowsSt_trans (x y z : St) : GrowsSt x y → GrowsSt y z → GrowsSt x z.
Proof. apply Grows_trans. Qed.

Lemma anyMating_Grows (gen : Z) (st : St) :
  wlp (anyMating gen) st (λ e st', e = None ∧ Grows st.1 st'.1).
Proof.
  unfold anyMating. apply wlp_bind, wlp_get, wlp_bind.
  eapply wlp_mono.
  - apply (wlp_repeatM GrowsSt); [apply GrowsSt_refl | apply GrowsSt_trans |].
    intros st1. apply wlp_bind.
    eapply wlp_mono; [apply randomMember_same |]. intros i st2 H2.
    apply wlp_bind.
    eapply wlp_mono; [apply randomMember_same |]. intros j st3 H3.
    eapply wlp_mono; [apply breed_Grows |]. intros ? st4 [H4 _].
    unfold GrowsSt. simpl in *. by rewrite <- H2, <- H3.
  - intros ? st' H. by apply wlp_ret.
Qed.

Lemma nonMonogamousMating_Grows (gen : Z) (st : St) :
  wlp (nonMonogamousMating gen) st (λ e st', e = None ∧ Grows st.1 st'.1).
Proof.
  unfold nonMonogamousMating. apply wlp_bind, wlp_get, wlp_bind.
  eapply wlp_mono.
  - apply (wlp_repeatM GrowsSt); [apply GrowsSt_refl | apply GrowsSt_trans |].
    intros st1. apply wlp_bind.
    eapply wlp_mono; [apply randomMember_same |]. intros i st2 H2.
    apply wlp_bind, wlp_get, wlp_bind.
    eapply wlp_mono; [apply partnerSearch_same |]. intros [[j compat] k] st3 H3.
    simpl in *. case_bool_decide.
    + apply wlp_ret. unfold GrowsSt. rewrite H3, H2. apply Grows_refl.
    + eapply wlp_mono; [apply breed_Grows |]. intros ? st4 [H4 _].
      unfold GrowsSt. simpl in *. by rewrite <- H2, <- H3.
  - intros ? st' H. by apply wlp_ret.
Qed.

Lemma makeChildrenMonogamous_Grows (gen : Z) (st : St) :
  wlp (makeChildrenMonogamous gen) st (λ _ st', Grows st.1 st'.1).
Proof.
  unfold makeChildrenMonogamous. apply wlp_bind, wlp_get.
  apply (wlp_repeatM GrowsSt); [apply GrowsSt_refl | apply GrowsSt_trans |].
  intros st1. apply wlp_bind, wlp_get, wlp_bind, wlp_onRng.
  intros x r' _. apply wlp_bind, wlp_lift. intros pr _.
  eapply wlp_mono; [apply breed_Grows |]. intros ? st4 [H4 _]. exact H4.
Qed.

(** The monogamous strategy fails only for want of pairs, and then it has
    not touched the arena. *)
Lemma monogamousMating_Grows (gen : Z) (st : St) :
  wlp (monogamousMating gen) st
      (λ e st', Grows st.1 st'.1
                ∧ ∀ err, e = Some err →
                         err = ErrNoMatingPairs (sim_id st.1) gen
                         ∧ agents st'.1 = agents st.1).
Proof.
  unfold monogamousMating. apply wlp_bind, wlp_onSim.
  eapply wlp_mono; [apply pairAgents_Keeps |]. intros ? s1 H1.
  apply wlp_bind, wlp_get. simpl. case_bool_decide.
  - apply wlp_ret. split; [by apply Keeps_Grows |].
    intros err [= <-]. destruct H1 as (Ha & _ & _ & Hi). by rewrite Hi.
  - apply wlp_bind. eapply wlp_mono; [apply makeChildrenMonogamous_Grows |].
    intros ? st2 H2. apply wlp_ret. simpl in H2. split; [| done].
    eapply Grows_trans; [apply Keeps_Grows, H1 | exact H2].
Qed.

Lemma setPairFunc_Grows (s : Simulation) (gen : Z) (st : St) :
  wlp (setPairFunc s gen) st
      (λ e st', Grows st.1 st'.1
                ∧ ∀ err, e = Some err →
                         err = ErrNoMatingPairs (sim_id st.1) gen
                         ∧ agents st'.1 = agents st.1).
Proof.
  unfold setPairFunc.
  destruct (negb (Monogamous (params s)) && negb (Compatible (params s)));
    [| destruct (Monogamous (params s))].
  - eapply wlp_mono; [apply anyMating_Grows |]. by intros e st' [-> H].
  - apply monogamousMating_Grows.
  - eapply wlp_mono; [apply nonMonogamousMating_Grows |]. by intros e st' [-> H].
Qed.

Lemma shuffleCurrGen_Keeps (st : St) :
  wlp shuffleCurrGen st (λ _ st', Keeps st.1 st'.1).
Proof.
  unfold shuffleCurrGen. apply wlp_bind, wlp_get, wlp_bind, wlp_onRng.
  intros cg r' _. by apply wlp_onSim, wlp_put.
Qed.

(** ** The generation index *)

Lemma Sorted_snoc (l : list Z) (x y : Z) :
  Sorted Z.le l → last l = Some y → y ≤ x → Sorted Z.le (l ++ [x]).
Proof.
  intros Hs. revert y. induction Hs as [|z l Hs IH Hd]; intros y Hl Hyx; [done |].
  simpl. destruct l as [|w l].
  - simpl in *. injection Hl as ->. repeat constructor. done.
  - constructor.
    + apply (IH y); [| done]. by rewrite last_cons_cons in Hl.
    + simpl. constructor. by inversion Hd.
Qed.

Lemma IndexOK_Keeps (s s' : Simulation) : Keeps s s' → IndexOK s → IndexOK s'.
Proof. unfold IndexOK. intros (-> & -> & _ & _). done. Qed.

Lemma IndexOK_step (s s' : Simulation) :
  Grows s s' → IndexOK s →
  IndexOK (with_genBdrys s' (genBdrys s' ++ [len (agents s')])).
Proof.
  unfold IndexOK. intros (Hlen & -> & _ & _) [Hs Hl]. simpl. split.
  - apply (Sorted_snoc _ _ (len (agents s))); [done | done | unfold len; lia].
  - apply last_snoc.
Qed.

Lemma NewSimulation_index (p : Parameters) (r : Rng) :
  wlp (NewSimulation p) r
      (λ s _, genBdrys s = [len (agents s)] ∧ params s = p).
Proof.
  unfold NewSimulation. apply wlp_bind. intros ags r' _.
  by apply wlp_ret.
Qed.

(** The loop of [Simulate]: whatever the strategy does within the frame of
    [setPairFunc_Grows], the index stays well-formed, and it gains one
    entry for every completed step. *)
Lemma simulateFrom_index (s0 : Simulation) (n : nat) :
  ∀ (i : Z) (st : St),
    IndexOK st.1 → len (genBdrys st.1) = i →
    wlp (simulateFrom n i (setPairFunc s0)) st
        (λ e st', IndexOK st'.1
                  ∧ params st'.1 = params st.1
                  ∧ len (genBdrys st'.1) =
                    match e with
                    | None => i + Z.of_nat n
                    | Some (ErrInsufficientSurvivors _ _ g) => g
                    | Some (ErrNoMatingPairs _ g) => g
                    | Some _ => 0
                    end).
Proof.
  induction n as [|n IH]; intros i st Hok Hlen; simpl.
  - apply wlp_ret. split; [done |]. split; [done | lia].
  - apply wlp_bind, wlp_get. case_bool_decide.
    { by apply wlp_ret. }
    apply wlp_bind. eapply wlp_mono; [apply shuffleCurrGen_Keeps |].
    intros ? st1 H1. simpl in H1.
    apply wlp_bind. eapply wlp_mono; [apply setPairFunc_Grows |].
    intros e st2 [H2 He]. simpl in H2, He.
    pose proof (IndexOK_Keeps _ _ H1 Hok) as Hok1.
    destruct H1 as (Ha1 & Hb1 & Hp1 & Hi1).
    pose proof H2 as (_ & Hb2 & Hp2 & Hi2).
    destruct e as [err|].
    + apply wlp_ret. destruct (He err eq_refl) as [-> Hags].
      split; [| split; congruence].
      destruct Hok1 as [Hs Hl]. unfold IndexOK. by rewrite Hb2, Hags.
    + apply wlp_bind, wlp_onSim, wlp_bind, wlp_get, wlp_put.
      apply wlp_bind, wlp_onSim. simpl.
      eapply wlp_mono; [apply setCurrGen_Keeps |]. intros ? s3 H3. simpl in H3.
      pose proof (IndexOK_step st1.1 st2.1 H2 Hok1) as Hok3.
      pose proof (IndexOK_Keeps _ _ H3 Hok3) as Hok4.
      destruct H3 as (_ & Hb3 & Hp3 & _). simpl in Hb3, Hp3.
      eapply wlp_mono.
      * apply (IH (i + 1)); simpl; [exact Hok4 |].
        rewrite Hb3, Hb2, Hb1. unfold len in *. rewrite length_app. simpl. lia.
      * intros e st' (Hok' & Hp' & Hl'). simpl in *.
        split; [done |]. split; [congruence |].
        rewrite Hl'. destruct e as [[]|]; try done. lia.
Qed.

(** Whatever a run returns, the generation index has one entry more than
    the number of completed generation steps, its entries never decrease,
    and the last one is the length of the arena. *)
Lemma run_returned_index (p : Parameters) (r : Rng) (e : option Err)
    (s : Simulation) (r' : Rng)
    (Hrun : run p r = Some (e, (s, r'))) :
  len (genBdrys s) = completedSteps p e + 1
  ∧ Sorted Z.le (genBdrys s)
  ∧ last (genBdrys s) = Some (len (agents s)).
Proof.
  unfold run in Hrun.
  destruct (NewSimulation p r) as [[s0 r0]|] eqn:Hnew; [| done].
  assert (genBdrys s0 = [len (agents s0)] ∧ params s0 = p) as [Hb Hp].
  { exact (NewSimulation_index p r s0 r0 Hnew). }
  assert (wlp Simulate (s0, r0)
              (λ e st', len (genBdrys st'.1) = completedSteps p e + 1
                        ∧ IndexOK st'.1)) as Hsim; [| by apply (Hsim e (s, r'))].
  unfold Simulate. apply wlp_bind, wlp_onSim.
  eapply wlp_mono; [apply setCurrGen_Keeps |]. intros ? s1 H1. simpl in H1.
  apply wlp_bind, wlp_get. simpl.
  assert (IndexOK s1) as Hok.
  { eapply IndexOK_Keeps; [exact H1 |].
    split; rewrite Hb; [repeat constructor | done]. }
  destruct H1 as (_ & Hb1 & Hp1 & _).
  eapply wlp_mono.
  { apply (simulateFrom_index _ _ 1); [exact Hok |]. simpl. by rewrite Hb1, Hb. }
  intros e' st' (Hok' & Hp' & Hlen). simpl in *. split; [| done].
  assert (1 ≤ len (genBdrys st'.1)) as Hne.
  { destruct Hok' as [_ Hl]. unfold len.
    destruct (genBdrys st'.1); [done | simpl; lia]. }
  rewrite Hp1, Hp in Hlen. unfold completedSteps.
  destruct e' as [[]|]; lia.
Qed.

(** C4, refuted as stated: with two male founders and compatibility
    checks on, the only generation step completes without an error and
    breeds no child, so the index ends as [[2; 2]], which is not strictly
    increasing. *)
Lemma run_generation_index_not_strict :
  ∃ s r',
    run compatibleOneGeneration zeroRng = Some (None, (s, r'))
    ∧ genBdrys s = [2; 2]
    ∧ ¬ StronglySorted Z.lt (genBdrys s).
Proof.
  eexists _, _. split; [vm_compute; reflexivity |]. split; [reflexivity |].
  simpl. intros [_ H]%StronglySorted_inv.
  apply Forall_cons in H as [H _]. lia.
Qed.

(** ** Total correctness of the loops *)

Lemma wp_mapM {St E A : Type} (f : E → M St A) (l : list E) (st : St)
    (I : St → Prop) :
  (∀ x st1, x ∈ l → I st1 → wp (f x) st1 (λ _ st2, I st2)) →
  I st →
  wp (mapM f l) st (λ ys st', length ys = length l ∧ I st').
Proof.
  revert st. induction l as [|x l IH]; intros st Hf HI; simpl.
  - by apply wp_ret.
  - apply wp_bind. eapply wp_mono; [apply Hf; [set_solver | done] |].
    intros y st1 H1. simpl in H1. apply wp_bind.
    eapply wp_mono; [apply IH; [| done] |].
    + intros x' st' Hx'. apply Hf. set_solver.
    + intros ys st2 [Hlen H2]. apply wp_ret. simpl. by rewrite Hlen.
Qed.

(** A loop of [n] turns establishes [I n] from [I 0], if every turn takes
    [I k] to [I (S k)]. *)
Lemma wp_repeatM {St : Type} (I : nat → St → Prop) (body : M St unit) (n : nat) :
  (∀ k st1, I k st1 → wp body st1 (λ _ st2, I (S k) st2)) →
  ∀ (k : nat) (st : St), I k st → wp (repeatM n body) st (λ _ st', I (n + k)%nat st').
Proof.
  intros Hbody. induction n as [|n IH]; intros k st HI; simpl.
  - by apply wp_ret.
  - apply wp_bind. eapply wp_mono; [by apply Hbody |].
    intros ? st1 H1. simpl in H1. eapply wp_mono; [by apply IH |].
    intros ? st2 H2. simpl in H2. by rewrite Nat.add_succ_r in H2.
Qed.

(** ** The random source *)

Lemma wp_Intn (n : Z) (r : Rng) :
  0 < n → wp (Intn n) r (λ x _, 0 ≤ x < n).
Proof.
  intros Hn. unfold wp, Intn. rewrite bool_decide_eq_false_2 by lia. simpl.
  eexists _, _. split; [done |]. simpl. by apply Z.mod_pos_bound.
Qed.

Lemma wp_Float64 (r : Rng) : wp Float64 r (λ _ _, True).
Proof. unfold wp, Float64. simpl. by eexists _, _. Qed.

Lemma wp_coinSex (r : Rng) : wp coinSex r (λ _ _, True).
Proof.
  unfold coinSex. apply wp_bind. eapply wp_mono; [apply wp_Float64 |].
  intros x r' _. by apply wp_ret.
Qed.

(** ** Breeding *)

Lemma childGene_wp (ags : list Agent) (f m : Z) (rate : Q) (numGenes i : Z) (r : Rng) :
  ArenaInv numGenes ags → 0 ≤ f < len ags → 0 ≤ m < len ags →
  0 ≤ i < numGenes →
  wp (childGene ags f m rate i) r (λ _ _, True).
Proof.
  intros Hinv Hf Hm Hi. unfold childGene.
  apply wp_bind. eapply wp_mono; [apply wp_Float64 |]. intros x r1 _.
  assert (∃ g, (p ← at_ ags (if Qltb x (1 # 2) then f else m); at_ (genes p) i)
               = Some g) as [g Hg].
  { assert (0 ≤ (if Qltb x (1 # 2) then f else m) < len ags) as Hp
      by (destruct (Qltb x (1 # 2)); done).
    destruct (at_lt ags _ Hp) as [p Hpa]. rewrite Hpa. simpl.
    destruct (Hinv _ _ Hpa) as [_ Hlen].
    apply at_lt. unfold len. lia. }
  apply wp_bind. eapply wp_lift; [exact Hg |].
  destruct (Qltb 0 rate); [| by apply wp_ret].
  apply wp_bind. eapply wp_mono; [apply wp_Float64 |]. intros y r2 _.
  by apply wp_ret.
Qed.

Lemma noChildren_addChild (a : Agent) (c : Z) :
  noChildren (addChild a c) = noChildren a.
Proof. done. Qed.

Lemma set_at_addChild (l : list Agent) (i : Z) (x : Agent) (c : Z) :
  at_ l i = Some x →
  noChildren <$> set_at l i (addChild x c) = noChildren <$> l.
Proof.
  intros [Hi Hx]%at_Some. unfold set_at.
  rewrite list_fmap_insert, noChildren_addChild.
  apply list_insert_id. by rewrite list_lookup_fmap, Hx.
Qed.

Lemma newChild_wp (ags : list Agent) (f m numGenes gen : Z) (rate : Q) (r : Rng) :
  ArenaInv numGenes ags → 0 ≤ f < len ags → 0 ≤ m < len ags →
  wp (newChild ags f m numGenes gen rate) r
     (λ ags' _, ∃ sx gs,
        length gs = Z.to_nat numGenes
        ∧ noChildren <$> ags' = (noChildren <$> ags) ++ [childOf ags f m gen sx gs]).
Proof.
  intros Hinv Hf Hm. unfold newChild.
  apply wp_bind. eapply wp_mono; [apply wp_coinSex |]. intros sx r1 _.
  apply wp_bind. eapply wp_mono.
  { apply (wp_mapM _ _ _ (λ _, True)); [| done].
    intros i r2 Hi%elem_of_seqZ _. apply (childGene_wp _ _ _ _ numGenes); first [done | lia]. }
  intros gs r2 [Hgs _]. rewrite length_seqZ in Hgs.
  fold (childOf ags f m gen sx gs). set (agent := childOf ags f m gen sx gs).
  destruct (at_lt ags f Hf) as [fa Hfa].
  assert (at_ (ags ++ [agent]) f = Some fa) as Hfa'.
  { apply at_Some in Hfa as [? Hfa]. apply at_Some. split; [done |].
    by apply lookup_app_l_Some. }
  apply wp_bind. eapply wp_lift; [exact Hfa' |].
  pose proof (set_at_addChild _ _ _ (id agent) Hfa') as Hc1.
  destruct (at_lt (set_at (ags ++ [agent]) f (addChild fa (id agent))) m) as [mo Hmo].
  { unfold set_at, len in *. rewrite length_insert, length_app. simpl. lia. }
  apply wp_bind. eapply wp_lift; [exact Hmo |].
  pose proof (set_at_addChild _ _ _ (id agent) Hmo) as Hc2.
  apply wp_ret. exists sx, gs. split; [done |].
  rewrite Hc2, Hc1, fmap_app. done.
Qed.

(** Reading an arena through the ids, generations, parents and genes of
    its agents. *)
Lemma cores_at (l l' : list Agent) (i : Z) (a : Agent) :
  noChildren <$> l = l' → at_ l i = Some a → at_ l' i = Some (noChildren a).
Proof.
  intros <- [Hi Ha]%at_Some. apply at_Some. split; [done |].
  by rewrite list_lookup_fmap, Ha.
Qed.

Lemma ArenaInv_cores (numGenes : Z) (l l' : list Agent) :
  noChildren <$> l = noChildren <$> l' → ArenaInv numGenes l' → ArenaInv numGenes l.
Proof.
  intros Heq Hinv i a Ha.
  pose proof (cores_at _ _ _ _ Heq Ha) as [Hi Hc]%at_Some.
  rewrite list_lookup_fmap in Hc.
  destruct (l' !! Z.to_nat i) as [a'|] eqn:Ha'; [| done].
  destruct (Hinv i a') as [Hid Hg]; [by apply at_Some |].
  assert (id a' = id a ∧ genes a' = genes a) as [E1 E2] by (by injection Hc).
  by rewrite <- E1, <- E2.
Qed.

Lemma ArenaInv_snoc (numGenes : Z) (l : list Agent) (kid : Agent) :
  ArenaInv numGenes l → id kid = len l →
  (Z.to_nat numGenes ≤ length (genes kid))%nat →
  ArenaInv numGenes (l ++ [kid]).
Proof.
  intros Hinv Hid Hg i a [Hi Ha]%at_Some.
  apply lookup_app_Some in Ha as [Ha|[Hlen Ha]].
  - apply Hinv. by apply at_Some.
  - destruct (Z.to_nat i - length l)%nat eqn:E; [| done].
    injection Ha as <-. split; [| done]. rewrite Hid. unfold len. lia.
Qed.

Lemma ArenaInv_grow (numGenes : Z) (l l' : list Agent) (kid : Agent) :
  noChildren <$> l' = (noChildren <$> l) ++ [kid] →
  id kid = len l → (Z.to_nat numGenes ≤ length (genes kid))%nat →
  ArenaInv numGenes l → ArenaInv numGenes l'.
Proof.
  intros Heq Hid Hg Hinv.
  apply (ArenaInv_cores _ _ (l ++ [noChildren kid])).
  - rewrite Heq, fmap_app. simpl. f_equal.
    assert (noChildren kid = kid) as Hk; [| by rewrite !Hk].
    assert (kid ∈ noChildren <$> l') as Hin by (rewrite Heq; set_solver).
    apply list_elem_of_fmap in Hin as (x & -> & _). done.
  - apply ArenaInv_snoc; done.
Qed.

Lemma breed_wp (f m gen : Z) (st : St) :
  ArenaInv (NumGenes (params st.1)) (agents st.1) →
  0 ≤ f < len (agents st.1) → 0 ≤ m < len (agents st.1) →
  wp (breed f m gen) st
     (λ _ st', ∃ kid,
        st'.1 = with_agents st.1 (agents st'.1)
        ∧ noChildren <$> agents st'.1 = (noChildren <$> agents st.1) ++ [kid]
        ∧ BredFor (NumGenes (params st.1)) gen kid
        ∧ father kid = f ∧ mother kid = m ∧ id kid = len (agents st.1)).
Proof.
  intros Hinv Hf Hm. unfold breed. apply wp_bind, wp_get, wp_bind, wp_onRng.
  eapply wp_mono; [by apply newChild_wp |].
  intros ags' r' (sx & gs & Hgs & Heq). apply wp_onSim, wp_put. simpl.
  exists (childOf (agents st.1) f m gen sx gs). by repeat split.
Qed.

Lemma randomMember_wp (st : St) :
  currGen st.1 ≠ [] →
  wp randomMember st (λ i st', st'.1 = st.1 ∧ ∃ c, c ∈ currGen st.1 ∧ i = sel_id c).
Proof.
  intros Hne. unfold randomMember. apply wp_bind, wp_get, wp_bind, wp_onRng.
  eapply wp_mono.
  { apply wp_Intn. unfold len. destruct (currGen st.1); [done | simpl; lia]. }
  intros x r' Hx. simpl.
  destruct (at_lt (currGen st.1) x Hx) as [c Hc].
  apply wp_bind. eapply wp_lift; [exact Hc |]. apply wp_ret. simpl.
  split; [done |]. exists c. split; [| done].
  apply at_Some in Hc as [_ Hc]. by eapply list_elem_of_lookup_2.
Qed.

Lemma Bred_start (K : Agent → Prop) (s : Simulation) :
  ArenaInv (NumGenes (params s)) (agents s) → Bred K s 0 s.
Proof.
  intros Hinv. split; [by destruct s |]. split; [done |].
  exists []. by rewrite app_nil_r.
Qed.

Lemma Bred_length (K : Agent → Prop) (s0 s : Simulation) (k : nat) :
  Bred K s0 k s → length (agents s) = (length (agents s0) + k)%nat.
Proof.
  intros (_ & _ & kids & Hk & Heq & _).
  apply (f_equal length) in Heq. rewrite length_app, !length_fmap in Heq. lia.
Qed.

Lemma Bred_fields (K : Agent → Prop) (s0 s : Simulation) (k : nat) :
  Bred K s0 k s →
  currGen s = currGen s0 ∧ genBdrys s = genBdrys s0 ∧ params s = params s0
  ∧ matingPairs s = matingPairs s0 ∧ sim_id s = sim_id s0.
Proof. intros (-> & _). done. Qed.

(** One more child. *)
Lemma Bred_step (K : Agent → Prop) (s0 : Simulation) (k : nat) (st : St)
    (f m gen : Z) :
  Bred K s0 k st.1 →
  0 ≤ f < len (agents s0) → 0 ≤ m < len (agents s0) →
  (∀ kid, BredFor (NumGenes (params s0)) gen kid → father kid = f →
          mother kid = m → K kid) →
  wp (breed f m gen) st (λ _ st', Bred K s0 (S k) st'.1).
Proof.
  intros HB Hf Hm HK.
  pose proof (Bred_length _ _ _ _ HB) as Hlen.
  pose proof (Bred_fields _ _ _ _ HB) as (Hcg & Hgb & Hp & Hmp & Hid).
  destruct HB as (Hs & Hinv & kids & Hk & Heq & HKs).
  eapply wp_mono.
  { apply breed_wp; [by rewrite Hp | unfold len in *; lia ..]. }
  intros ? st' (kid & Hs' & Heq' & HBF & Hfk & Hmk & Hidk). simpl in *.
  rewrite Hp in HBF. split; [| split].
  - rewrite Hs', Hs. done.
  - eapply ArenaInv_grow; [exact Heq' | exact Hidk | | exact Hinv].
    destruct HBF as [_ ->]. done.
  - exists (kids ++ [kid]). split; [rewrite length_app; simpl; lia |].
    split; [by rewrite Heq', Heq, <- app_assoc |].
    apply Forall_app. split; [done |]. constructor; [| done]. by apply HK.
Qed.

(** The unconstrained strategy breeds exactly [iterations] children of the
    target generation, without an error. *)
Lemma anyMating_wp (gen : Z) (st : St) :
  SimInv st.1 → currGen st.1 ≠ [] →
  wp (anyMating gen) st
     (λ e st', e = None
               ∧ Bred (BredIn (agents st.1) (NumGenes (params st.1)) gen) st.1
                      (Z.to_nat (iterations st.1)) st'.1).
Proof.
  intros [Hinv Hcg] Hne. unfold anyMating. apply wp_bind, wp_get, wp_bind.
  eapply wp_mono.
  - apply (wp_repeatM
             (λ k st', Bred (BredIn (agents st.1) (NumGenes (params st.1)) gen)
                            st.1 k st'.1))
      with (k := 0%nat); [| by apply Bred_start].
    intros k st1 HB.
    pose proof (Bred_fields _ _ _ _ HB) as (Hcg1 & _).
    apply wp_bind. eapply wp_mono; [apply randomMember_wp; by rewrite Hcg1 |].
    intros i st2 [H2 (ci & Hci & ->)]. simpl in H2.
    apply wp_bind. eapply wp_mono; [apply randomMember_wp; by rewrite H2, Hcg1 |].
    intros j st3 [H3 (cj & Hcj & ->)]. simpl in H3.
    rewrite Hcg1 in Hci. rewrite H2, Hcg1 in Hcj. rewrite Forall_forall in Hcg.
    apply (Bred_step _ st.1 k); [by rewrite H3, H2 | by apply Hcg .. |].
    intros kid HBF Hf Hm. split; [done |]. rewrite Hf, Hm. split; by apply Hcg.
  - intros ? st' HB. apply wp_ret. simpl in HB. rewrite Nat.add_0_r in HB. done.
Qed.

(** ** Seeding, shuffling and selecting the current generation *)

Lemma bind_Some {St A B : Type} (m : M St A) (k : A → M St B) (st st1 : St) (a : A) :
  m st = Some (a, st1) → bind m k st = k a st1.
Proof. intros H. unfold bind. by rewrite H. Qed.

Lemma seedAgents_wp (p : Parameters) (ids : list Z) :
  ∀ (acc : list Agent) (r : Rng),
    wp (seedAgents p ids acc) r
       (λ ags _, ∃ new,
          ags = acc ++ new
          ∧ Forall2 (λ i a, id a = i ∧ generation a = 0
                            ∧ length (genes a) = Z.to_nat (NumGenes p)
                            ∧ mother a = 0 ∧ father a = 0) ids new).
Proof.
  induction ids as [|i ids IH]; intros acc r; simpl.
  - apply wp_ret. exists []. by rewrite app_nil_r.
  - apply wp_bind. unfold newFounder. apply wp_bind.
    eapply wp_mono; [apply wp_coinSex |]. intros sx r1 _. apply wp_ret.
    eapply wp_mono; [apply IH |]. intros ags r2 (new & -> & Hnew).
    eexists (_ :: new). split; [by rewrite <- app_assoc |].
    constructor; [| done]. simpl. repeat split.
    unfold founderGenes. by rewrite length_fmap, length_seqZ.
Qed.

Lemma NewSimulation_wp (p : Parameters) (r : Rng) :
  wp (NewSimulation p) r
     (λ s _, params s = p
             ∧ len (agents s) = Z.max 0 (NumAgents p)
             ∧ genBdrys s = [len (agents s)]
             ∧ currGen s = (λ i, mkSelected i false) <$> seqZ 0 (len (agents s))
             ∧ ArenaInv (NumGenes p) (agents s)
             ∧ Forall (λ a, generation a = 0) (agents s)
             ∧ ParentsValid (agents s)).
Proof.
  unfold NewSimulation. apply wp_bind.
  eapply wp_mono; [apply seedAgents_wp |]. intros ags r' (new & -> & Hnew).
  apply wp_ret. simpl.
  pose proof (Forall2_length _ _ _ Hnew) as Hlen. rewrite length_seqZ in Hlen.
  split; [done |]. split; [unfold len; lia |]. do 2 (split; [done |]).
  split; [| split].
  - intros k a [Hk Ha]%at_Some.
    destruct (Forall2_lookup_r _ _ _ _ _ Hnew Ha) as (x & Hx & Hid & _ & Hg & _).
    apply lookup_seqZ in Hx as [-> _]. split; [lia | by rewrite Hg].
  - apply Forall_forall. intros a Ha.
    apply list_elem_of_lookup in Ha as [k Hk].
    by destruct (Forall2_lookup_r _ _ _ _ _ Hnew Hk) as (x & _ & _ & Hg & _).
  - intros k a Ha. pose proof (at_Some_lt _ _ _ Ha) as Hlt.
    apply at_Some in Ha as [Hk Ha].
    destruct (Forall2_lookup_r _ _ _ _ _ Hnew Ha) as (x & _ & _ & _ & _ & -> & ->).
    lia.
Qed.

Lemma swap_Forall {A : Type} (P : A → Prop) (l l' : list A) (x y : Z) :
  swap l x y = Some l' → Forall P l → length l' = length l ∧ Forall P l'.
Proof.
  unfold swap. intros H HP.
  destruct (at_ l x) as [a|] eqn:Ha; [| done].
  destruct (at_ l y) as [b|] eqn:Hb; [| done].
  injection H as <-. unfold set_at. rewrite !length_insert. split; [done |].
  rewrite Forall_forall in HP.
  apply at_Some in Ha as [_ Ha]. apply at_Some in Hb as [_ Hb].
  apply Forall_insert; [apply Forall_insert |].
  - by apply Forall_forall.
  - eapply HP, list_elem_of_lookup_2, Hb.
  - eapply HP, list_elem_of_lookup_2, Ha.
Qed.

(** The shuffle returns, with the same number of entries, all of them
    entries of the list it was given. *)
Lemma shuffleFrom_wp {A : Type} (P : A → Prop) (i : nat) :
  ∀ (l : list A) (r : Rng),
    (i < length l ∨ i = 0)%nat → Forall P l →
    wp (shuffleFrom i l) r (λ l' _, length l' = length l ∧ Forall P l').
Proof.
  induction i as [|i IH]; intros l r Hi HP; simpl.
  - by apply wp_ret.
  - destruct Hi as [Hi|]; [| done].
    apply wp_bind. eapply wp_mono; [apply wp_Intn; lia |].
    intros j r1 Hj. simpl in Hj.
    destruct (at_lt l (Z.of_nat (S i))) as [a Ha]; [unfold len; lia |].
    destruct (at_lt l j) as [b Hb]; [unfold len; lia |].
    assert (swap l (Z.of_nat (S i)) j
            = Some (set_at (set_at l (Z.of_nat (S i)) b) j a)) as Hsw.
    { unfold swap. by rewrite Ha, Hb. }
    destruct (swap_Forall P _ _ _ _ Hsw HP) as [Hlen HP'].
    apply wp_bind. eapply wp_lift; [exact Hsw |].
    eapply wp_mono; [apply IH; [lia | done] |].
    intros l' r2 [Hl' HP2]. split; [lia | done].
Qed.

Lemma shuffleCurrGen_wp (st : St) :
  SimInv st.1 →
  wp shuffleCurrGen st
     (λ _ st', SimInv st'.1 ∧ st'.1 = with_currGen st.1 (currGen st'.1)
               ∧ length (currGen st'.1) = length (currGen st.1)).
Proof.
  intros [Hinv Hcg]. unfold shuffleCurrGen.
  apply wp_bind, wp_get, wp_bind, wp_onRng.
  eapply wp_mono.
  { unfold Shuffle. apply shuffleFrom_wp; [lia | exact Hcg]. }
  intros cg r' [Hlen HP]. apply wp_onSim, wp_put. simpl.
  split; [by split | done].
Qed.

(** The members of generation [gen] when its agents are those from index
    [start] to the end of the arena. *)
Lemma setCurrGen_tail (s : Simulation) (gen start : Z) :
  gen < len (genBdrys s) →
  (if bool_decide (gen = 0) then Some 0 else at_ (genBdrys s) (gen - 1)) = Some start →
  at_ (genBdrys s) gen = Some (len (agents s)) →
  0 ≤ start ≤ len (agents s) →
  setCurrGen gen s
  = Some (tt, with_currGen s ((λ a, mkSelected (id a) false)
                                <$> drop (Z.to_nat start) (agents s))).
Proof.
  intros Hgen Hstart Hstop Hle. unfold setCurrGen.
  rewrite bool_decide_eq_false_2 by lia. rewrite Hstart, Hstop. simpl.
  unfold slice. rewrite bool_decide_eq_true_2 by lia. simpl.
  do 4 f_equal. apply take_ge. rewrite length_drop. unfold len. lia.
Qed.

Lemma SimInv_tail (s : Simulation) (start : Z) :
  ArenaInv (NumGenes (params s)) (agents s) → 0 ≤ start →
  SimInv (with_currGen s ((λ a, mkSelected (id a) false)
                            <$> drop (Z.to_nat start) (agents s))).
Proof.
  intros Hinv Hstart. split; [done |]. simpl.
  apply Forall_fmap, Forall_forall. intros a Ha. simpl.
  apply list_elem_of_lookup in Ha as [k Hk]. rewrite lookup_drop in Hk.
  destruct (Hinv (Z.of_nat (Z.to_nat start + k)) a) as [-> _].
  - by rewrite at_of_nat.
  - apply lookup_lt_Some in Hk. unfold len. lia.
Qed.

(** ** A step of the unconstrained strategy *)

Lemma at_snoc_last {A : Type} (l : list A) (x y : A) :
  last l = Some x → at_ (l ++ [y]) (len l - 1) = Some x.
Proof.
  intros Hl. rewrite last_lookup in Hl.
  assert (length l ≠ 0%nat) by (destruct l; done).
  apply at_Some. unfold len. split; [lia |].
  rewrite lookup_app_l by lia.
  replace (Z.to_nat (Z.of_nat (length l) - 1)) with (Nat.pred (length l)) by lia.
  done.
Qed.

Lemma at_snoc_new {A : Type} (l : list A) (y : A) :
  at_ (l ++ [y]) (len l) = Some y.
Proof.
  unfold len. rewrite at_of_nat. by rewrite list_lookup_middle.
Qed.

Lemma generation_noChildren (l : list Agent) :
  generation <$> (noChildren <$> l) = generation <$> l.
Proof. rewrite <- list_fmap_compose. done. Qed.

Lemma generation_kids (numGenes gen : Z) (kids : list Agent) :
  Forall (BredFor numGenes gen) kids →
  generation <$> kids = replicate (length kids) gen.
Proof.
  induction 1 as [|k kids [Hk _] _ IH]; [done |].
  rewrite fmap_cons, Hk, IH. done.
Qed.

(** One turn of the loop of [Simulate] under the unconstrained strategy:
    it does not fail, and it appends [iterations] children of generation
    [i], which become the current generation. *)
Lemma simulateFrom_any_step (n : nat) (i : Z) (st : St) :
  SimInv st.1 → 2 ≤ len (currGen st.1) →
  len (genBdrys st.1) = i →
  last (genBdrys st.1) = Some (len (agents st.1)) →
  ∃ st',
    simulateFrom (S n) i anyMating st = simulateFrom n (i + 1) anyMating st'
    ∧ SimInv st'.1
    ∧ params st'.1 = params st.1
    ∧ genBdrys st'.1 = genBdrys st.1 ++ [len (agents st'.1)]
    ∧ generation <$> agents st'.1
      = (generation <$> agents st.1) ++ replicate (Z.to_nat (iterations st.1)) i
    ∧ length (currGen st'.1) = Z.to_nat (iterations st.1).
Proof.
  intros Hinv Hcg Hlen Hlast.
  destruct (shuffleCurrGen_wp st Hinv) as ([] & st1 & Hsh & Hinv1 & Hs1 & Hl1).
  assert (iterations st1.1 = iterations st.1) as Hit.
  { unfold iterations, len. rewrite Hl1. by rewrite Hs1. }
  destruct (anyMating_wp i st1 Hinv1) as (e & st2 & Ham & -> & HB).
  { intros Hnil. rewrite Hnil in Hl1. unfold len in Hcg. simpl in Hl1. lia. }
  rewrite Hit in HB.
  pose proof (Bred_length _ _ _ _ HB) as Hlen2.
  pose proof (Bred_fields _ _ _ _ HB) as (_ & Hgb2 & Hp2 & _ & _).
  destruct HB as (_ & Hinv2 & kids & Hk & Heq & HK).
  assert (agents st1.1 = agents st.1 ∧ genBdrys st1.1 = genBdrys st.1
          ∧ params st1.1 = params st.1) as (Ha1 & Hgb1 & Hp1) by (by rewrite Hs1).
  rewrite Ha1 in Hlen2, Heq. rewrite Hgb1 in Hgb2. rewrite Hp1 in Hp2.
  rewrite Hp1 in Hinv2. rewrite <- Hp2 in Hinv2.
  set (s3 := with_genBdrys st2.1 (genBdrys st2.1 ++ [len (agents st2.1)])).
  set (L := len (agents st.1)).
  set (s4 := with_currGen s3 ((λ a, mkSelected (id a) false)
                                <$> drop (Z.to_nat L) (agents s3))).
  assert (setCurrGen i s3 = Some (tt, s4)) as Hset.
  { assert (i ≠ 0) by (unfold len in Hlen; destruct (genBdrys st.1); [done | simpl in Hlen; lia]).
    apply setCurrGen_tail; simpl; rewrite ?Hgb2.
    - unfold len in *. rewrite length_app. simpl. lia.
    - rewrite bool_decide_eq_false_2 by done. rewrite <- Hlen. by apply at_snoc_last.
    - rewrite <- Hlen. apply at_snoc_new.
    - unfold L, len. lia. }
  exists (s4, st2.2). split; [| split; [| split; [| split; [| split]]]].
  - simpl. rewrite (bind_Some _ _ st st st) by done. simpl.
    rewrite bool_decide_eq_false_2 by lia.
    rewrite (bind_Some _ _ _ _ _ Hsh). rewrite (bind_Some _ _ _ _ _ Ham).
    rewrite (bind_Some _ _ st2 (s3, st2.2) tt) by (by destruct st2).
    rewrite (bind_Some _ _ (s3, st2.2) (s4, st2.2) tt); [done |].
    unfold onSim. simpl. by rewrite Hset.
  - apply SimInv_tail; [exact Hinv2 | unfold L, len; lia].
  - done.
  - simpl. by rewrite Hgb2.
  - simpl. rewrite <- (generation_noChildren (agents st2.1)), Heq, fmap_app.
    rewrite generation_noChildren. f_equal.
    rewrite (generation_kids (NumGenes (params st1.1)) i kids), Hk; [done |].
    eapply Forall_impl; [exact HK |]. by intros kid [HBF _].
  - simpl. rewrite length_fmap, length_drop. unfold L, len. lia.
Qed.

Lemma iterations_double (s : Simulation) (c : Z) :
  GrowthRate (params s) == 2 # 1 → len (currGen s) = c → iterations s = 2 * c.
Proof.
  intros Hr Hc. unfold iterations. rewrite Hc.
  rewrite (Qceiling_comp _ (inject_Z (2 * c))); [apply Qceiling_Z |].
  rewrite Hr. by rewrite inject_Z_mult.
Qed.

(** C7: with 2 founders, 2 generations, growth rate 2.0 and the
    unconstrained strategy, whatever the random draws and the other
    parameters, the run ends without an error, with the generation index
    [[2; 6; 14]] and 14 agents: two of generation 0 (indices 0 and 1), the
    four at indices 2 to 5 of generation 1, the eight at indices 6 to 13 of
    generation 2. *)
Theorem run_two_founders_two_generations (p : Parameters) (r : Rng)
    (Hfounders : NumAgents p = 2)
    (Hgenerations : Generations p = 2)
    (Hgrowth : GrowthRate p == 2 # 1)
    (Hmonogamous : Monogamous p = false)
    (Hcompatible : Compatible p = false) :
  ∃ s r',
    run p r = Some (None, (s, r'))
    ∧ genBdrys s = [2; 6; 14]
    ∧ len (agents s) = 14
    ∧ generation <$> agents s = [0; 0; 1; 1; 1; 1; 2; 2; 2; 2; 2; 2; 2; 2].
Proof.
  destruct (NewSimulation_wp p r)
    as (s0 & r0 & Hnew & Hp & Hlen & Hgb & Hcg & Hinv & Hgen0 & _).
  rewrite Hfounders in Hlen. change (0 `max` 2) with 2 in Hlen.
  assert (generation <$> agents s0 = [0; 0]) as Hgens0.
  { unfold len in Hlen. destruct (agents s0) as [|a [|b [|]]]; simpl in Hlen; try lia.
    apply Forall_cons in Hgen0 as [Ha [Hb _]%Forall_cons].
    rewrite !fmap_cons, Ha, Hb. done. }
  set (s1 := with_currGen s0 ((λ a, mkSelected (id a) false)
                                <$> drop (Z.to_nat 0) (agents s0))).
  assert (setCurrGen 0 s0 = Some (tt, s1)) as Hset.
  { apply setCurrGen_tail; rewrite ?Hgb; try done. lia. }
  assert (SimInv s1) as Hinv1 by (apply SimInv_tail; [by rewrite Hp | done]).
  assert (len (currGen s1) = 2) as Hc1.
  { unfold len. simpl. rewrite length_fmap, length_drop. unfold len in Hlen. lia. }
  assert (genBdrys s1 = [2] ∧ len (agents s1) = 2 ∧ params s1 = p
          ∧ generation <$> agents s1 = [0; 0]) as (Hgb1 & Hlen1 & Hp1 & Hgens1).
  { unfold s1. simpl. by rewrite Hgb, Hlen. }
  destruct (simulateFrom_any_step 1 1 (s1, r0)) as (st2 & Hstep1 & Hinv2 & Hp2 & Hgb2 & Hgens2 & Hc2).
  { done. }
  { simpl fst. lia. }
  { simpl fst. by rewrite Hgb1. }
  { simpl fst. by rewrite Hgb1, Hlen1. }
  simpl fst in Hp2, Hgb2, Hgens2, Hc2.
  rewrite (iterations_double s1 2) in Hgens2, Hc2 by (by rewrite ?Hp1).
  rewrite Hgens1 in Hgens2. simpl in Hgens2.
  assert (len (agents st2.1) = 6) as Hlen2.
  { apply (f_equal length) in Hgens2. rewrite length_fmap in Hgens2.
    unfold len. simpl in Hgens2. lia. }
  rewrite Hgb1, Hlen2 in Hgb2. simpl in Hgb2.
  assert (len (currGen st2.1) = 4) as Hc2' by (unfold len; simpl in Hc2; lia).
  destruct (simulateFrom_any_step 0 2 st2) as (st3 & Hstep2 & Hinv3 & Hp3 & Hgb3 & Hgens3 & Hc3).
  { done. }
  { lia. }
  { by rewrite Hgb2. }
  { by rewrite Hgb2, Hlen2. }
  rewrite (iterations_double st2.1 4) in Hgens3, Hc3 by (by rewrite ?Hp2, ?Hp1).
  rewrite Hgens2 in Hgens3. simpl in Hgens3.
  assert (len (agents st3.1) = 14) as Hlen3.
  { apply (f_equal length) in Hgens3. rewrite length_fmap in Hgens3.
    unfold len. simpl in Hgens3. lia. }
  rewrite Hgb2, Hlen3 in Hgb3. simpl in Hgb3.
  exists st3.1, st3.2. split; [| done].
  unfold run. rewrite Hnew. unfold Simulate.
  rewrite (bind_Some _ _ (s0, r0) (s1, r0) tt) by (unfold onSim; simpl; by rewrite Hset).
  rewrite (bind_Some _ _ (s1, r0) (s1, r0) (s1, r0)) by done. simpl fst.
  unfold setPairFunc. rewrite Hp1, Hgenerations.
  rewrite Hmonogamous, Hcompatible. cbn [negb andb].
  change (Z.to_nat 2) with 2%nat. change (1 + 1) with 2 in Hstep1.
  rewrite Hstep1. rewrite Hstep2. simpl. by destruct st3.
Qed.

Lemma run_two_founders_two_generations_witness :
  ∃ s r',
    run (mkParameters 5 2 2 (2 # 1) false 50 10 (0 # 1) false
                      false false false false "NCDGg") zeroRng
    = Some (None, (s, r'))
    ∧ genBdrys s = [2; 6; 14]
    ∧ len (agents s) = 14
    ∧ generation <$> agents s = [0; 0; 1; 1; 1; 1; 2; 2; 2; 2; 2; 2; 2; 2].
Proof.
  apply (run_two_founders_two_generations
           (mkParameters 5 2 2 (2 # 1) false 50 10 (0 # 1) false
                         false false false false "NCDGg") zeroRng);
    reflexivity.
Defined.

(** ** The monogamous strategy *)

Lemma wp_forEach_inv {St E : Type} (I : St → Prop) (body : E → M St unit)
    (l : list E) :
  (∀ e st1, e ∈ l → I st1 → wp (body e) st1 (λ _ st2, I st2)) →
  ∀ st, I st → wp (forEach l body) st (λ _ st', I st').
Proof.
  induction l as [|e l IH]; intros Hbody st HI; simpl.
  - by apply wp_ret.
  - apply wp_bind. eapply wp_mono; [apply Hbody; [set_solver | done] |].
    intros ? st1 H1. apply IH; [| done].
    intros e' st' He'. apply Hbody. set_solver.
Qed.

Lemma makePair_valid (ags : list Agent) (numGenes : Z) (a b : Agent) (i j : Z) :
  ArenaInv numGenes ags → at_ ags i = Some a → at_ ags j = Some b →
  PairValid ags (makePair a b).
Proof.
  intros Hinv Ha Hb.
  destruct (Hinv _ _ Ha) as [Hia _]. destruct (Hinv _ _ Hb) as [Hib _].
  apply at_Some_lt in Ha, Hb. unfold makePair, PairValid.
  case_bool_decide; simpl; by rewrite Hia, Hib.
Qed.

Lemma markMated_wp (cg : list selectedAgent) (i : Z) :
  0 ≤ i < len cg →
  ∃ cg', markMated cg i = Some cg'
         ∧ sel_id <$> cg' = sel_id <$> cg ∧ length cg' = length cg.
Proof.
  intros Hi. destruct (at_lt cg i Hi) as [c Hc]. unfold markMated. rewrite Hc.
  simpl. eexists. split; [done |]. unfold set_at.
  rewrite list_fmap_insert, length_insert. split; [| done]. simpl.
  apply list_insert_id. apply at_Some in Hc as [_ Hc].
  by rewrite list_lookup_fmap, Hc.
Qed.

(** With parents in the arena the cousin test does not panic, nor does
    the compatibility test. *)
Lemma isCousin_total (ags : list Agent) (a b : Agent) (i j : Z) :
  ParentsValid ags → at_ ags i = Some a → at_ ags j = Some b →
  ∃ c, isCousin ags a b = Some c.
Proof.
  intros Hpv Ha Hb. unfold isCousin.
  destruct (_ || _); [by eexists |].
  destruct (Hpv _ _ Ha) as [Hma Hfa]. destruct (Hpv _ _ Hb) as [Hmb Hfb].
  destruct (at_lt ags _ Hma) as [am ->]. destruct (at_lt ags _ Hfa) as [af ->].
  destruct (at_lt ags _ Hmb) as [bm ->]. destruct (at_lt ags _ Hfb) as [bf ->].
  simpl. by eexists.
Qed.

Lemma compatible_total (s : Simulation) (a b : Agent) (i j : Z) :
  ParentsValid (agents s) → at_ (agents s) i = Some a → at_ (agents s) j = Some b →
  ∃ c, compatible s a b = Some c.
Proof.
  intros Hpv Ha Hb. unfold compatible.
  do 3 (destruct (_ && _); [by eexists |]).
  destruct (MateCousin (params s)).
  - destruct (isCousin_total _ _ _ _ _ Hpv Ha Hb) as [c ->]. simpl. by eexists.
  - by eexists.
Qed.

Lemma Pairing_length (s0 s : Simulation) :
  Pairing s0 s → length (currGen s) = length (currGen s0).
Proof.
  intros (_ & Hids & _). apply (f_equal length) in Hids.
  by rewrite !length_fmap in Hids.
Qed.

Lemma Pairing_member (s0 s : Simulation) (j : Z) (c : selectedAgent) :
  Forall (λ c, 0 ≤ sel_id c < len (agents s0)) (currGen s0) →
  Pairing s0 s → at_ (currGen s) j = Some c → 0 ≤ sel_id c < len (agents s0).
Proof.
  intros Hvalid (_ & Hids & _) [_ Hc]%at_Some.
  assert (sel_id c ∈ sel_id <$> currGen s0) as Hin.
  { rewrite <- Hids. apply list_elem_of_fmap. exists c. split; [done |].
    by eapply list_elem_of_lookup_2. }
  apply list_elem_of_fmap in Hin as (c0 & -> & Hc0).
  rewrite Forall_forall in Hvalid. by apply Hvalid.
Qed.

(** The inner loop of [pairAgents] does not panic, and the pair it may
    add is a pair of agents of the arena. *)
Lemma pairScan_wp (s0 : Simulation) (n : nat) (agentA : Agent) (i hi iA : Z) :
  SimInv s0 → ParentsValid (agents s0) →
  at_ (agents s0) iA = Some agentA →
  0 ≤ i < len (currGen s0) → hi ≤ len (currGen s0) →
  ∀ (j : Z) (s : Simulation),
    0 ≤ j → Pairing s0 s →
    wp (pairScan n agentA i j hi) s (λ _ s', Pairing s0 s').
Proof.
  intros [Hinv Hvalid] Hpv HA Hi Hhi.
  induction n as [|n IH]; intros j s Hj HP; simpl.
  - by apply wp_ret.
  - case_bool_decide as Hlt; [| by apply wp_ret].
    pose proof (Pairing_length _ _ HP) as Hlen.
    destruct (at_lt (currGen s) j) as [cj Hcj]; [unfold len in *; lia |].
    apply wp_bind, wp_get, wp_bind. eapply wp_lift; [exact Hcj |].
    destruct (mated cj); [apply IH; [lia | done] |].
    pose proof (Pairing_member _ _ _ _ Hvalid HP Hcj) as Hcjv.
    pose proof HP as ((Hags & _) & Hids & Hpairs).
    destruct (at_lt (agents s0) _ Hcjv) as [agentB HB].
    apply wp_bind. eapply wp_lift; [by rewrite Hags |].
    destruct (compatible_total s agentA agentB iA (sel_id cj)) as [ok Hok];
      [by rewrite Hags .. |].
    apply wp_bind. eapply wp_lift; [exact Hok |].
    destruct ok; [| apply IH; [lia | done]].
    destruct (markMated_wp (currGen s) i) as (cg1 & H1 & Hids1 & Hl1);
      [unfold len in *; lia |].
    destruct (markMated_wp cg1 j) as (cg2 & H2 & Hids2 & Hl2);
      [unfold len in *; lia |].
    apply wp_bind. eapply wp_lift; [exact H1 |].
    apply wp_bind. eapply wp_lift; [exact H2 |].
    apply wp_put. destruct HP as (HK & _ & _).
    split; [exact HK |]. simpl. split; [by rewrite Hids2, Hids1 |].
    apply Forall_app. split; [done |]. constructor; [| done].
    by eapply makePair_valid.
Qed.

(** [pairAgents] does not panic; the pool it leaves holds pairs of agents
    of the arena, and nothing but the pool and the mated flags has
    changed. *)
Lemma pairAgents_wp (s : Simulation) :
  SimInv s → ParentsValid (agents s) →
  wp pairAgents s (λ _ s', Pairing s s').
Proof.
  intros Hinv Hpv. pose proof Hinv as [Harena Hvalid].
  unfold pairAgents. apply wp_bind, wp_get, wp_bind, wp_put.
  apply (wp_forEach_inv (Pairing s)).
  - intros i s1 Hi%elem_of_seqZ HP. unfold pairStep.
    pose proof (Pairing_length _ _ HP) as Hlen.
    destruct (at_lt (currGen s1) i) as [ci Hci]; [unfold len in *; lia |].
    apply wp_bind, wp_get, wp_bind. eapply wp_lift; [exact Hci |].
    pose proof (Pairing_member _ _ _ _ Hvalid HP Hci) as Hciv.
    pose proof HP as ((Hags & _) & _).
    destruct (at_lt (agents s) _ Hciv) as [agentA HA].
    apply wp_bind. eapply wp_lift; [by rewrite Hags |].
    destruct (mated ci); [by apply wp_ret |].
    eapply (pairScan_wp s); try done; unfold len in *; lia.
  - split; [done |]. split; [done |]. constructor.
Qed.

(** With a pool that is not empty, [makeChildrenMonogamous] breeds exactly
    [iterations] children, each from a pair of the pool, which it leaves
    as it is. *)
Lemma makeChildrenMonogamous_wp (gen : Z) (st : St) :
  ArenaInv (NumGenes (params st.1)) (agents st.1) →
  matingPairs st.1 ≠ [] →
  Forall (PairValid (agents st.1)) (matingPairs st.1) →
  wp (makeChildrenMonogamous gen) st
     (λ _ st', Bred (FromPool (NumGenes (params st.1)) gen (matingPairs st.1))
                    st.1 (Z.to_nat (iterations st.1)) st'.1).
Proof.
  intros Hinv Hne Hvalid. unfold makeChildrenMonogamous. apply wp_bind, wp_get.
  eapply wp_mono.
  - apply (wp_repeatM
             (λ k st', Bred (FromPool (NumGenes (params st.1)) gen (matingPairs st.1))
                            st.1 k st'.1)) with (k := 0%nat); [| by apply Bred_start].
    intros k st1 HB.
    pose proof (Bred_fields _ _ _ _ HB) as (_ & _ & _ & Hmp & _).
    apply wp_bind, wp_get, wp_bind, wp_onRng. simpl. rewrite Hmp.
    eapply wp_mono.
    { apply wp_Intn. unfold len. destruct (matingPairs st.1); [done | simpl; lia]. }
    intros x r' Hx. simpl.
    destruct (at_lt (matingPairs st.1) x Hx) as [pr Hpr].
    apply wp_bind. eapply wp_lift; [exact Hpr |].
    assert (pr ∈ matingPairs st.1) as Hin.
    { apply at_Some in Hpr as [_ Hpr]. by eapply list_elem_of_lookup_2. }
    rewrite Forall_forall in Hvalid. destruct (Hvalid pr Hin) as [Hm Hf].
    apply (Bred_step _ st.1 k); [exact HB | done | done |].
    intros kid HBF Hfa Hmo. split; [done |]. by exists pr.
  - intros ? st' HB. simpl in HB. by rewrite Nat.add_0_r in HB.
Qed.

Lemma setPairFunc_monogamous (s : Simulation) :
  Monogamous (params s) = true → setPairFunc s = monogamousMating.
Proof. intros H. unfold setPairFunc. by rewrite H. Qed.





(** In that simulation the pool is the pair of the two founders, and four
    children are bred from it. *)
Lemma monogamousStart_pool :
  shuffleCurrGen monogamousStart = Some (tt, monogamousShuffled)
  ∧ pairAgents monogamousShuffled.1 = Some (tt, monogamousPaired)
  ∧ matingPairs monogamousPaired = [mkPair 0 1]
  ∧ ∃ st3, monogamousMating 1 monogamousShuffled = Some (None, st3)
           ∧ len (agents st3.1) = 6.
Proof.
  split; [vm_compute; reflexivity |]. split; [vm_compute; reflexivity |].
  split; [reflexivity |]. eexists. split; [vm_compute; reflexivity |]. reflexivity.
Qed.

(** ** The non-monogamous strategy *)

(** What the loop of the partner search leaves: it has stopped on a
    compatible partner or after [matingK] draws (never more). *)
Lemma partnerSearch_exit (n : nat) (matingK i : Z) :
  ∀ (j : Z) (compat : bool) (k : Z) (st : St),
    matingK - k ≤ Z.of_nat n →
    wlp (partnerSearch n matingK i j compat k) st
        (λ res _, k ≤ res.2 ≤ Z.max k matingK
                  ∧ (res.1.2 = true ∨ res.2 >= matingK)).
Proof.
  induction n as [|n IH]; intros j compat k st Hn; simpl.
  - apply wlp_ret. simpl. split; [lia | right; lia].
  - destruct compat; simpl.
    { apply wlp_ret. simpl. split; [lia | by left]. }
    case_bool_decide as Hlt; [| apply wlp_ret; simpl; split; [lia | right; lia]].
    apply wlp_bind. intros j' st1 _.
    apply wlp_bind, wlp_get, wlp_bind, wlp_lift. intros a _.
    apply wlp_bind, wlp_lift. intros b _.
    apply wlp_bind, wlp_lift. intros c _.
    eapply wlp_mono; [apply IH; lia |].
    intros [[j2 c2] k2] st2 [Hk2 Hex]. simpl in *. split; [lia | exact Hex].
Qed.

(** A search of one draw returns [k = 1], whatever it has found. *)
Lemma partnerSearch_one (i : Z) (st : St) :
  wlp (partnerSearch 1 1 i 0 false 0) st (λ res st', res.2 = 1 ∧ st'.1 = st.1).
Proof.
  simpl. apply wlp_bind.
  eapply wlp_mono; [apply randomMember_same |]. intros j st1 H1.
  apply wlp_bind, wlp_get, wlp_bind, wlp_lift. intros a _.
  apply wlp_bind, wlp_lift. intros b _.
  apply wlp_bind, wlp_lift. intros c _. by apply wlp_ret.
Qed.

(** With a search width of 1 the strategy never breeds: the test
    [k >= matingK] after the search also holds when the one draw was a
    compatible partner. *)
Lemma nonMonogamousMating_one_draw (gen : Z) (st : St) :
  MatingK (params st.1) = 1 →
  wlp (nonMonogamousMating gen) st (λ _ st', st'.1 = st.1).
Proof.
  intros HK. unfold nonMonogamousMating. apply wlp_bind, wlp_get, wlp_bind.
  eapply wlp_mono.
  - apply (wlp_repeatM (λ x y : St, MatingK (params x.1) = 1 → y.1 = x.1)).
    + done.
    + intros x y z Hxy Hyz Hx. rewrite <- (Hxy Hx). apply Hyz. by rewrite (Hxy Hx).
    + intros st1. destruct (decide (MatingK (params st1.1) = 1)) as [HK1|HK1];
        [| by intros ? ? _ ?].
      eapply wlp_mono; [| intros ? st' H _; exact H].
      apply wlp_bind.
      eapply wlp_mono; [apply randomMember_same |]. intros i st2 H2. simpl in H2.
      apply wlp_bind, wlp_get. rewrite H2, HK1.
      apply wlp_bind. eapply wlp_mono; [apply partnerSearch_one |].
      intros [[j compat] k] st4 [Hk H4]. simpl in Hk, H4. subst k.
      rewrite bool_decide_eq_true_2 by lia. apply wlp_ret. congruence.
  - intros ? st' H. apply wlp_ret. by apply H.
Qed.

(** C2 at a failing input: two founders, a male and a female, and a
    search width of one draw.  The first offspring iteration draws the
    female as first parent and the male as second parent: the partner
    search returns a compatible partner found at its first draw, within the
    budget of one.  The strategy nevertheless breeds no child, in this
    iteration or any other, and the run ends without an error with the two
    founders only. *)
Theorem nonMonogamousMating_last_draw_lost :
  ∃ st0 st1 st2 st' s r',
    firstStepStart oneDraw oneDrawRng = Some st0
    ∧ MatingK (params st0.1) = 1
    ∧ randomMember st0 = Some (1, st1)
    ∧ partnerSearch 1 1 1 0 false 0 st1 = Some ((0, true, 1), st2)
    ∧ nonMonogamousMating 1 st0 = Some (None, st')
    ∧ agents st'.1 = agents st0.1
    ∧ run oneDraw oneDrawRng = Some (None, (s, r'))
    ∧ len (agents s) = 2.
Proof.
  eexists _, _, _, _, _, _.
  split; [vm_compute; reflexivity |]. split; [reflexivity |].
  split; [vm_compute; reflexivity |]. split; [vm_compute; reflexivity |].
  split; [vm_compute; reflexivity |]. split; [reflexivity |].
  split; [vm_compute; reflexivity |]. reflexivity.
Qed.

(** ** Resolving a generation *)

Lemma at_kin (ags1 ags2 : list Agent) (i : Z) :
  kin <$> ags1 = kin <$> ags2 → kin <$> at_ ags1 i = kin <$> at_ ags2 i.
Proof.
  intros Heq. unfold at_. case_bool_decide; [done |].
  by rewrite <- !list_lookup_fmap, Heq.
Qed.

(** The loop reads the arena through [kin] only. *)
Lemma ancestorsLoop_kin (ags1 ags2 : list Agent) (fuel : nat) :
  kin <$> ags1 = kin <$> ags2 →
  ∀ vec set sp gen,
    ancestorsLoop fuel ags1 vec set sp gen = ancestorsLoop fuel ags2 vec set sp gen.
Proof.
  intros Heq. induction fuel as [|fuel IH]; intros vec set sp gen; [done |].
  rewrite !ancestorsLoop_S. case_bool_decide; [| done].
  destruct (vec !! sp) as [curr|]; [| done]. simpl.
  pose proof (at_kin ags1 ags2 curr Heq) as Hk.
  destruct (at_ ags1 curr) as [c1|], (at_ ags2 curr) as [c2|]; try done. simpl.
  injection Hk as _ Hg Hm Hf. rewrite Hg, Hm, Hf.
  case_bool_decide; [done |]. apply IH.
Qed.

Lemma setAncestors_kin (ags1 ags2 ags1' : list Agent) (i : Z) (a1 a2 : Agent) :
  kin <$> ags1 = kin <$> ags2 →
  at_ ags1 i = Some a1 → at_ ags2 i = Some a2 →
  setAncestors ags1 i = Some ags1' →
  ∃ vec set,
    ags1' = set_at ags1 i (setAncestry a1 vec set)
    ∧ setAncestors ags2 i = Some (set_at ags2 i (setAncestry a2 vec set)).
Proof.
  intros Heq H1 H2. unfold setAncestors. rewrite H1, H2. simpl.
  pose proof (at_kin ags1 ags2 i Heq) as Hk. rewrite H1, H2 in Hk.
  injection Hk as _ Hg _ _. rewrite Hg.
  case_bool_decide; [done |].
  assert (length ags1 = length ags2) as Hlen.
  { apply (f_equal length) in Heq. by rewrite !length_fmap in Heq. }
  rewrite Hlen, (ancestorsLoop_kin ags1 ags2 _ Heq).
  destruct (ancestorsLoop _ ags2 _ _ _ _) as [acc|]; [| done]. simpl.
  intros [= <-]. by eexists _, _.
Qed.

Lemma kin_set_at (ags : list Agent) (i : Z) (a : Agent) (vec : list Z) (set : gset Z) :
  at_ ags i = Some a →
  kin <$> set_at ags i (setAncestry a vec set) = kin <$> ags.
Proof.
  intros [Hi Ha]%at_Some. unfold set_at. rewrite list_fmap_insert.
  apply list_insert_id. by rewrite list_lookup_fmap, Ha.
Qed.

(** Resolving the agents of a list of distinct indices, one after the
    other, resolves each of them as in the arena at the start, and touches
    no other agent. *)
Lemma resolve_each (ags0 : list Agent) (ids : list Z) :
  NoDup ids →
  ∀ s : Simulation,
    kin <$> agents s = kin <$> ags0 →
    (∀ j, j ∈ ids → at_ (agents s) j = at_ ags0 j) →
    wlp (forEach ids (λ i, let* s := get in
                           let* ags := lift (setAncestors (agents s) i) in
                           put (with_agents s ags)))
        s
        (λ _ s', s' = with_agents s (agents s')
                 ∧ kin <$> agents s' = kin <$> ags0
                 ∧ (∀ j, j ∈ ids → ∃ a1, at_ (agents s') j = Some a1
                                         ∧ Resolved ags0 j a1)
                 ∧ (∀ j, j ∉ ids → at_ (agents s') j = at_ (agents s) j)).
Proof.
  induction ids as [|i ids IH]; intros Hnd s Hkin Hsame; simpl.
  - apply wlp_ret. split; [by destruct s |]. split; [done |].
    split; [| done]. intros j Hj. by apply elem_of_nil in Hj.
  - apply NoDup_cons in Hnd as [Hi Hnd].
    apply wlp_bind, wlp_bind, wlp_get, wlp_bind, wlp_lift. intros ags1 Hres.
    apply wlp_put.
    assert (∃ a, at_ (agents s) i = Some a) as [a Ha].
    { unfold setAncestors in Hres. destruct (at_ (agents s) i); [by eexists | done]. }
    pose proof Ha as Ha0. rewrite Hsame in Ha0 by set_solver.
    destruct (setAncestors_kin _ _ _ _ _ _ Hkin Ha Ha0 Hres) as (vec & set & -> & Hres0).
    pose proof (at_Some_lt _ _ _ Ha) as Hlt.
    pose proof (at_Some_lt _ _ _ Ha0) as Hlt0.
    eapply wlp_mono.
    + apply (IH Hnd); simpl.
      * by rewrite kin_set_at.
      * intros j Hj. rewrite at_set_at_ne; [apply Hsame; set_solver | lia |].
        intros ->. done.
    + intros ? s' (Hs' & Hkin' & Hres' & Hother). simpl in *.
      split; [by rewrite Hs' |]. split; [done |]. split.
      * intros j [->|Hj]%elem_of_cons; [| by apply Hres'].
        exists (setAncestry a vec set). split.
        -- rewrite (Hother i Hi). by apply at_set_at_eq.
        -- eexists. split; [exact Hres0 |]. by apply at_set_at_eq.
      * intros j Hj. rewrite Hother by set_solver.
        apply at_set_at_ne; [lia |]. intros ->. set_solver.
Qed.

(** Whenever [setAncestorsGen gen] returns, every agent between the
    boundaries of generation [gen] is resolved, and nothing else has
    changed. *)
Lemma setAncestorsGen_resolved (gen : Z) (s : Simulation) :
  wlp (setAncestorsGen gen) s
      (λ _ s', s' = with_agents s (agents s')
               ∧ ∀ lo hi i,
                   at_ (genBdrys s) (gen - 1) = Some lo →
                   at_ (genBdrys s) gen = Some hi →
                   lo ≤ i < hi →
                   ∃ a1, at_ (agents s') i = Some a1 ∧ Resolved (agents s) i a1).
Proof.
  unfold setAncestorsGen.
  apply wlp_bind, wlp_get, wlp_bind, wlp_lift. intros lo Hlo.
  apply wlp_bind, wlp_lift. intros hi Hhi.
  eapply wlp_mono; [apply (resolve_each (agents s)); [apply NoDup_seqZ | done | done] |].
  intros ? s' (Hs' & _ & Hres & _). split; [done |].
  intros lo' hi' i Hlo' Hhi' Hi. rewrite Hlo in Hlo'. rewrite Hhi in Hhi'.
  injection Hlo' as <-. injection Hhi' as <-.
  apply Hres, elem_of_seqZ. lia.
Qed.

Lemma at_kin_Some (ags1 ags2 : list Agent) (i : Z) (a : Agent) :
  kin <$> ags1 = kin <$> ags2 → at_ ags1 i = Some a →
  ∃ a', at_ ags2 i = Some a' ∧ kin a' = kin a.
Proof.
  intros Heq Ha. pose proof (at_kin ags1 ags2 i Heq) as Hk. rewrite Ha in Hk.
  destruct (at_ ags2 i) as [a'|]; [| done]. exists a'. split; [done |].
  simpl in Hk. congruence.
Qed.

Lemma ArenaOrdered_kin (ags1 ags2 : list Agent) :
  kin <$> ags1 = kin <$> ags2 → ArenaOrdered ags2 → ArenaOrdered ags1.
Proof.
  intros Heq [Hid Hnn Hmono Hpar]. split.
  - intros i a Ha. destruct (at_kin_Some _ _ _ _ Heq Ha) as (a' & Ha' & Hk).
    injection Hk as <- _ _ _. by apply Hid.
  - intros i a Ha. destruct (at_kin_Some _ _ _ _ Heq Ha) as (a' & Ha' & Hk).
    injection Hk as _ <- _ _. by apply (Hnn i).
  - intros i j a b Ha Hb Hij.
    destruct (at_kin_Some _ _ _ _ Heq Ha) as (a' & Ha' & Hka).
    destruct (at_kin_Some _ _ _ _ Heq Hb) as (b' & Hb' & Hkb).
    injection Hka as _ <- _ _. injection Hkb as _ <- _ _. by apply (Hmono i j).
  - intros i a Ha Hg. destruct (at_kin_Some _ _ _ _ Heq Ha) as (a' & Ha' & Hk).
    injection Hk as _ Hgen <- <-. apply Hpar; [done | by rewrite Hgen].
Qed.

Lemma setAncestors_returns (ags : list Agent) (i : Z) :
  ArenaOrdered ags → 0 ≤ i < len ags → ∃ ags', setAncestors ags i = Some ags'.
Proof.
  intros [Hids Hnn Hmono Hpar] Hi. destruct (at_lt ags i Hi) as [a Ha].
  destruct (setAncestors_found ags i a (λ x, 0 ≤ x < i)) as (rest & Hres & _).
  - done.
  - intros curr c Hc Hcc Hg. destruct (Hpar curr c Hcc Hg).
    destruct Hc as [->|Hc]; lia.
  - done.
  - by apply (Hnn i).
  - by eexists.
Qed.

(** In an arena ordered by generation where parents have smaller ids,
    resolving a generation whose boundaries lie in the arena returns. *)
Lemma setAncestorsGen_total (gen lo hi : Z) (s : Simulation) :
  ArenaOrdered (agents s) →
  at_ (genBdrys s) (gen - 1) = Some lo → at_ (genBdrys s) gen = Some hi →
  0 ≤ lo → hi ≤ len (agents s) →
  wp (setAncestorsGen gen) s (λ _ _, True).
Proof.
  intros Harena Hlo Hhi Hlo0 Hhil. unfold setAncestorsGen.
  apply wp_bind, wp_get, wp_bind. eapply wp_lift; [exact Hlo |].
  apply wp_bind. eapply wp_lift; [exact Hhi |].
  eapply wp_mono.
  - apply (wp_forEach_inv (λ s', kin <$> agents s' = kin <$> agents s)); [| done].
    intros i s1 Hi%elem_of_seqZ Hkin.
    assert (length (agents s1) = length (agents s)) as Hlen.
    { apply (f_equal length) in Hkin. by rewrite !length_fmap in Hkin. }
    destruct (setAncestors_returns (agents s1) i) as (ags' & Hres).
    { by eapply ArenaOrdered_kin. }
    { unfold len in *. lia. }
    apply wp_bind, wp_get, wp_bind. eapply wp_lift; [exact Hres |].
    apply wp_put. simpl.
    destruct (at_lt (agents s1) i) as [a Ha]; [unfold len in *; lia |].
    destruct (setAncestors_kin _ _ _ _ _ _ eq_refl Ha Ha Hres) as (vec & set & -> & _).
    by rewrite kin_set_at.
  - done.
Qed.

(** ** Analysis *)

Lemma lastGeneration_nonempty (s : Simulation) (gen : Z) :
  lastGeneration s = Some gen → len (agents s) ≠ 0.
Proof.
  unfold lastGeneration, len. destruct (agents s); [done | simpl; lia].
Qed.

(** C9: [Analysis] prints the parameters and then returns an error,
    having computed no statistic and changed nothing, when there is no
    agent or when the last agent is of generation 0.  Otherwise what it
    does is [setAncestorsGen] for the last generation followed by the
    selected statistics, which so run in the state that the resolution
    leaves; in that state every agent between the boundaries of the last
    generation has its ancestors resolved; and the resolution returns when
    the arena is ordered by generation and the boundaries of the last
    generation lie in it. *)
Theorem Analysis_resolves_first (s : Simulation) (out : list Output) :
  (agents s = [] →
   Analysis (s, out)
   = Some (Some ErrNoAgents, (s, out ++ [OutParameters (sim_id s) (params s)])))
  ∧ (lastGeneration s = Some 0 →
     Analysis (s, out)
     = Some (Some (ErrOnlyZeroGeneration (sim_id s)),
             (s, out ++ [OutParameters (sim_id s) (params s)])))
  ∧ (∀ gen, lastGeneration s = Some gen → gen ≠ 0 →
       Analysis (s, out)
       = match setAncestorsGen gen s with
         | Some (_, s1) =>
             statistics (Analysis_ (params s))
                        (s1, out ++ [OutParameters (sim_id s) (params s)])
         | None => None
         end
       ∧ (∀ s1, setAncestorsGen gen s = Some (tt, s1) →
            ∀ lo hi i,
              at_ (genBdrys s) (gen - 1) = Some lo →
              at_ (genBdrys s) gen = Some hi →
              lo ≤ i < hi →
              ∃ a1, at_ (agents s1) i = Some a1 ∧ Resolved (agents s) i a1)
       ∧ (∀ lo hi,
            ArenaOrdered (agents s) →
            at_ (genBdrys s) (gen - 1) = Some lo →
            at_ (genBdrys s) gen = Some hi →
            0 ≤ lo → hi ≤ len (agents s) →
            ∃ s1, setAncestorsGen gen s = Some (tt, s1))).
Proof.
  split; [| split].
  - intros Hnil. unfold Analysis.
    rewrite (bind_Some _ _ (s, out) (s, out) (s, out)) by done.
    erewrite bind_Some by reflexivity. simpl. by rewrite Hnil.
  - intros Hlast. pose proof (lastGeneration_nonempty _ _ Hlast) as Hne.
    unfold Analysis.
    rewrite (bind_Some _ _ (s, out) (s, out) (s, out)) by done.
    erewrite bind_Some by reflexivity. simpl.
    rewrite bool_decide_eq_false_2 by done.
    erewrite bind_Some by (unfold lift; rewrite Hlast; reflexivity). done.
  - intros gen Hlast Hgen.
    pose proof (lastGeneration_nonempty _ _ Hlast) as Hne.
    split; [| split].
    + unfold Analysis.
      rewrite (bind_Some _ _ (s, out) (s, out) (s, out)) by done.
      erewrite bind_Some by reflexivity. simpl.
      rewrite bool_decide_eq_false_2 by done.
      erewrite bind_Some by (unfold lift; rewrite Hlast; reflexivity).
      rewrite bool_decide_eq_false_2 by done.
      unfold bind at 1, onSimA. simpl.
      by destruct (setAncestorsGen gen s) as [[[] s1]|].
    + intros s1 Hset.
      by destruct (setAncestorsGen_resolved gen s tt s1 Hset) as [_ Hres].
    + intros lo hi Harena Hlo Hhi Hlo0 Hhil.
      destruct (setAncestorsGen_total gen lo hi s Harena Hlo Hhi Hlo0 Hhil)
        as ([] & s1 & Hset & _).
      by exists s1.
Qed.

(** On the arena of the test suite, [Analysis] resolves generation 3 and
    reports: agent 9 gets the ancestors [[0; 1; 3; 4; 5; 7]] and agent 13
    the ancestors [[0; 1; 3; 4; 6; 8]], as the tests expect. *)
Lemma Analysis_testSim :
  ∃ s' out a9 a13,
    Analysis (testSim NewParameters, []) = Some (None, (s', out))
    ∧ at_ (agents s') 9 = Some a9 ∧ ancestorVec a9 = [0; 1; 3; 4; 5; 7]
    ∧ at_ (agents s') 13 = Some a13 ∧ ancestorVec a13 = [0; 1; 3; 4; 6; 8]
    ∧ length out = 5%nat.
Proof.
  eexists _, _, _, _. split; [vm_compute; reflexivity |].
  split; [reflexivity |]. split; [reflexivity |].
  split; [reflexivity |]. split; reflexivity.
Qed.

(** ** The engine does not panic *)

Lemma Bred_impl (K K' : Agent → Prop) (s0 s : Simulation) (k : nat) :
  (∀ kid, K kid → K' kid) → Bred K s0 k s → Bred K' s0 k s.
Proof.
  intros HK (Hs & Hinv & kids & Hk & Heq & HKs).
  split; [done |]. split; [done |]. exists kids. repeat split; try done.
  by eapply Forall_impl.
Qed.

Lemma ParentsValid_Bred (ags : list Agent) (numGenes gen : Z) (s0 s : Simulation)
    (k : nat) :
  agents s0 = ags → ParentsValid ags →
  Bred (BredIn ags numGenes gen) s0 k s → ParentsValid (agents s).
Proof.
  intros Hags Hpv HB. pose proof (Bred_length _ _ _ _ HB) as Hlen.
  destruct HB as (_ & _ & kids & Hk & Heq & HK). rewrite Hags in Heq, Hlen.
  intros j a' Hj.
  pose proof (cores_at _ _ _ _ Heq Hj) as [Hj0 Hc]%at_Some.
  assert (0 ≤ mother (noChildren a') < len ags + Z.of_nat k
          ∧ 0 ≤ father (noChildren a') < len ags + Z.of_nat k) as Hvalid.
  { apply lookup_app_Some in Hc as [Hc|[_ Hc]].
    - rewrite list_lookup_fmap in Hc.
      destruct (ags !! Z.to_nat j) as [a0|] eqn:Ha0; [| done].
      simpl in Hc. assert (noChildren a0 = noChildren a') as <- by congruence.
      simpl. destruct (Hpv j a0); [by apply at_Some | lia].
    - rewrite Forall_forall in HK.
      destruct (HK _ (list_elem_of_lookup_2 _ _ _ Hc)) as (_ & Hm & Hf). lia. }
  simpl in Hvalid. unfold len in *. lia.
Qed.

(** The partner search does not panic. If it has drawn at all, the second
    parent it returns is one of the current generation, whose ids are
    below [L]. *)
Lemma partnerSearch_wp (L : Z) (n : nat) (matingK i : Z) :
  ∀ (j : Z) (compat : bool) (k : Z) (st : St),
    0 ≤ i < len (agents st.1) → ParentsValid (agents st.1) →
    L ≤ len (agents st.1) →
    Forall (λ c, 0 ≤ sel_id c < L) (currGen st.1) →
    currGen st.1 ≠ [] →
    wp (partnerSearch n matingK i j compat k) st
       (λ res st', st'.1 = st.1
                   ∧ (res = (j, compat, k)
                      ∧ (n = 0%nat ∨ negb compat && bool_decide (k < matingK) = false)
                      ∨ 0 ≤ res.1.1 < L)).
Proof.
  induction n as [|n IH]; intros j compat k st Hi Hpv HL Hcg Hne; simpl.
  - apply wp_ret. split; [done |]. left. split; [done | by left].
  - destruct (negb compat && bool_decide (k < matingK)) eqn:Hcond; cycle 1.
    { apply wp_ret. split; [done |]. left. split; [done | by right]. }
    apply wp_bind. eapply wp_mono; [by apply randomMember_wp |].
    intros j' st1 [H1 (cj & Hcj & ->)]. simpl in H1.
    pose proof Hcg as Hcg'. rewrite Forall_forall in Hcg'.
    pose proof (Hcg' cj Hcj) as Hjv.
    destruct (at_lt (agents st.1) i Hi) as [a Ha].
    destruct (at_lt (agents st.1) (sel_id cj)) as [b Hb]; [lia |].
    destruct (compatible_total st.1 a b _ _ Hpv Ha Hb) as [c Hc].
    apply wp_bind, wp_get. simpl. rewrite H1.
    apply wp_bind. eapply wp_lift; [exact Ha |].
    apply wp_bind. eapply wp_lift; [exact Hb |].
    apply wp_bind. eapply wp_lift; [exact Hc |].
    eapply wp_mono; [apply IH; by rewrite ?H1 |].
    intros res st2 [H2 Hres]. simpl in *. split; [congruence |]. right.
    destruct Hres as [[-> _]|Hres]; [done | exact Hres].
Qed.

Lemma anyMating_OK : StrategyOK anyMating.
Proof.
  intros gen st [Hinv Hpv] Hcg.
  eapply wp_mono.
  - apply anyMating_wp; [done |]. intros Hnil. rewrite Hnil in Hcg. by compute in Hcg.
  - intros e st' [_ HB] _. by eexists st.1, _.
Qed.

Lemma nonMonogamousMating_OK : StrategyOK nonMonogamousMating.
Proof.
  intros gen st [[Harena Hvalid] Hpv] Hcg.
  assert (currGen st.1 ≠ []) as Hne.
  { intros Hnil. rewrite Hnil in Hcg. by compute in Hcg. }
  set (K := BredIn (agents st.1) (NumGenes (params st.1)) gen).
  unfold nonMonogamousMating. apply wp_bind, wp_get, wp_bind.
  eapply wp_mono.
  - apply (wp_repeatM (λ (_ : nat) st', ∃ k, Bred K st.1 k st'.1)) with (k := 0%nat);
      [| exists 0%nat; by apply Bred_start].
    intros _ st1 [k HB].
    pose proof (Bred_fields _ _ _ _ HB) as (Hcg1 & _ & Hp1 & _).
    pose proof (Bred_length _ _ _ _ HB) as Hlen1.
    pose proof (ParentsValid_Bred _ _ _ _ _ _ eq_refl Hpv HB) as Hpv1.
    apply wp_bind. eapply wp_mono; [apply randomMember_wp; by rewrite Hcg1 |].
    intros i st2 [H2 (ci & Hci & ->)]. simpl in H2.
    rewrite Hcg1 in Hci. pose proof Hvalid as Hvalid'.
    rewrite Forall_forall in Hvalid'. pose proof (Hvalid' ci Hci) as Hiv.
    apply wp_bind, wp_get. simpl.
    apply wp_bind. eapply wp_mono.
    { apply (partnerSearch_wp (len (agents st.1))); rewrite H2, ?Hcg1; try done;
        unfold len in *; lia. }
    intros [[j compat] k'] st3 [H3 Hres]. simpl in H3, Hres.
    destruct (bool_decide (k' >= MatingK (params st2.1))) eqn:Hk;
      [apply wp_ret; exists k; by rewrite H3, H2 |].
    apply bool_decide_eq_false in Hk.
    destruct Hres as [[[= -> -> ->] Hno]|Hjv].
    { exfalso. destruct Hno as [Hno|Hno].
      - lia.
      - simpl in Hno. apply bool_decide_eq_false in Hno. lia. }
    eapply wp_mono; [apply (Bred_step K st.1 k) |].
    + by rewrite H3, H2.
    + done.
    + done.
    + intros kid HBF Hf Hm. split; [done |]. by rewrite Hf, Hm.
    + intros ? st4 HB4. by exists (S k).
  - intros ? st' [k HB]. apply wp_ret. intros _. by exists st.1, k.
Qed.

Lemma monogamousMating_OK : StrategyOK monogamousMating.
Proof.
  intros gen st [Hinv Hpv] Hcg.
  destruct (pairAgents_wp st.1 Hinv Hpv) as ([] & s1 & Hpairs & HP).
  pose proof HP as ((Hags & Hgb & Hp & Hid) & Hids & Hvalid).
  assert (onSim pairAgents st = Some (tt, (s1, st.2))) as Hpa.
  { unfold onSim. by rewrite Hpairs. }
  unfold monogamousMating. apply wp_bind.
  exists tt, (s1, st.2). split; [exact Hpa |].
  apply wp_bind, wp_get. simpl. case_bool_decide as Hempty.
  { by apply wp_ret. }
  apply wp_bind. eapply wp_mono.
  { apply makeChildrenMonogamous_wp; simpl.
    - rewrite Hp, Hags. by destruct Hinv.
    - intros Hnil. rewrite Hnil in Hempty. done.
    - by rewrite Hags. }
  intros ? st' HB. apply wp_ret. intros _. simpl in HB.
  exists s1, (Z.to_nat (iterations s1)). split; [by destruct HP |].
  eapply Bred_impl; [| exact HB].
  intros kid [HBF (pr & Hpr & Hf & Hm)]. rewrite Hp in HBF. split; [done |].
  rewrite Forall_forall in Hvalid. destruct (Hvalid pr Hpr) as [Hmale Hfemale].
  by rewrite Hf, Hm.
Qed.

Lemma setPairFunc_OK (s : Simulation) : StrategyOK (setPairFunc s).
Proof.
  unfold setPairFunc.
  destruct (negb (Monogamous (params s)) && negb (Compatible (params s)));
    [apply anyMating_OK |].
  destruct (Monogamous (params s));
    [apply monogamousMating_OK | apply nonMonogamousMating_OK].
Qed.

(** The loop of [Simulate] returns, whatever the strategy. *)
Lemma simulateFrom_total (pairFunc : Z → M St (option Err)) (n : nat) :
  StrategyOK pairFunc →
  ∀ (i : Z) (st : St),
    EngineInv st.1 → len (genBdrys st.1) = i →
    last (genBdrys st.1) = Some (len (agents st.1)) →
    wp (simulateFrom n i pairFunc) st (λ _ _, True).
Proof.
  intros Hpf. induction n as [|n IH]; intros i st [Hinv Hpv] Hlen Hlast; simpl.
  - by apply wp_ret.
  - apply wp_bind, wp_get. simpl. case_bool_decide as Hcg; [by apply wp_ret |].
    destruct (shuffleCurrGen_wp st Hinv) as ([] & st1 & Hsh & Hinv1 & Hs1 & Hl1).
    apply wp_bind. exists tt, st1. split; [exact Hsh |].
    assert (agents st1.1 = agents st.1 ∧ genBdrys st1.1 = genBdrys st.1
            ∧ params st1.1 = params st.1) as (Ha1 & Hgb1 & Hp1) by (by rewrite Hs1).
    apply wp_bind. eapply wp_mono.
    { apply Hpf; [split; [done | by rewrite Ha1] | unfold len in *; lia]. }
    intros [err|] st2 HB; [by apply wp_ret |].
    destruct (HB eq_refl) as (s1' & k & (Hags' & Hgb' & Hp' & _) & HBred).
    pose proof (Bred_length _ _ _ _ HBred) as Hlen2.
    pose proof (Bred_fields _ _ _ _ HBred) as (_ & Hgb2 & Hp2 & _ & _).
    assert (ParentsValid (agents st2.1)) as Hpv2.
    { eapply ParentsValid_Bred; [exact Hags' | by rewrite Ha1 | exact HBred]. }
    destruct HBred as (_ & Hinv2 & _).
    rewrite Hags', Ha1 in Hlen2. rewrite Hgb', Hgb1 in Hgb2.
    set (s3 := with_genBdrys st2.1 (genBdrys st2.1 ++ [len (agents st2.1)])).
    set (L := len (agents st.1)).
    set (s4 := with_currGen s3 ((λ a, mkSelected (id a) false)
                                  <$> drop (Z.to_nat L) (agents s3))).
    assert (setCurrGen i s3 = Some (tt, s4)) as Hset.
    { assert (i ≠ 0) by (unfold len in Hlen; destruct (genBdrys st.1); [done | simpl in Hlen; lia]).
      apply setCurrGen_tail; simpl; rewrite ?Hgb2.
      - unfold len in *. rewrite length_app. simpl. lia.
      - rewrite bool_decide_eq_false_2 by done. rewrite <- Hlen. by apply at_snoc_last.
      - rewrite <- Hlen. apply at_snoc_new.
      - unfold L, len. lia. }
    apply wp_bind. exists tt, (s3, st2.2). split; [by destruct st2 |].
    apply wp_bind. exists tt, (s4, st2.2).
    split; [unfold onSim; simpl; by rewrite Hset |].
    apply IH.
    + split; [| done]. apply SimInv_tail; [| unfold L, len; lia].
      simpl. by rewrite Hp2.
    + simpl. rewrite Hgb2. unfold len in *. rewrite length_app. simpl. lia.
    + simpl. apply last_snoc.
Qed.

(** A run always returns: the engine does not panic. *)
Lemma run_total (p : Parameters) (r : Rng) :
  ∃ e st, run p r = Some (e, st).
Proof.
  destruct (NewSimulation_wp p r)
    as (s0 & r0 & Hnew & Hp & Hlen & Hgb & Hcg & Hinv & _ & Hpv).
  set (s1 := with_currGen s0 ((λ a, mkSelected (id a) false)
                                <$> drop (Z.to_nat 0) (agents s0))).
  assert (setCurrGen 0 s0 = Some (tt, s1)) as Hset.
  { apply setCurrGen_tail; rewrite ?Hgb; try done. unfold len. lia. }
  assert (EngineInv s1) as Hinv1.
  { split; [apply SimInv_tail; [by rewrite Hp | done] | done]. }
  destruct (simulateFrom_total (setPairFunc s1)
              (Z.to_nat (Generations (params s1))) (setPairFunc_OK s1) 1 (s1, r0))
    as (e & st & Hsim & _); [done | by simpl; rewrite Hgb | by simpl; rewrite Hgb |].
  exists e, st. unfold run. rewrite Hnew. unfold Simulate.
  rewrite (bind_Some _ _ (s0, r0) (s1, r0) tt) by (unfold onSim; simpl; by rewrite Hset).
  by rewrite (bind_Some _ _ (s1, r0) (s1, r0) (s1, r0)).
Qed.

(** ** The generation index of a run *)

(** C4, as the code has it: every run returns, and whatever it returns,
    the generation index has one entry more than the number of completed
    generation steps, its entries never decrease, and the last one is the
    length of the arena.  (Two entries are equal when a step has bred no
    child.) *)
Theorem run_generation_index (p : Parameters) (r : Rng) :
  ∃ e s r',
    run p r = Some (e, (s, r'))
    ∧ len (genBdrys s) = completedSteps p e + 1
    ∧ Sorted Z.le (genBdrys s)
    ∧ last (genBdrys s) = Some (len (agents s)).
Proof.
  destruct (run_total p r) as (e & [s r'] & Hrun).
  exists e, s, r'. split; [exact Hrun |].
  exact (run_returned_index p r e s r' Hrun).
Qed.

(** * Further properties *)

(** ** The shuffle *)

Lemma swap_Permutation {A : Type} (l l' : list A) (x y : Z) :
  swap l x y = Some l' → l' ≡ₚ l.
Proof.
  unfold swap, set_at. intros H.
  destruct (at_ l x) as [a|] eqn:Hx; [| done].
  destruct (at_ l y) as [b|] eqn:Hy; [| done]. simpl in H.
  injection H as <-.
  apply at_Some in Hx as [_ Hx]. apply at_Some in Hy as [_ Hy].
  by apply Permutation_insert_swap.
Qed.

Lemma shuffleFrom_Permutation {A : Type} (i : nat) :
  ∀ (l : list A) (r : Rng),
    (i < length l ∨ i = 0)%nat →
    ∃ l', shuffleFrom i l r = Some (l', mkRng (stream r) (pos r + i))
          ∧ l' ≡ₚ l.
Proof.
  induction i as [|i IH]; intros l r Hi.
  - exists l. simpl. unfold ret. split; [| done].
    destruct r as [s p]. simpl. by rewrite Nat.add_0_r.
  - destruct Hi as [Hi | Hi]; [| lia].
    cbn [shuffleFrom].
    assert (Intn (Z.of_nat (S i) + 1) r
            = Some (stream r (pos r) `mod` (Z.of_nat (S i) + 1),
                    mkRng (stream r) (S (pos r)))) as HI.
    { unfold Intn. rewrite bool_decide_eq_false_2 by lia. done. }
    rewrite (bind_Some _ _ _ _ _ HI).
    set (j := stream r (pos r) `mod` (Z.of_nat (S i) + 1)).
    assert (0 ≤ j < Z.of_nat (S i) + 1) as Hj by (apply Z.mod_pos_bound; lia).
    destruct (at_lt l (Z.of_nat (S i))) as [a Ha]; [unfold len; lia |].
    destruct (at_lt l j) as [b Hb]; [unfold len; lia |].
    assert (swap l (Z.of_nat (S i)) j
            = Some (set_at (set_at l (Z.of_nat (S i)) b) j a)) as Hs.
    { unfold swap. rewrite Ha, Hb. done. }
    erewrite bind_Some by (unfold lift; rewrite Hs; reflexivity).
    pose proof (swap_Permutation _ _ _ _ Hs) as HP.
    destruct (IH (set_at (set_at l (Z.of_nat (S i)) b) j a)
                 (mkRng (stream r) (S (pos r)))) as (l' & Hl' & HP').
    { left. apply Permutation_length in HP. lia. }
    exists l'. split.
    + rewrite Hl'. simpl. do 3 f_equal. lia.
    + by rewrite HP'.
Qed.

Lemma shuffleCurrGen_perm (st : St) :
  ∃ cg,
    shuffleCurrGen st
    = Some (tt, (with_currGen st.1 cg,
                 mkRng (stream st.2) (pos st.2 + (length (currGen st.1) - 1))))
    ∧ cg ≡ₚ currGen st.1.
Proof.
  destruct (shuffleFrom_Permutation (length (currGen st.1) - 1) (currGen st.1) st.2)
    as (cg & Hcg & HP); [lia |].
  exists cg. split; [| done].
  unfold shuffleCurrGen.
  rewrite (bind_Some _ _ st st st) by done.
  erewrite bind_Some by (unfold onRng, Shuffle; rewrite Hcg; reflexivity).
  reflexivity.
Qed.
(** X1 (shuffle): the shuffle of [Simulate] always returns; it leaves a
    permutation of the current generation, changes nothing else in the
    simulation, and reads [len(currGen) - 1] values of the random source
    (none when the current generation is empty). *)
Theorem shuffleCurrGen_Permutation (st : St) :
  ∃ cg,
    shuffleCurrGen st
    = Some (tt, (with_currGen st.1 cg,
                 mkRng (stream st.2) (pos st.2 + (length (currGen st.1) - 1))))
    ∧ cg ≡ₚ currGen st.1.
Proof. apply shuffleCurrGen_perm. Qed.

(** ** Counting common elements, on any input *)

Lemma countCommonLoop_bounds (vecA vecB : list Z) (fuel : nat) :
  ∀ (i j : nat) (total : Z),
    (length vecA - i + (length vecB - j) < fuel)%nat →
    ∃ t, countCommonLoop fuel vecA vecB i j total = Some t
         ∧ total ≤ t
           ≤ total + Z.of_nat (Nat.min (length vecA - i) (length vecB - j)).
Proof.
  induction fuel as [|fuel IH]; intros i j total Hfuel; [lia |].
  cbn [countCommonLoop].
  destruct (vecA !! i) as [x|] eqn:Hx; [| exists total; split; [done | lia]].
  destruct (vecB !! j) as [y|] eqn:Hy; [| exists total; split; [done | lia]].
  apply lookup_lt_Some in Hx. apply lookup_lt_Some in Hy.
  repeat case_bool_decide.
  - destruct (IH (S i) j total) as (t & -> & Ht); [lia |].
    exists t. split; [done | lia].
  - destruct (IH i (S j) total) as (t & -> & Ht); [lia |].
    exists t. split; [done | lia].
  - destruct (IH (S i) (S j) (total + 1)) as (t & -> & Ht); [lia |].
    exists t. split; [done | lia].
Qed.

(** X2 (count, any input): on every pair of sequences, ordered or not, the
    count returns: its loop ends within [len(vecA) + len(vecB)] turns and
    reads no index out of range.  The count lies between 0 and the length
    of the shorter sequence; it is 0 when one of them is empty. *)
Theorem CountCommonElementsSortedArray_bounds (vecA vecB : list Z) :
  (∃ t, CountCommonElementsSortedArray vecA vecB = Some t
        ∧ 0 ≤ t ≤ Z.min (len vecA) (len vecB))
  ∧ CountCommonElementsSortedArray [] vecB = Some 0
  ∧ CountCommonElementsSortedArray vecA [] = Some 0.
Proof.
  split; [| split].
  - destruct (countCommonLoop_bounds vecA vecB (S (length vecA + length vecB)) 0 0 0)
      as (t & Ht & Hb); [lia |].
    exists t. split; [done |]. unfold len. lia.
  - done.
  - unfold CountCommonElementsSortedArray. simpl. by destruct (vecA !! 0%nat).
Qed.

(** ** The most common entry of a table *)

Lemma mostCommon_loop {K : Type} (l : list (K * Z)) :
  ∀ acc : K * Z,
    let r := foldl (λ acc kv, if bool_decide (kv.2 > acc.2) then kv else acc) acc l in
    acc.2 ≤ r.2 ∧ Forall (λ kv, kv.2 ≤ r.2) l
    ∧ (r = acc ∨ r ∈ l ∧ acc.2 < r.2).
Proof.
  induction l as [|kv l IH]; intros acc; simpl.
  - split; [lia |]. split; [constructor | by left].
  - destruct (IH (if bool_decide (kv.2 > acc.2) then kv else acc))
      as (H1 & H2 & H3).
    case_bool_decide.
    + split; [lia |]. split; [constructor; [lia | done] |].
      right. destruct H3 as [-> | [H3 H4]].
      * split; [left | lia].
      * split; [by right | lia].
    + split; [lia |]. split; [constructor; [lia | done] |].
      destruct H3 as [-> | [H3 H4]]; [by left |].
      right. split; [by right | lia].
Qed.

(** X3 (most common): whatever the order in which the entries of the table
    are visited, the count that the selection loop of [analyzeGenes]
    yields is the same, it is the largest count of the table (0 when no
    count is positive, and then the key is the initial one), and the key
    it yields has that count. *)
Theorem mostCommon_max `{Countable K} (m : gmap K Z) (k0 : K) (l : list (K * Z))
    (Horder : l ≡ₚ map_to_list m) :
  (mostCommonIn l k0).2 = (mostCommon m k0).2
  ∧ (∀ k v, m !! k = Some v → v ≤ (mostCommonIn l k0).2)
  ∧ (mostCommonIn l k0 = (k0, 0)
     ∨ 0 < (mostCommonIn l k0).2
       ∧ m !! (mostCommonIn l k0).1 = Some (mostCommonIn l k0).2).
Proof.
  assert (∀ l', l' ≡ₚ map_to_list m →
            0 ≤ (mostCommonIn l' k0).2
            ∧ (∀ k v, m !! k = Some v → v ≤ (mostCommonIn l' k0).2)
            ∧ (mostCommonIn l' k0 = (k0, 0)
               ∨ 0 < (mostCommonIn l' k0).2
                 ∧ m !! (mostCommonIn l' k0).1 = Some (mostCommonIn l' k0).2))
    as Hany.
  { intros l' Hl'. unfold mostCommonIn.
    destruct (mostCommon_loop l' (k0, 0)) as (H1 & H2 & H3). simpl in H1.
    split; [done |]. split.
    - intros k v Hkv. apply elem_of_map_to_list in Hkv. rewrite <- Hl' in Hkv.
      rewrite Forall_forall in H2. by apply (H2 (k, v)).
    - destruct H3 as [H3 | [H3 H4]]; [by left |]. right. split; [done |].
      apply elem_of_map_to_list.
      eapply elem_of_Permutation_proper; [symmetry; exact Hl' |].
      by destruct (foldl _ _ l'). }
  destruct (Hany l Horder) as (H0 & Hle & Hat).
  destruct (Hany (map_to_list m) (reflexivity _)) as (H0' & Hle' & Hat').
  change (mostCommonIn (map_to_list m) k0) with (mostCommon m k0) in *.
  split; [| done].
  destruct Hat as [Hat | [Hpos Hat]], Hat' as [Hat' | [Hpos' Hat']].
  - by rewrite Hat, Hat'.
  - pose proof (Hle _ _ Hat'). rewrite Hat in *. simpl in *. lia.
  - pose proof (Hle' _ _ Hat). rewrite Hat' in *. simpl in *. lia.
  - pose proof (Hle _ _ Hat'). pose proof (Hle' _ _ Hat). lia.
Qed.

Lemma mostCommon_max_witness :
  (mostCommonIn [(2, 3); (1, 2); (5, 3)] 0).2
  = (mostCommon ({[1 := 2; 2 := 3; 5 := 3]} : gmap Z Z) 0).2
  ∧ (∀ k v, ({[1 := 2; 2 := 3; 5 := 3]} : gmap Z Z) !! k = Some v →
            v ≤ (mostCommonIn [(2, 3); (1, 2); (5, 3)] 0).2)
  ∧ (mostCommonIn [(2, 3); (1, 2); (5, 3)] 0 = (0, 0)
     ∨ 0 < (mostCommonIn [(2, 3); (1, 2); (5, 3)] 0).2
       ∧ ({[1 := 2; 2 := 3; 5 := 3]} : gmap Z Z)
           !! (mostCommonIn [(2, 3); (1, 2); (5, 3)] 0).1
         = Some (mostCommonIn [(2, 3); (1, 2); (5, 3)] 0).2).
Proof.
  apply (mostCommon_max ({[1 := 2; 2 := 3; 5 := 3]} : gmap Z Z) 0
                        [(2, 3); (1, 2); (5, 3)]).
  apply (bool_decide_unpack _). vm_compute. exact I.
Defined.

(** ** The founder of a gene *)

Lemma list_ascii_of_string_app (s1 s2 : string) :
  String.list_ascii_of_string (s1 +:+ s2)
  = String.list_ascii_of_string s1 ++ String.list_ascii_of_string s2.
Proof. induction s1 as [|c s1 IH]; simpl; [done | by rewrite IH]. Qed.

Lemma digitsValue_app (l1 l2 : list Ascii.ascii) (acc : Z) :
  digitsValue (l1 ++ l2) acc = digitsValue l1 acc ≫= digitsValue l2.
Proof.
  revert acc. induction l1 as [|c l1 IH]; intros acc; simpl; [done |].
  destruct (digitOf c); simpl; [apply IH | done].
Qed.

Lemma digitOf_pretty_N_char (d : N) :
  (d < 10)%N →
  digitOf (pretty_N_char d) = Some (Z.of_N d)
  ∧ pretty_N_char d ≠ "-"%char ∧ pretty_N_char d ≠ "+"%char.
Proof.
  intros Hd.
  assert (d = 0 ∨ d = 1 ∨ d = 2 ∨ d = 3 ∨ d = 4 ∨ d = 5 ∨ d = 6 ∨ d = 7
          ∨ d = 8 ∨ d = 9)%N as Hcases by lia.
  repeat (destruct Hcases as [-> | Hcases]; [by vm_compute |]).
  subst. by vm_compute.
Qed.

(** The decimal digits that [pretty] prints for a natural number. *)
Lemma pretty_N_go_digits (x : N) :
  ∀ s : string,
    ∃ ds, String.list_ascii_of_string (pretty_N_go x s)
          = ds ++ String.list_ascii_of_string s
          ∧ digitsValue ds 0 = Some (Z.of_N x)
          ∧ Forall (λ c, c ≠ "-"%char ∧ c ≠ "+"%char) ds
          ∧ ((0 < x)%N → ds ≠ []).
Proof.
  induction (N.lt_wf_0 x) as [x _ IH]; intros s.
  destruct (decide (x = 0%N)) as [-> | Hx].
  - exists []. rewrite pretty_N_go_0. repeat split; [constructor | lia].
  - rewrite pretty_N_go_step by lia.
    destruct (IH (x `div` 10)%N) with (s := String (pretty_N_char (x `mod` 10)) s)
      as (ds & Hds & Hval & Hno & _).
    { apply N.div_lt; lia. }
    destruct (digitOf_pretty_N_char (x `mod` 10)%N) as (Hd & Hd1 & Hd2).
    { apply N.mod_lt. lia. }
    exists (ds ++ [pretty_N_char (x `mod` 10)]). split; [| split; [| split]].
    + rewrite Hds. simpl. by rewrite <- app_assoc.
    + rewrite digitsValue_app, Hval. simpl. rewrite Hd. simpl. f_equal.
      rewrite (N.div_mod x 10) at 3 by lia. lia.
    + apply Forall_app. split; [done |]. by repeat constructor.
    + intros _. by destruct ds.
Qed.

Lemma pretty_Z_digits (i : Z) :
  0 ≤ i →
  ∃ ds, String.list_ascii_of_string (pretty i) = ds
        ∧ digitsValue ds 0 = Some i
        ∧ Forall (λ c, c ≠ "-"%char ∧ c ≠ "+"%char) ds
        ∧ ds ≠ [].
Proof.
  intros Hi. destruct i as [|p|p]; [| | lia].
  - exists ["0"%char]. repeat split; [by repeat constructor | done].
  - unfold pretty, pretty_Z, pretty, pretty_positive, pretty, pretty_N.
    rewrite decide_False by done.
    destruct (pretty_N_go_digits (N.pos p) "") as (ds & Hds & Hval & Hno & Hne).
    exists ds. simpl in Hds. rewrite app_nil_r in Hds.
    repeat split; [done | done | done | by apply Hne].
Qed.

Lemma firstComponent_dash (ds rest : list Ascii.ascii) :
  Forall (λ c, c ≠ "-"%char ∧ c ≠ "+"%char) ds →
  firstComponent (ds ++ "-"%char :: rest) = ds.
Proof.
  induction 1 as [|c ds [Hc _] _ IH]; simpl.
  - done.
  - rewrite bool_decide_eq_false_2 by done. by rewrite IH.
Qed.

Lemma mutated_chars (n : nat) (gene : string) :
  String.list_ascii_of_string (mutated n gene)
  = String.list_ascii_of_string gene ++ replicate n "`"%char.
Proof.
  induction n as [|n IH]; simpl; [by rewrite app_nil_r |].
  rewrite list_ascii_of_string_app, IH, <- app_assoc. f_equal.
  simpl. by rewrite <- replicate_cons_app.
Qed.

Lemma Atoi_digits (ds : list Ascii.ascii) (v : Z) :
  Forall (λ c, c ≠ "-"%char ∧ c ≠ "+"%char) ds → ds ≠ [] →
  digitsValue ds 0 = Some v → MinInt ≤ v ≤ MaxInt →
  Atoi ds = Some v.
Proof.
  intros Hno Hne Hval Hrange. unfold Atoi.
  destruct ds as [|c ds]; [done |].
  apply Forall_cons in Hno as [[Hc1 Hc2] _].
  rewrite !bool_decide_eq_false_2 by done.
  rewrite Hval. simpl. by rewrite bool_decide_eq_true_2.
Qed.

Lemma Atoi_mutated (i k : Z) (n : nat) :
  0 ≤ i ≤ MaxInt →
  Atoi (firstComponent (String.list_ascii_of_string (mutated n (founderGene i k))))
  = Some i.
Proof.
  intros Hid.
  destruct (pretty_Z_digits i) as (ds & Hds & Hval & Hno & Hne); [lia |].
  rewrite mutated_chars. unfold founderGene.
  rewrite !list_ascii_of_string_app, Hds. simpl.
  rewrite <- app_assoc. simpl. rewrite firstComponent_dash by done.
  apply Atoi_digits; try done. unfold MinInt, MaxInt in *. lia.
Qed.

(** X4 (founder of a gene): the id that [analyzeGenes] reads off a gene, the
    number before its first dash, is the id of the founder for which
    [NewSimulation] printed the gene, however many mutations have marked
    it since; the conversion does not fail for an id within the range of
    [int]. *)
Theorem Atoi_founderGene (i k : Z) (n : nat)
    (Hid : 0 ≤ i ≤ MaxInt) :
  Atoi (firstComponent (String.list_ascii_of_string (mutated n (founderGene i k))))
  = Some i.
Proof. by apply Atoi_mutated. Qed.

Lemma Atoi_founderGene_witness :
  Atoi (firstComponent (String.list_ascii_of_string (mutated 2 (founderGene 17 3))))
  = Some 17.
Proof. apply (Atoi_founderGene 17 3 2). by vm_compute. Defined.

(** ** Recomputing the generation index *)

Lemma genBdrysFrom_spec (ags : list Agent) :
  ∀ (i gen : Z) (bdrys : list Z),
    ∃ new, genBdrysFrom ags i gen bdrys = bdrys ++ new
           ∧ StronglySorted Z.lt new
           ∧ ∀ b, b ∈ new ↔
                  ∃ k a g, b = i + Z.of_nat k ∧ ags !! k = Some a
                           ∧ (gen :: (generation <$> ags)) !! k = Some g
                           ∧ generation a ≠ g.
Proof.
  induction ags as [|a ags IH]; intros i gen bdrys; simpl.
  - exists []. rewrite app_nil_r. split; [done |]. split; [constructor |].
    intros b. split; [by intros ?%elem_of_nil |]. by intros (k & a & g & _ & ? & _).
  - case_bool_decide as Hg.
    + destruct (IH (i + 1) (generation a) (bdrys ++ [i])) as (new & -> & Hs & Hin).
      exists (i :: new). rewrite <- app_assoc. split; [done |]. split.
      * constructor; [done |]. apply Forall_forall. intros b Hb.
        apply Hin in Hb as (k & _ & _ & -> & _). lia.
      * intros b. rewrite elem_of_cons, Hin. split.
        -- intros [-> | (k & a' & g & -> & Ha' & Hgk & Hne)].
           ++ exists 0%nat, a, gen. simpl. repeat split; [lia | done].
           ++ exists (S k), a', g. simpl. repeat split; [lia | done ..].
        -- intros ([|k] & a' & g & -> & Ha' & Hgk & Hne); simpl in *.
           ++ left. lia.
           ++ right. exists k, a', g. repeat split; [lia | done ..].
    + destruct (IH (i + 1) gen bdrys) as (new & -> & Hs & Hin).
      exists new. split; [done |]. split; [done |].
      intros b. rewrite Hin. 
      assert (gen = generation a) as Hga by (destruct (decide (gen = generation a)); [done | by destruct Hg]).
      split.
      * intros (k & a' & g & -> & Ha' & Hgk & Hne).
        exists (S k), a', g. simpl. rewrite <- Hga. repeat split; [lia | done ..].
      * intros ([|k] & a' & g & -> & Ha' & Hgk & Hne); simpl in *.
        -- congruence.
        -- exists k, a', g. rewrite Hga. repeat split; [lia | done ..].
Qed.

Lemma StronglySorted_snoc_lt (l : list Z) (x : Z) :
  StronglySorted Z.lt l → Forall (λ b, b < x) l → StronglySorted Z.lt (l ++ [x]).
Proof.
  induction 1 as [|b l Hs IH Hb]; intros Hlt; simpl.
  - repeat constructor.
  - apply Forall_cons in Hlt as [Hb1 Hlt]. constructor; [by apply IH |].
    apply Forall_app. split; [done |]. by repeat constructor.
Qed.

(** What [SetGenBdrys] computes. *)
Lemma SetGenBdrys_spec (s : Simulation) :
  ∃ bdrys,
    SetGenBdrys s = Some (tt, with_genBdrys s bdrys)
    ∧ StronglySorted Z.lt bdrys
    ∧ (agents s = [] → bdrys = [])
    ∧ (agents s ≠ [] → last bdrys = Some (len (agents s)))
    ∧ ∀ b, b ∈ bdrys ↔
           (agents s ≠ [] ∧ b = len (agents s))
           ∨ ∃ a a', at_ (agents s) (b - 1) = Some a ∧ at_ (agents s) b = Some a'
                     ∧ generation a ≠ generation a'.
Proof.
  unfold SetGenBdrys, bind, get, put.
  destruct (agents s) as [|first ags] eqn:Hags.
  - exists []. split; [done |]. split; [constructor |]. split; [done |].
    split; [done |]. intros b. split; [by intros ?%elem_of_nil |].
    intros [[? _] | (a & a' & Ha & _)]; [done |].
    unfold at_ in Ha. by case_bool_decide.
  - destruct (genBdrysFrom_spec (first :: ags) 0 (generation first) [])
      as (new & Hnew & Hs & Hin).
    rewrite Hnew. simpl app.
    assert (∀ b, b ∈ new ↔
                 ∃ a a', at_ (first :: ags) (b - 1) = Some a
                         ∧ at_ (first :: ags) b = Some a'
                         ∧ generation a ≠ generation a') as Hin'.
    { intros b. rewrite Hin. split.
      - intros ([|k] & a' & g & -> & Ha' & Hgk & Hne);
          [simpl in *; congruence |].
        change ((generation <$> (first :: ags)) !! k = Some g) in Hgk.
        rewrite list_lookup_fmap in Hgk.
        destruct ((first :: ags) !! k) as [a|] eqn:Ha; [| done].
        simpl in Hgk. injection Hgk as <-.
        exists a, a'. split; [| split; [| done]].
        + replace (0 + Z.of_nat (S k) - 1) with (Z.of_nat k) by lia.
          by rewrite at_of_nat.
        + replace (0 + Z.of_nat (S k)) with (Z.of_nat (S k)) by lia.
          by rewrite at_of_nat.
      - intros (a & a' & [H0 Ha]%at_Some & [H0' Ha']%at_Some & Hne).
        exists (Z.to_nat b), a', (generation a).
        split; [lia |]. split; [done |]. split; [| done].
        replace (Z.to_nat b) with (S (Z.to_nat (b - 1))) by lia.
        change ((generation <$> (first :: ags)) !! Z.to_nat (b - 1)
                = Some (generation a)).
        by rewrite list_lookup_fmap, Ha. }
    exists (new ++ [len (first :: ags)]). split; [done |]. split; [| split; [| split]].
    + apply StronglySorted_snoc_lt; [done |].
      apply Forall_forall. intros b Hb.
      apply Hin' in Hb as (a & a' & _ & Hb & _).
      by apply at_Some_lt in Hb as [_ Hb].
    + done.
    + intros _. by rewrite last_snoc.
    + intros b. rewrite elem_of_app, list_elem_of_singleton, Hin'. 
      split; intros [H1 | H1]; auto. right. by destruct H1.
Qed.

(** X5 (SetGenBdrys): recomputing the generation index always returns and
    touches nothing but the index.  For an empty arena the index is left
    empty.  Otherwise the index is strictly increasing, ends with the
    length of the arena, and its other entries are exactly the positions
    at which the generation of an agent differs from the generation of
    the agent before. *)
Theorem SetGenBdrys_boundaries (s : Simulation) :
  ∃ bdrys,
    SetGenBdrys s = Some (tt, with_genBdrys s bdrys)
    ∧ StronglySorted Z.lt bdrys
    ∧ (agents s = [] → bdrys = [])
    ∧ (agents s ≠ [] → last bdrys = Some (len (agents s)))
    ∧ ∀ b, b ∈ bdrys ↔
           (agents s ≠ [] ∧ b = len (agents s))
           ∨ ∃ a a', at_ (agents s) (b - 1) = Some a ∧ at_ (agents s) b = Some a'
                     ∧ generation a ≠ generation a'.
Proof. apply SetGenBdrys_spec. Qed.

(** ** Selecting the current generation *)

Lemma StronglySorted_lookup {A : Type} (R : relation A) (l : list A) :
  StronglySorted R l →
  ∀ (i j : nat) (x y : A), l !! i = Some x → l !! j = Some y → (i < j)%nat → R x y.
Proof.
  induction 1 as [|z l Hs IH Hz]; intros i j x y Hx Hy Hij; [done |].
  destruct j as [|j]; [lia |]. simpl in Hy.
  destruct i as [|i]; simpl in Hx.
  - injection Hx as ->. rewrite Forall_forall in Hz.
    apply Hz. by eapply list_elem_of_lookup_2.
  - apply (IH i j); [done | done | lia].
Qed.

Lemma Sorted_at_le (l : list Z) (i j x y : Z) :
  Sorted Z.le l → at_ l i = Some x → at_ l j = Some y → i ≤ j → x ≤ y.
Proof.
  intros Hs [Hi Hx]%at_Some [Hj Hy]%at_Some Hij.
  apply Sorted_StronglySorted in Hs; [| intros ???; lia].
  destruct (decide (i = j)) as [-> | Hne]; [by simplify_eq |].
  apply (StronglySorted_lookup Z.le l Hs (Z.to_nat i) (Z.to_nat j)); [done | done | lia].
Qed.

Lemma slice_ids (ags : list Agent) (lo hi : Z) :
  (∀ i a, at_ ags i = Some a → id a = i) →
  0 ≤ lo → lo ≤ hi → hi ≤ len ags →
  slice ags lo hi
  = Some (take (Z.to_nat hi - Z.to_nat lo) (drop (Z.to_nat lo) ags))
  ∧ id <$> take (Z.to_nat hi - Z.to_nat lo) (drop (Z.to_nat lo) ags)
    = seqZ lo (hi - lo).
Proof.
  intros Hids Hlo Hlh Hhi. split.
  - unfold slice. by rewrite bool_decide_eq_true_2.
  - apply list_eq. intros k. rewrite list_lookup_fmap.
    destruct (decide (k < Z.to_nat hi - Z.to_nat lo)%nat) as [Hk | Hk].
    + rewrite lookup_take_lt, lookup_drop by done.
      rewrite lookup_seqZ_lt by lia.
      destruct (at_lt ags (lo + Z.of_nat k)) as [a Ha]; [unfold len in *; lia |].
      pose proof (Hids _ _ Ha) as Hid. apply at_Some in Ha as [_ Ha].
      replace (Z.to_nat (lo + Z.of_nat k)) with (Z.to_nat lo + k)%nat in Ha by lia.
      rewrite Ha. simpl. by rewrite Hid.
    + rewrite lookup_take_ge by lia. rewrite lookup_seqZ_ge by lia. done.
Qed.

(** X6 (setCurrGen): on a simulation in which the id of every agent is its
    index and whose generation index is non-decreasing with entries
    between 0 and the length of the arena, selecting a generation
    [gen >= 0] returns and changes the current generation only: it becomes
    the ids from the boundary before [gen] (0 for generation 0) up to the
    boundary of [gen], in order and all unmated, and it is left empty when
    [gen] is beyond the index.  A negative [gen] panics. *)
Theorem setCurrGen_selects (s : Simulation) (gen : Z)
    (Hids : ∀ i a, at_ (agents s) i = Some a → id a = i)
    (Hsorted : Sorted Z.le (genBdrys s))
    (Hrange : Forall (λ b, 0 ≤ b ≤ len (agents s)) (genBdrys s)) :
  (gen < 0 → setCurrGen gen s = None)
  ∧ (0 ≤ gen →
     ∃ lo hi,
       setCurrGen gen s
       = Some (tt, with_currGen s ((λ j, mkSelected j false) <$> seqZ lo (hi - lo)))
       ∧ (len (genBdrys s) ≤ gen → lo = hi)
       ∧ (gen < len (genBdrys s) →
          at_ (genBdrys s) gen = Some hi
          ∧ (gen = 0 ∧ lo = 0 ∨ at_ (genBdrys s) (gen - 1) = Some lo))).
Proof.
  split.
  - intros Hneg. unfold setCurrGen.
    rewrite bool_decide_eq_false_2 by (unfold len; lia).
    rewrite bool_decide_eq_false_2 by lia.
    unfold at_. rewrite !bool_decide_eq_true_2 by lia. done.
  - intros Hgen. unfold setCurrGen. case_bool_decide as Hbeyond.
    + exists 0, 0. split; [done |]. split; [done | lia].
    + destruct (at_lt (genBdrys s) gen) as [hi Hhi]; [lia |].
      assert (∃ lo, (if bool_decide (gen = 0) then Some 0
                     else at_ (genBdrys s) (gen - 1)) = Some lo
                    ∧ 0 ≤ lo ≤ hi
                    ∧ (gen = 0 ∧ lo = 0 ∨ at_ (genBdrys s) (gen - 1) = Some lo))
        as (lo & Hlo & Hlohi & Hwhich).
      { rewrite Forall_forall in Hrange. case_bool_decide as Hz.
        - exists 0. split; [done |]. split; [| by left].
          apply at_Some in Hhi as [_ Hhi%list_elem_of_lookup_2].
          apply Hrange in Hhi. lia.
        - destruct (at_lt (genBdrys s) (gen - 1)) as [lo Hlo]; [lia |].
          exists lo. split; [done |]. split; [| by right]. split.
          + apply at_Some in Hlo as [_ Hlo%list_elem_of_lookup_2].
            apply Hrange in Hlo. lia.
          + eapply Sorted_at_le; [exact Hsorted | exact Hlo | exact Hhi | lia]. }
      assert (hi ≤ len (agents s)) as Hhil.
      { rewrite Forall_forall in Hrange.
        apply at_Some in Hhi as [_ Hin%list_elem_of_lookup_2].
        apply Hrange in Hin. lia. }
      destruct (slice_ids (agents s) lo hi Hids) as [Hsl Hidl]; [lia ..|].
      exists lo, hi. rewrite Hlo, Hhi. simpl. rewrite Hsl. simpl.
      split; [| split; [lia | done]].
      do 3 f_equal. rewrite <- Hidl, <- list_fmap_compose. done.
Qed.

Lemma setCurrGen_selects_witness :
  (3 < 0 → setCurrGen 3 (testSim NewParameters) = None)
  ∧ (0 ≤ 3 →
     ∃ lo hi,
       setCurrGen 3 (testSim NewParameters)
       = Some (tt, with_currGen (testSim NewParameters)
                     ((λ j, mkSelected j false) <$> seqZ lo (hi - lo)))
       ∧ (len (genBdrys (testSim NewParameters)) ≤ 3 → lo = hi)
       ∧ (3 < len (genBdrys (testSim NewParameters)) →
          at_ (genBdrys (testSim NewParameters)) 3 = Some hi
          ∧ (3 = 0 ∧ lo = 0
             ∨ at_ (genBdrys (testSim NewParameters)) (3 - 1) = Some lo))).
Proof.
  apply (setCurrGen_selects (testSim NewParameters) 3).
  - intros i a Ha. simpl in Ha. at_cases Ha; simpl; lia.
  - simpl. repeat constructor; lia.
  - simpl. repeat constructor; unfold len; simpl; lia.
Defined.

(** ** Births *)

Lemma wlp_mapM {St E A : Type} (f : E → M St A) (R : E → A → Prop) (l : list E) :
  (∀ x st1, x ∈ l → wlp (f x) st1 (λ y _, R x y)) →
  ∀ st, wlp (mapM f l) st (λ ys _, Forall2 R l ys).
Proof.
  induction l as [|x l IH]; intros Hf st; simpl.
  - by apply wlp_ret.
  - apply wlp_bind. eapply wlp_mono; [apply Hf; by left |].
    intros y st1 Hy. apply wlp_bind. eapply wlp_mono.
    { apply IH. intros x' st2 Hx'. apply Hf. by right. }
    intros ys st2 Hys. apply wlp_ret. by constructor.
Qed.

Lemma wlp_any {St A : Type} (m : M St A) (st : St) : wlp m st (λ _ _, True).
Proof. by intros ???. Qed.

Lemma childGene_inherited (ags : list Agent) (f m : Z) (rate : Q) (i : Z) (r : Rng) :
  wlp (childGene ags f m rate i) r
      (λ g _, 0 ≤ i ∧ (inherited ags rate f (Z.to_nat i) g
                       ∨ inherited ags rate m (Z.to_nat i) g)).
Proof.
  unfold childGene. apply wlp_bind. eapply wlp_mono; [apply wlp_any |].
  intros x r1 _. apply wlp_bind, wlp_lift. intros g0 Hg0.
  destruct (at_ ags (if Qltb x (1 # 2) then f else m)) as [pa|] eqn:Hpa; [| done].
  simpl in Hg0. apply at_Some in Hg0 as [Hi Hg0].
  assert (∀ g, g = g0 ∨ Qltb 0 rate = true ∧ g = g0 +:+ "`" →
               0 ≤ i ∧ (inherited ags rate f (Z.to_nat i) g
                        ∨ inherited ags rate m (Z.to_nat i) g)) as Hin.
  { intros g Hg. split; [done |].
    destruct (Qltb x (1 # 2)); [left | right]; by exists pa, g0. }
  destruct (Qltb 0 rate) eqn:Hrate.
  - apply wlp_bind. eapply wlp_mono; [apply wlp_any |]. intros y r2 _.
    apply wlp_ret. apply Hin. destruct (Qltb y rate); [by right | by left].
  - apply wlp_ret. apply Hin. by left.
Qed.

Lemma addChildAt_Some (ags : list Agent) (i c : Z) (a : Agent) :
  at_ ags i = Some a → addChildAt ags i c = set_at ags i (addChild a c).
Proof. intros H. unfold addChildAt. by rewrite H. Qed.

Lemma newChild_born (ags : list Agent) (f m numGenes gen : Z) (rate : Q) (r : Rng) :
  wlp (newChild ags f m numGenes gen rate) r
      (λ ags' _, ∃ kid, ags' = bear ags kid
                        ∧ Newborn ags f m numGenes gen rate kid).
Proof.
  unfold newChild.
  apply wlp_bind. eapply wlp_mono; [apply wlp_any |]. intros sx r1 _.
  apply wlp_bind. eapply wlp_mono.
  { apply (wlp_mapM _ (λ i g, 0 ≤ i ∧ (inherited ags rate f (Z.to_nat i) g
                                        ∨ inherited ags rate m (Z.to_nat i) g))).
    intros i r2 _. apply childGene_inherited. }
  intros gs r2 Hgs.
  set (agent := {| id := len ags; generation := gen; sex := sx; mother := m;
                   father := f; children := []; ancestorVec := [];
                   ancestorSet := ∅; genes := gs |}).
  apply wlp_bind, wlp_lift. intros fa Hfa.
  apply wlp_bind, wlp_lift. intros mo Hmo. apply wlp_ret.
  exists agent. split.
  - unfold bear. simpl.
    rewrite (addChildAt_Some _ _ _ _ Hfa). by rewrite (addChildAt_Some _ _ _ _ Hmo).
  - split; try done.
    + apply Forall2_length in Hgs. rewrite length_seqZ in Hgs. done.
    + intros k g Hk. simpl in Hk.
      destruct (Forall2_lookup_r _ _ _ _ _ Hgs Hk) as (i & Hi & _ & Hinh).
      apply lookup_seqZ in Hi as [-> _].
      by replace (Z.to_nat (0 + Z.of_nat k)) with k in Hinh by lia.
Qed.
Lemma at_addChildAt (ags : list Agent) (i c j : Z) :
  at_ (addChildAt ags i c) j
  = (λ a, if bool_decide (i = j) then addChild a c else a) <$> at_ ags j.
Proof.
  unfold addChildAt. destruct (at_ ags i) as [a|] eqn:Ha.
  - pose proof (at_Some_lt _ _ _ Ha) as Hi.
    case_bool_decide as Hij.
    + subst j. rewrite at_set_at_eq by done. by rewrite Ha.
    + rewrite at_set_at_ne by lia. by destruct (at_ ags j).
  - case_bool_decide as Hij; [subst j; by rewrite Ha |].
    by destruct (at_ ags j).
Qed.

Lemma at_bear (ags : list Agent) (kid : Agent) (j : Z) :
  at_ (bear ags kid) j = withChildOf kid j <$> at_ (ags ++ [kid]) j.
Proof.
  unfold bear. rewrite !at_addChildAt. unfold withChildOf.
  destruct (at_ (ags ++ [kid]) j); simpl; [| done].
  by repeat case_bool_decide.
Qed.

Lemma length_addChildAt (ags : list Agent) (i c : Z) :
  length (addChildAt ags i c) = length ags.
Proof.
  unfold addChildAt. destruct (at_ ags i); [| done].
  unfold set_at. by rewrite length_insert.
Qed.

Lemma length_bear (ags : list Agent) (kid : Agent) :
  length (bear ags kid) = S (length ags).
Proof.
  unfold bear. rewrite !length_addChildAt, length_app. simpl. lia.
Qed.

Lemma at_app_l {A : Type} (l k : list A) (j : Z) (x : A) :
  at_ l j = Some x → at_ (l ++ k) j = Some x.
Proof.
  intros [Hj Hx]%at_Some. apply at_Some. split; [done |].
  by apply lookup_app_l_Some.
Qed.

Lemma at_bear_old (ags : list Agent) (kid : Agent) (j : Z) (a : Agent) :
  at_ ags j = Some a → at_ (bear ags kid) j = Some (withChildOf kid j a).
Proof. intros Ha. by rewrite at_bear, (at_app_l _ _ _ _ Ha). Qed.

Lemma at_bear_new (ags : list Agent) (kid : Agent) :
  at_ (bear ags kid) (len ags) = Some (withChildOf kid (len ags) kid).
Proof. by rewrite at_bear, at_snoc_new. Qed.

Lemma at_bear_inv (ags : list Agent) (kid : Agent) (j : Z) (a' : Agent) :
  at_ (bear ags kid) j = Some a' →
  (∃ a, at_ ags j = Some a ∧ a' = withChildOf kid j a)
  ∨ j = len ags ∧ a' = withChildOf kid j kid.
Proof.
  rewrite at_bear. intros Ha'.
  destruct (at_ (ags ++ [kid]) j) as [a|] eqn:Ha; [| done].
  injection Ha' as <-. apply at_Some in Ha as [Hj Ha].
  apply lookup_app_Some in Ha as [Ha | [Hlen Ha]].
  - left. exists a. split; [by apply at_Some | done].
  - right. destruct (Z.to_nat j - length ags)%nat eqn:E; [| done].
    injection Ha as <-. split; [unfold len; lia | done].
Qed.


(** X7 (newChild): in an arena whose agents have their genes, a birth from
    a father and a mother of the arena returns.  It appends one agent,
    the child: its id is its index, it has the given generation and
    parents, no child and no resolved ancestor, and [numGenes] genes, each
    of them the gene of its father or of its mother at the same position,
    marked with one more backtick when it has mutated.  The agents that
    were there keep their index and change in one respect only: the id of
    the child is entered in the list of children of the father and in
    that of the mother (twice in the same list when an agent is both). *)
Theorem newChild_bears (ags : list Agent) (f m numGenes gen : Z) (rate : Q) (r : Rng)
    (Harena : ArenaInv numGenes ags)
    (Hfather : 0 ≤ f < len ags) (Hmother : 0 ≤ m < len ags) :
  ∃ kid r',
    newChild ags f m numGenes gen rate r = Some (bear ags kid, r')
    ∧ Newborn ags f m numGenes gen rate kid
    ∧ len (bear ags kid) = len ags + 1
    ∧ at_ (bear ags kid) (len ags) = Some kid
    ∧ ∀ j a, at_ ags j = Some a →
             at_ (bear ags kid) j = Some (withChildOf kid j a).
Proof.
  destruct (newChild_wp ags f m numGenes gen rate r Harena Hfather Hmother)
    as (ags' & r' & Hret & _).
  destruct (newChild_born ags f m numGenes gen rate r _ _ Hret)
    as (kid & -> & Hkid).
  exists kid, r'. split; [done |]. split; [done |]. split; [| split].
  - unfold len. rewrite length_bear. lia.
  - rewrite at_bear_new. f_equal. unfold withChildOf.
    destruct Hkid as [Hid _ Hfa Hmo _ _ _ _ _].
    rewrite !bool_decide_eq_false_2 by lia. done.
  - intros j a. apply at_bear_old.
Qed.

Lemma newChild_bears_witness :
  ∃ kid r',
    newChild testArena 3 2 0 4 0 zeroRng = Some (bear testArena kid, r')
    ∧ Newborn testArena 3 2 0 4 0 kid
    ∧ len (bear testArena kid) = len testArena + 1
    ∧ at_ (bear testArena kid) (len testArena) = Some kid
    ∧ ∀ j a, at_ testArena j = Some a →
             at_ (bear testArena kid) j = Some (withChildOf kid j a).
Proof.
  apply (newChild_bears testArena 3 2 0 4 0 zeroRng).
  - intros i a [Hi Ha]%at_Some. split; [| simpl; lia].
    replace i with (Z.of_nat (Z.to_nat i)) by lia.
    destruct (Z.to_nat i) as [|n]; [by injection Ha as <- |].
    do 13 (destruct n as [|n]; [by injection Ha as <- |]).
    done.
  - vm_compute. split; [discriminate | reflexivity].
  - vm_compute. split; [discriminate | reflexivity].
Defined.

(** ** What the strategies breed *)

Lemma Births_impl (K K' : list Agent → Agent → Prop) (ags ags' : list Agent) (n : nat) :
  (∀ ags1 kid, K ags1 kid → K' ags1 kid) → Births K ags n ags' → Births K' ags n ags'.
Proof. intros HK. induction 1; econstructor; eauto. Qed.

Lemma Births_length (K : list Agent → Agent → Prop) (ags ags' : list Agent) (n : nat) :
  Births K ags n ags' → length ags' = (length ags + n)%nat.
Proof. induction 1 as [|n ags1 kid _ IH _]; [lia |]. rewrite length_bear. lia. Qed.

Lemma Births_zero (K : list Agent → Agent → Prop) (ags ags' : list Agent) :
  Births K ags 0 ags' → ags' = ags.
Proof. by inversion 1. Qed.

Lemma wlp_repeatM_count {St : Type} (I : nat → St → Prop) (body : M St unit) (n : nat) :
  (∀ k st1, I k st1 → wlp body st1 (λ _ st2, I (S k) st2)) →
  ∀ (k : nat) (st : St), I k st → wlp (repeatM n body) st (λ _ st', I (n + k)%nat st').
Proof.
  intros Hbody. induction n as [|n IH]; intros k st HI; simpl.
  - by apply wlp_ret.
  - apply wlp_bind. eapply wlp_mono; [by apply Hbody |].
    intros ? st1 H1. eapply wlp_mono; [apply (IH (S k)); exact H1 |].
    intros ? st2 H2. simpl in H2.
    by replace (S (n + k)) with (n + S k)%nat by lia.
Qed.

Lemma wlp_forEach_inv {St E : Type} (I : St → Prop) (body : E → M St unit)
    (l : list E) :
  (∀ e st1, e ∈ l → I st1 → wlp (body e) st1 (λ _ st2, I st2)) →
  ∀ st, I st → wlp (forEach l body) st (λ _ st', I st').
Proof.
  induction l as [|x l IH]; intros Hbody st HI; simpl.
  - by apply wlp_ret.
  - apply wlp_bind. eapply wlp_mono; [apply Hbody; [by left | done] |].
    intros ? st1 H1. apply IH; [| done].
    intros e st2 He. apply Hbody. by right.
Qed.

Lemma breed_born (f m gen : Z) (st : St) :
  wlp (breed f m gen) st
      (λ _ st', ∃ kid,
         st'.1 = with_agents st.1 (bear (agents st.1) kid)
         ∧ Newborn (agents st.1) f m (NumGenes (params st.1)) gen
                   (MutationRate (params st.1)) kid).
Proof.
  unfold breed. apply wlp_bind, wlp_get, wlp_bind, wlp_onRng.
  eapply wlp_mono; [apply newChild_born |].
  intros ags' r' (kid & -> & Hkid). apply wlp_onSim, wlp_put. simpl.
  by exists kid.
Qed.

Lemma randomMember_member (st : St) :
  wlp randomMember st (λ i st', st'.1 = st.1 ∧ i ∈ sel_id <$> currGen st.1).
Proof.
  unfold randomMember. apply wlp_bind, wlp_get, wlp_bind, wlp_onRng.
  intros x r' _. apply wlp_bind, wlp_lift. intros c Hc. apply wlp_ret.
  simpl in *. split; [done |]. apply at_Some in Hc as [_ Hc].
  apply list_elem_of_fmap. exists c. split; [done |].
  by eapply list_elem_of_lookup_2.
Qed.

Lemma Breeding_start (K : list Agent → Agent → Prop) (st : St) : Breeding K st 0 st.
Proof. split; [by destruct st as [[] ?] | apply Births_none]. Qed.

Lemma Breeding_step (st0 : St) (gen : Z) (P : list Agent → Z → Z → Prop)
    (k : nat) (st : St) (f m : Z) :
  Breeding (Offspring st0.1 gen P) st0 k st →
  f ∈ sel_id <$> currGen st0.1 → m ∈ sel_id <$> currGen st0.1 →
  P (agents st.1) f m →
  wlp (breed f m gen) st (λ _ st', Breeding (Offspring st0.1 gen P) st0 (S k) st').
Proof.
  intros [Hs HB] Hf Hm HP. eapply wlp_mono; [apply breed_born |].
  intros ? st' (kid & Hs' & Hkid). simpl. split.
  - rewrite Hs', Hs. done.
  - rewrite Hs'. simpl. constructor; [done |].
    pose proof (newborn_father _ _ _ _ _ _ _ Hkid) as Hfa.
    pose proof (newborn_mother _ _ _ _ _ _ _ Hkid) as Hmo.
    rewrite Hs in Hkid. simpl in Hkid. 
    unfold Offspring. rewrite Hfa, Hmo. done.
Qed.

(** The unconstrained strategy: [iterations] births from members of the
    current generation, and no error. *)
Lemma anyMating_births (gen : Z) (st : St) :
  wlp (anyMating gen) st
      (λ e st', e = None
                ∧ Breeding (Offspring st.1 gen anyPair) st
                           (Z.to_nat (iterations st.1)) st').
Proof.
  unfold anyMating. apply wlp_bind, wlp_get, wlp_bind.
  eapply wlp_mono.
  - apply (wlp_repeatM_count (Breeding (Offspring st.1 gen anyPair) st))
      with (k := 0%nat); [| apply Breeding_start].
    intros k st1 HB. apply wlp_bind.
    eapply wlp_mono; [apply randomMember_member |]. intros i st2 [H2 Hi].
    apply wlp_bind.
    eapply wlp_mono; [apply randomMember_member |]. intros j st3 [H3 Hj].
    simpl in H2, H3. destruct HB as [Hs1 HB1].
    assert (currGen st1.1 = currGen st.1) as Hcg by (by rewrite Hs1).
    rewrite Hcg in Hi. rewrite H2, Hcg in Hj.
    apply Breeding_step; [| done | done | done].
    split; by rewrite H3, H2.
  - intros ? st' HB. apply wlp_ret. rewrite Nat.add_0_r in HB. done.
Qed.
Lemma wlp_conj {St A : Type} (m : M St A) (st : St) (Q1 Q2 : A → St → Prop) :
  wlp m st Q1 → wlp m st Q2 → wlp m st (λ a st', Q1 a st' ∧ Q2 a st').
Proof. intros H1 H2 a st' H. split; [by apply H1 | by apply H2]. Qed.

Lemma partnerSearch_found (n : nat) (matingK i : Z) :
  ∀ (j : Z) (compat : bool) (k : Z) (st : St),
    (compat = true →
     j ∈ sel_id <$> currGen st.1 ∧ compatiblePair st.1 (agents st.1) i j) →
    wlp (partnerSearch n matingK i j compat k) st
        (λ res st', st'.1 = st.1
                    ∧ (res.1.2 = true →
                       res.1.1 ∈ sel_id <$> currGen st.1
                       ∧ compatiblePair st.1 (agents st.1) i res.1.1)).
Proof.
  induction n as [|n IH]; intros j compat k st Hc; simpl.
  - by apply wlp_ret.
  - destruct compat; simpl; [by apply wlp_ret |].
    case_bool_decide; [| by apply wlp_ret].
    apply wlp_bind. eapply wlp_mono; [apply randomMember_member |].
    intros j' st1 [H1 Hj']. simpl in H1.
    apply wlp_bind, wlp_get, wlp_bind, wlp_lift. intros a Ha.
    apply wlp_bind, wlp_lift. intros b Hb.
    apply wlp_bind, wlp_lift. intros c Hcompat.
    eapply wlp_mono.
    { apply IH. intros ->. rewrite H1. split; [done |].
      exists a, b. rewrite H1 in Ha, Hb, Hcompat. 
      split; [done |]. split; [done |]. by destruct (st.1). }
    intros res st2 [H2 Hres]. simpl in *. rewrite H1 in H2, Hres. done.
Qed.

(** The constrained strategy: at most [iterations] births, each from a
    member of the current generation and a member found compatible with
    it, and no error. *)
Lemma nonMonogamousMating_births (gen : Z) (st : St) :
  wlp (nonMonogamousMating gen) st
      (λ e st', e = None
                ∧ ∃ n, (n ≤ Z.to_nat (iterations st.1))%nat
                       ∧ Breeding (Offspring st.1 gen (compatiblePair st.1)) st n st').
Proof.
  unfold nonMonogamousMating. apply wlp_bind, wlp_get, wlp_bind.
  eapply wlp_mono.
  - apply (wlp_repeatM_count
             (λ k st', ∃ n, (n ≤ k)%nat
                            ∧ Breeding (Offspring st.1 gen (compatiblePair st.1)) st n st'))
      with (k := 0%nat); [| exists 0%nat; split; [lia | apply Breeding_start]].
    intros k st1 (n & Hn & HB). apply wlp_bind.
    eapply wlp_mono; [apply randomMember_member |]. intros i st2 [H2 Hi].
    simpl in H2. apply wlp_bind, wlp_get, wlp_bind. simpl.
    eapply wlp_mono.
    { apply wlp_conj.
      - apply (partnerSearch_found _ _ i 0 false 0). done.
      - apply (partnerSearch_exit _ _ i 0 false 0). lia. }
    intros [[j compat] k'] st3 [[H3 Hfound] [_ Hexit]]. simpl in H3, Hfound, Hexit.
    destruct HB as [Hs1 HB1].
    assert (currGen st1.1 = currGen st.1) as Hcg by (by rewrite Hs1).
    case_bool_decide as Hk.
    + apply wlp_ret. exists n. split; [lia |]. split; rewrite H3, H2; done.
    + destruct Hexit as [-> | Hexit]; [| lia].
      destruct Hfound as [Hj Hcompat]; [done |].
      eapply wlp_mono.
      { apply (Breeding_step st gen (compatiblePair st.1) n).
        - split; rewrite H3, H2; done.
        - by rewrite <- Hcg.
        - by rewrite <- Hcg, <- H2.
        - rewrite H3. destruct Hcompat as (a & b & Ha & Hb & Hc).
          exists a, b. split; [done |]. split; [done |].
          rewrite <- Hc. f_equal. rewrite H2, Hs1. done. }
      intros ? st4 HB4. exists (S n). split; [lia | done].
  - intros ? st' HB. apply wlp_ret. rewrite Nat.add_0_r in HB. done.
Qed.
Lemma markMated_ids (cg cg' : list selectedAgent) (i : Z) :
  markMated cg i = Some cg' → sel_id <$> cg' = sel_id <$> cg.
Proof.
  unfold markMated. destruct (at_ cg i) as [c|] eqn:Hc; [| done].
  simpl. intros [= <-]. unfold set_at. rewrite list_fmap_insert. simpl.
  apply list_insert_id. apply at_Some in Hc as [_ Hc].
  by rewrite list_lookup_fmap, Hc.
Qed.

Lemma at_member (cg : list selectedAgent) (i : Z) (c : selectedAgent) :
  at_ cg i = Some c → sel_id c ∈ sel_id <$> cg.
Proof.
  intros [_ Hc]%at_Some. apply list_elem_of_fmap. exists c.
  split; [done | by eapply list_elem_of_lookup_2].
Qed.

Lemma pairScan_members (s0 : Simulation) (n : nat) (agentA : Agent) (i hi : Z) :
  IdsOK (agents s0) →
  id agentA ∈ sel_id <$> currGen s0 →
  ∀ (j : Z) (s : Simulation),
    PairingMembers s0 s →
    wlp (pairScan n agentA i j hi) s (λ _ s', PairingMembers s0 s').
Proof.
  intros Hids HA. induction n as [|n IH]; intros j s HP; simpl.
  - by apply wlp_ret.
  - case_bool_decide; [| by apply wlp_ret].
    apply wlp_bind, wlp_get, wlp_bind, wlp_lift. intros cj Hcj.
    destruct (mated cj); [by apply IH |].
    apply wlp_bind, wlp_lift. intros agentB HB.
    apply wlp_bind, wlp_lift. intros ok _.
    destruct ok; [| by apply IH].
    apply wlp_bind, wlp_lift. intros cg1 Hcg1.
    apply wlp_bind, wlp_lift. intros cg2 Hcg2.
    apply wlp_put. destruct HP as (HK & Hsel & Hpairs).
    split; [| split].
    + exact HK.
    + simpl. rewrite (markMated_ids _ _ _ Hcg2), (markMated_ids _ _ _ Hcg1). done.
    + simpl. apply Forall_app. split; [done |]. constructor; [| done].
      assert (id agentB ∈ sel_id <$> currGen s0) as HB'.
      { destruct HK as (Hags & _). rewrite Hags in HB.
        rewrite (Hids _ _ HB), <- Hsel. by eapply at_member. }
      unfold makePair. by case_bool_decide.
Qed.

Lemma pairAgents_members (s : Simulation) :
  IdsOK (agents s) →
  wlp pairAgents s (λ _ s', PairingMembers s s').
Proof.
  intros Hids. unfold pairAgents. apply wlp_bind, wlp_get, wlp_bind, wlp_put.
  apply (wlp_forEach_inv (PairingMembers s)).
  - intros i s1 _ HP. unfold pairStep.
    apply wlp_bind, wlp_get, wlp_bind, wlp_lift. intros ci Hci.
    apply wlp_bind, wlp_lift. intros agentA HA.
    destruct (mated ci); [by apply wlp_ret |].
    apply pairScan_members; [done | | done].
    destruct HP as (HK & Hsel & _). destruct HK as (Hags & _).
    rewrite Hags in HA. rewrite (Hids _ _ HA), <- Hsel. by eapply at_member.
  - split; [| split]; [by repeat split | done | constructor].
Qed.

(** The monogamous strategy, once the pool is made: [iterations] births,
    each from a pair of the pool. *)
Lemma makeChildrenMonogamous_births (gen : Z) (st : St) :
  Forall (λ pr, male pr ∈ sel_id <$> currGen st.1
                ∧ female pr ∈ sel_id <$> currGen st.1) (matingPairs st.1) →
  wlp (makeChildrenMonogamous gen) st
      (λ _ st', Breeding (Offspring st.1 gen (pooledPair (matingPairs st.1))) st
                         (Z.to_nat (iterations st.1)) st').
Proof.
  intros Hpool. unfold makeChildrenMonogamous. apply wlp_bind, wlp_get.
  eapply wlp_mono.
  - apply (wlp_repeatM_count
             (Breeding (Offspring st.1 gen (pooledPair (matingPairs st.1))) st))
      with (k := 0%nat); [| apply Breeding_start].
    intros k st1 HB. apply wlp_bind, wlp_get, wlp_bind, wlp_onRng.
    intros x r' _. apply wlp_bind, wlp_lift. intros pr Hpr. simpl in Hpr.
    destruct HB as [Hs1 HB1].
    assert (matingPairs st1.1 = matingPairs st.1) as Hmp by (by rewrite Hs1).
    rewrite Hmp in Hpr. apply at_Some in Hpr as [_ Hpr%list_elem_of_lookup_2].
    rewrite Forall_forall in Hpool. destruct (Hpool _ Hpr) as [Hmale Hfemale].
    eapply wlp_mono.
    { apply (Breeding_step st gen (pooledPair (matingPairs st.1)) k
                           (st1.1, r') (male pr) (female pr)); try done.
      unfold pooledPair. by destruct pr. }
    done.
  - intros ? st' HB. simpl in HB. by rewrite Nat.add_0_r in HB.
Qed.

Lemma Frame_refl (s : Simulation) : Frame s s.
Proof. by repeat split. Qed.

Lemma Breeding_Frame (K : list Agent → Agent → Prop) (st0 : St) (k : nat) (st : St) :
  Breeding K st0 k st → Frame st0.1 st.1.
Proof. intros [-> _]. by repeat split. Qed.

Lemma anyMating_breeds : StrategyBreeds anyMating.
Proof.
  intros gen st _. eapply wlp_mono; [apply anyMating_births |].
  intros e st' [-> HB]. split; [by eapply Breeding_Frame |].
  exists (Z.to_nat (iterations st.1)). split; [by destruct HB | done].
Qed.

Lemma nonMonogamousMating_breeds : StrategyBreeds nonMonogamousMating.
Proof.
  intros gen st _. eapply wlp_mono; [apply nonMonogamousMating_births |].
  intros e st' [-> (n & _ & HB)]. split; [by eapply Breeding_Frame |].
  exists n. split; [| done]. destruct HB as [_ HB].
  eapply Births_impl; [| exact HB]. intros ags1 kid (? & ? & ? & _).
  split; [done |]. split; [done |]. split; [done | exact I].
Qed.

Lemma monogamousMating_breeds : StrategyBreeds monogamousMating.
Proof.
  intros gen st Hids. unfold monogamousMating. apply wlp_bind, wlp_onSim.
  eapply wlp_mono; [by apply pairAgents_members |].
  intros ? s1 (HK & Hsel & Hpool). apply wlp_bind, wlp_get. simpl.
  destruct HK as (Hags & Hgb & Hp & Hid).
  case_bool_decide.
  - apply wlp_ret. simpl. split; [by repeat split |].
    exists 0%nat. split; [| done]. rewrite Hags. constructor.
  - apply wlp_bind. eapply wlp_mono.
    { apply makeChildrenMonogamous_births. simpl. by rewrite Hsel. }
    intros ? st2 HB. apply wlp_ret. simpl in HB.
    pose proof (Breeding_Frame _ _ _ _ HB) as (F1 & F2 & F3 & F4). simpl in *.
    split; [repeat split; congruence |].
    exists (Z.to_nat (iterations s1)). split; [| done].
    destruct HB as [_ HB]. simpl in HB. rewrite Hags in HB.
    eapply Births_impl; [| exact HB].
    intros ags1 kid (Hnb & Hf & Hm & _). rewrite Hp in Hnb. rewrite Hsel in Hf, Hm.
    split; [done |]. split; [done |]. split; [done | exact I].
Qed.

Lemma setPairFunc_breeds (s : Simulation) : StrategyBreeds (setPairFunc s).
Proof.
  unfold setPairFunc.
  destruct (negb (Monogamous (params s)) && negb (Compatible (params s)));
    [| destruct (Monogamous (params s))].
  - apply anyMating_breeds.
  - apply monogamousMating_breeds.
  - apply nonMonogamousMating_breeds.
Qed.

(** ** The lineage of an arena *)

Lemma id_withChildOf (kid : Agent) (j : Z) (a : Agent) :
  id (withChildOf kid j a) = id a.
Proof. unfold withChildOf. by repeat case_bool_decide. Qed.

Lemma generation_withChildOf (kid : Agent) (j : Z) (a : Agent) :
  generation (withChildOf kid j a) = generation a.
Proof. unfold withChildOf. by repeat case_bool_decide. Qed.

Lemma mother_withChildOf (kid : Agent) (j : Z) (a : Agent) :
  mother (withChildOf kid j a) = mother a.
Proof. unfold withChildOf. by repeat case_bool_decide. Qed.

Lemma father_withChildOf (kid : Agent) (j : Z) (a : Agent) :
  father (withChildOf kid j a) = father a.
Proof. unfold withChildOf. by repeat case_bool_decide. Qed.

Lemma genes_withChildOf (kid : Agent) (j : Z) (a : Agent) :
  genes (withChildOf kid j a) = genes a.
Proof. unfold withChildOf. by repeat case_bool_decide. Qed.

Lemma ancestorVec_withChildOf (kid : Agent) (j : Z) (a : Agent) :
  ancestorVec (withChildOf kid j a) = ancestorVec a.
Proof. unfold withChildOf. by repeat case_bool_decide. Qed.

Lemma ancestorSet_withChildOf (kid : Agent) (j : Z) (a : Agent) :
  ancestorSet (withChildOf kid j a) = ancestorSet a.
Proof. unfold withChildOf. by repeat case_bool_decide. Qed.

Ltac fields_withChildOf :=
  rewrite ?id_withChildOf, ?generation_withChildOf, ?mother_withChildOf,
    ?father_withChildOf, ?genes_withChildOf, ?ancestorVec_withChildOf,
    ?ancestorSet_withChildOf.

Ltac fields_withChildOf_in H :=
  rewrite ?id_withChildOf, ?generation_withChildOf, ?mother_withChildOf,
    ?father_withChildOf, ?genes_withChildOf, ?ancestorVec_withChildOf,
    ?ancestorSet_withChildOf in H.

Lemma children_withChildOf (kid : Agent) (j : Z) (a : Agent) (c : Z) :
  c ∈ children (withChildOf kid j a)
  ↔ c ∈ children a ∨ c = id kid ∧ (mother kid = j ∨ father kid = j).
Proof.
  unfold withChildOf. repeat case_bool_decide; simpl;
    rewrite ?elem_of_app, ?list_elem_of_singleton; naive_solver.
Qed.

Lemma FromFounder_bear (p : Parameters) (ags : list Agent) (kid : Agent)
    (k : nat) (g : string) :
  FromFounder p ags k g → FromFounder p (bear ags kid) k g.
Proof.
  intros (f & fa & n & Hfa & Hgen & Hg & Hn).
  exists f, (withChildOf kid f fa), n. split; [by apply at_bear_old |].
  split; [by fields_withChildOf | done].
Qed.

Lemma mutated_S (n : nat) (g : string) : mutated n g +:+ "`" = mutated (S n) g.
Proof. done. Qed.

Lemma FromFounder_inherited (p : Parameters) (ags : list Agent) (parent : Z)
    (k : nat) (g : string) :
  (∀ j a, at_ ags j = Some a → ∀ k g, genes a !! k = Some g → FromFounder p ags k g) →
  inherited ags (MutationRate p) parent k g → FromFounder p ags k g.
Proof.
  intros Hgenes (pa & g0 & Hpa & Hg0 & Hg).
  destruct (Hgenes _ _ Hpa _ _ Hg0) as (f & fa & n & Hfa & Hgen & -> & Hn).
  destruct Hg as [-> | [Hrate ->]].
  - by exists f, fa, n.
  - exists f, fa, (S n). split; [done |]. split; [done |]. split; [done |].
    intros Hr. congruence.
Qed.

(** A birth from two agents of the generation before keeps the arena
    lineal. *)
Lemma Lineal_bear (p : Parameters) (ags : list Agent) (kid : Agent) (gen : Z) :
  Lineal p ags →
  Newborn ags (father kid) (mother kid) (NumGenes p) gen (MutationRate p) kid →
  gen ≠ 0 →
  (∃ fa, at_ ags (father kid) = Some fa ∧ generation fa = gen - 1) →
  (∃ mo, at_ ags (mother kid) = Some mo ∧ generation mo = gen - 1) →
  Lineal p (bear ags kid).
Proof.
  intros [Hids Hpar Hfnd Hgenes Hch Hunres] Hkid Hgen (fa & Hfa & Hfag) (mo & Hmo & Hmog).
  destruct Hkid as [Kid Kgen _ _ Kch Kvec Kset Knum Kgenes].
  pose proof (at_Some_lt _ _ _ Hfa) as Hfl.
  pose proof (at_Some_lt _ _ _ Hmo) as Hml.
  assert (withChildOf kid (len ags) kid = kid) as Hself.
  { unfold withChildOf. rewrite !bool_decide_eq_false_2 by lia. done. }
  split.
  - intros j a' [(a & Ha & ->) | [-> ->]]%at_bear_inv.
    + fields_withChildOf. by apply (Hids j a).
    + by rewrite Hself.
  - intros j a' [(a & Ha & ->) | [-> ->]]%at_bear_inv.
    + fields_withChildOf. intros Hg.
      destruct (Hpar j a Ha Hg) as (m & f & Hm & Hf & Hmg & Hfg).
      exists (withChildOf kid (mother a) m), (withChildOf kid (father a) f).
      split; [by apply at_bear_old |]. split; [by apply at_bear_old |].
      by fields_withChildOf.
    + rewrite Hself. intros _.
      exists (withChildOf kid (mother kid) mo), (withChildOf kid (father kid) fa).
      split; [by apply at_bear_old |]. split; [by apply at_bear_old |].
      fields_withChildOf. lia.
  - intros j a' [(a & Ha & ->) | [-> ->]]%at_bear_inv.
    + fields_withChildOf. by apply (Hfnd j a).
    + rewrite Hself. lia.
  - intros j a' [(a & Ha & ->) | [-> ->]]%at_bear_inv.
    + fields_withChildOf.
      destruct (Hgenes j a Ha) as [Hlen Hg]. split; [done |].
      intros k g Hk. by apply FromFounder_bear, Hg.
    + rewrite Hself. split; [done |]. intros k g Hk. apply FromFounder_bear.
      destruct (Kgenes k g Hk) as [Hin | Hin];
        (eapply FromFounder_inherited; [| exact Hin]);
        intros j a Ha; by apply (Hgenes j a).
  - assert (∀ j c, IsChild (bear ags kid) j c
                   ↔ IsChild ags j c ∨ c = id kid ∧ (mother kid = j ∨ father kid = j))
      as Hchild.
    { intros j c. unfold IsChild. split.
      - intros (k' & [(k & Hk & ->) | [-> ->]]%at_bear_inv & Hg & Hmf).
        + left. exists k. fields_withChildOf_in Hg. fields_withChildOf_in Hmf. done.
        + right. rewrite Hself in Hmf. done.
      - intros [(k & Hk & Hg & Hmf) | [-> Hmf]].
        + exists (withChildOf kid c k). split; [by apply at_bear_old |].
          by fields_withChildOf.
        + exists kid. rewrite Kid. split; [by rewrite at_bear_new, Hself |].
          split; [lia | done]. }
    intros j a' [(a & Ha & ->) | [-> ->]]%at_bear_inv c.
    + rewrite children_withChildOf, Hchild, (Hch j a Ha). done.
    + rewrite Hself, Kch, Hchild. split; [by intros ?%elem_of_nil |].
      intros [(k & Hk & Hg & Hmf) | [_ Hmf]].
      * destruct (Hpar _ _ Hk Hg) as (m & f & Hm%at_Some_lt & Hf%at_Some_lt & _).
        destruct Hmf; lia.
      * destruct Hmf; lia.
  - intros j a' [(a & Ha & ->) | [-> ->]]%at_bear_inv.
    + fields_withChildOf. by apply (Hunres j a).
    + by rewrite Hself.
Qed.

(** ** The founders *)

Lemma seedAgents_founders (p : Parameters) (ids : list Z) :
  ∀ (acc : list Agent) (r : Rng),
    seedAgents p ids acc r
    = Some (acc ++ imap (λ k i, founder p i (sexOfDraw (stream r (pos r + k)))) ids,
            mkRng (stream r) (pos r + length ids)).
Proof.
  induction ids as [|i ids IH]; intros acc r; simpl.
  - unfold ret. rewrite app_nil_r, Nat.add_0_r. by destruct r.
  - unfold bind at 1. unfold newFounder, coinSex, bind, Float64, ret. simpl.
    rewrite IH. simpl. rewrite <- app_assoc. simpl.
    rewrite Nat.add_0_r. do 3 f_equal.
    + f_equal. apply imap_ext. intros k j _. simpl. do 3 f_equal. lia.
    + lia.
Qed.

Lemma founders_seqZ (p : Parameters) (r : Rng) (n : Z) :
  imap (λ k i, founder p i (sexOfDraw (stream r (pos r + k)))) (seqZ 0 n)
  = founderOf p r <$> seqZ 0 n.
Proof.
  apply list_eq. intros k. rewrite list_lookup_imap, list_lookup_fmap.
  destruct (seqZ 0 n !! k) as [i|] eqn:Hi; [| done]. simpl.
  apply lookup_seqZ in Hi as [-> _]. unfold founderOf. do 4 f_equal. lia.
Qed.

Lemma NewSimulation_returns (p : Parameters) (r : Rng) :
  NewSimulation p r
  = Some ({| sim_id := SimulationId p;
             agents := founderOf p r <$> seqZ 0 (NumAgents p);
             currGen := (λ i, mkSelected i false) <$> seqZ 0 (Z.max 0 (NumAgents p));
             genBdrys := [Z.max 0 (NumAgents p)];
             matingPairs := [];
             params := p |},
          mkRng (stream r) (pos r + Z.to_nat (NumAgents p))).
Proof.
  unfold NewSimulation, bind. rewrite seedAgents_founders. simpl.
  rewrite founders_seqZ. unfold ret.
  assert (len (founderOf p r <$> seqZ 0 (NumAgents p)) = Z.max 0 (NumAgents p)) as ->.
  { unfold len. rewrite length_fmap, length_seqZ. lia. }
  by rewrite length_seqZ.
Qed.

(** ** The lineage along a run *)

Lemma Births_lineal (s0 : Simulation) (gen : Z) (n : nat) (ags1 : list Agent) :
  Lineal (params s0) (agents s0) → gen ≠ 0 →
  Forall (λ c, ∃ a, at_ (agents s0) (sel_id c) = Some a ∧ generation a = gen - 1)
         (currGen s0) →
  Births (Offspring s0 gen anyPair) (agents s0) n ags1 →
  Lineal (params s0) ags1
  ∧ (∀ j a, at_ (agents s0) j = Some a →
            ∃ a', at_ ags1 j = Some a' ∧ generation a' = generation a)
  ∧ (∀ j a, at_ ags1 j = Some a → len (agents s0) ≤ j → generation a = gen)
  ∧ length ags1 = (length (agents s0) + n)%nat.
Proof.
  intros Hlin Hgen Hcurr. induction 1 as [|n ags1 kid HB IH HK].
  - split; [done |]. split; [by eauto |]. split; [| lia].
    intros j a Ha%at_Some_lt Hj. lia.
  - destruct IH as (Hlin1 & Hold & Hnew & Hlen).
    destruct HK as (Hnb & Hf & Hm & _).
    assert (∀ x, x ∈ sel_id <$> currGen s0 →
                 ∃ a, at_ ags1 x = Some a ∧ generation a = gen - 1) as Hmem.
    { intros x (c & -> & Hc)%list_elem_of_fmap. rewrite Forall_forall in Hcurr.
      destruct (Hcurr c Hc) as (a & Ha & Hg).
      destruct (Hold _ _ Ha) as (a' & Ha' & Hg'). exists a'. split; [done | lia]. }
    split; [| split; [| split]].
    + eapply Lineal_bear; [done | exact Hnb | done | by apply Hmem ..].
    + intros j a Ha. destruct (Hold j a Ha) as (a' & Ha' & Hg').
      exists (withChildOf kid j a'). split; [by apply at_bear_old |].
      by rewrite generation_withChildOf.
    + intros j a' [(a & Ha & ->) | [-> ->]]%at_bear_inv Hj.
      * rewrite generation_withChildOf. by eapply Hnew.
      * rewrite generation_withChildOf. by destruct Hnb.
    + rewrite length_bear. lia.
Qed.

Lemma InGeneration_snoc (bdrys : list Z) (g j x : Z) :
  InGeneration bdrys g j → InGeneration (bdrys ++ [x]) g j.
Proof.
  intros [(hi & Hhi & Hj) Hlo]. split.
  - exists hi. split; [by apply at_app_l | done].
  - destruct Hlo as [-> | (lo & Hlo & Hj')]; [by left |].
    right. exists lo. split; [by apply at_app_l | done].
Qed.

(** A completed generation step keeps the lineage, and the generation it
    has bred is the next current generation. *)
Lemma Lineage_step (s s' : Simulation) (n : nat) :
  Lineage s → CurrOK s → Frame s s' →
  Births (Offspring s (len (genBdrys s)) anyPair) (agents s) n (agents s') →
  ∃ s3,
    setCurrGen (len (genBdrys s))
               (with_genBdrys s' (genBdrys s' ++ [len (agents s')]))
    = Some (tt, s3)
    ∧ Lineage s3 ∧ CurrOK s3
    ∧ genBdrys s3 = genBdrys s ++ [len (agents s')]
    ∧ agents s3 = agents s' ∧ params s3 = params s ∧ sim_id s3 = sim_id s
    ∧ length (currGen s3) = n
    ∧ length (agents s') = (length (agents s) + n)%nat.
Proof.
  intros (Hlin & [Hsorted Hlast] & Hlay) Hcurr (Fgb & Fp & Fid & _) HB.
  set (i := len (genBdrys s)) in *.
  assert (1 ≤ i) as Hi.
  { unfold i, len. destruct (genBdrys s); [done | simpl; lia]. }
  destruct (Births_lineal s i n (agents s') Hlin) as (Hlin' & Hold & Hnew & Hlen);
    [lia | exact Hcurr | exact HB |].
  set (s2 := with_genBdrys s' (genBdrys s' ++ [len (agents s')])).
  assert (setCurrGen i s2
          = Some (tt, with_currGen s2 ((λ a, mkSelected (id a) false)
                                         <$> drop (Z.to_nat (len (agents s))) (agents s2))))
    as Hset.
  { apply setCurrGen_tail.
    - unfold s2, len. simpl. rewrite Fgb, length_app. simpl. unfold i, len. lia.
    - rewrite bool_decide_eq_false_2 by lia. unfold s2. simpl. rewrite Fgb.
      by apply at_snoc_last.
    - unfold s2. simpl. rewrite Fgb. apply at_snoc_new.
    - unfold s2, len. simpl. lia. }
  eexists. split; [exact Hset |].
  assert (Layout s2) as Hlay2.
  { intros j a Ha. unfold s2 in *. simpl in *. rewrite Fgb.
    destruct (decide (j < len (agents s))) as [Hj | Hj].
    - destruct (at_lt (agents s) j) as [a0 Ha0];
        [apply at_Some_lt in Ha; lia |].
      destruct (Hold _ _ Ha0) as (a' & Ha' & Hg').
      assert (a' = a) as -> by congruence. rewrite Hg'.
      by apply InGeneration_snoc, Hlay.
    - rewrite (Hnew j a Ha) by lia. split.
      + exists (len (agents s')). split; [apply at_snoc_new |].
        apply at_Some_lt in Ha. lia.
      + right. exists (len (agents s)). split; [by apply at_snoc_last | lia]. }
  assert (IndexOK s2) as Hidx2.
  { unfold IndexOK, s2. simpl. rewrite Fgb. split.
    - eapply Sorted_snoc; [done | done | unfold len; lia].
    - by rewrite last_snoc. }
  split; [| split; [| split; [| split; [| split; [| split; [| split]]]]]].
  - split; [| split]; simpl; [by rewrite Fp | done | done].
  - unfold CurrOK. simpl. rewrite Fgb. apply Forall_fmap, Forall_forall.
    intros a [k Hk]%list_elem_of_lookup. rewrite lookup_drop in Hk. simpl.
    assert (at_ (agents s') (Z.of_nat (Z.to_nat (len (agents s)) + k)) = Some a) as Ha
      by (by rewrite at_of_nat).
    exists a. rewrite (lin_ids _ _ Hlin' _ _ Ha). split; [done |].
    rewrite (Hnew _ _ Ha) by (unfold len; lia).
    unfold len. rewrite length_app. simpl. unfold i, len. lia.
  - simpl. by rewrite Fgb.
  - done.
  - done.
  - done.
  - simpl. rewrite length_fmap, length_drop. unfold len. lia.
  - done.
Qed.
Lemma Lineage_fields (s s' : Simulation) :
  agents s' = agents s → genBdrys s' = genBdrys s → params s' = params s →
  Lineage s → Lineage s'.
Proof.
  intros Ha Hg Hp (Hlin & Hidx & Hlay). unfold Lineage, IndexOK, Layout.
  rewrite Ha, Hg, Hp. done.
Qed.

Lemma founderOf_at (p : Parameters) (r : Rng) (n j : Z) (a : Agent) :
  at_ (founderOf p r <$> seqZ 0 n) j = Some a → a = founderOf p r j ∧ 0 ≤ j < n.
Proof.
  intros [Hj Ha]%at_Some. rewrite list_lookup_fmap in Ha.
  destruct (seqZ 0 n !! Z.to_nat j) as [i|] eqn:Hi; [| done].
  apply lookup_seqZ in Hi as [-> Hi]. injection Ha as <-.
  split; [f_equal; lia | lia].
Qed.

(** The simulation that [NewSimulation] creates is lineal, and its current
    generation is generation 0. *)
Lemma NewSimulation_lineage (p : Parameters) (r : Rng) (s : Simulation) (r' : Rng) :
  NewSimulation p r = Some (s, r') →
  Lineage s ∧ CurrOK s ∧ params s = p ∧ sim_id s = SimulationId p
  ∧ len (genBdrys s) = 1
  ∧ setCurrGen 0 s = Some (tt, s).
Proof.
  rewrite NewSimulation_returns. intros [= <- <-].
  assert (len (founderOf p r <$> seqZ 0 (NumAgents p)) = Z.max 0 (NumAgents p)) as Hlen.
  { unfold len. rewrite length_fmap, length_seqZ. lia. }
  split; [| split; [| split; [done | split; [done | split; [done |]]]]].
  - split; [| split]; cbn [agents params genBdrys].
    + split.
      * intros j a [-> _]%founderOf_at. done.
      * intros j a [-> _]%founderOf_at. done.
      * intros j a [-> _]%founderOf_at. done.
      * intros j a Ha. pose proof Ha as [-> Hj]%founderOf_at. simpl. split.
        -- unfold founderGenes. by rewrite length_fmap, length_seqZ.
        -- intros k g Hk. unfold founderGenes in Hk.
           rewrite list_lookup_fmap in Hk.
           destruct (seqZ 0 (NumGenes p) !! k) as [i|] eqn:Hi; [| done].
           apply lookup_seqZ in Hi as [-> _]. injection Hk as <-.
           exists j, (founderOf p r j), 0%nat. split; [done |].
           split; [done |]. split; [| done]. simpl. unfold founderGene.
           by rewrite Z.add_0_l.
      * intros j a [-> _]%founderOf_at c. simpl. split; [by intros ?%elem_of_nil |].
        intros (k & [-> _]%founderOf_at & Hg & _). done.
      * intros j a [-> _]%founderOf_at. done.
    + split; cbn [agents params genBdrys]; [repeat constructor | by rewrite Hlen].
    + intros j a Ha. pose proof Ha as [-> Hj]%founderOf_at. split; [| by left].
      exists (Z.max 0 (NumAgents p)). split; [done | lia].
  - unfold CurrOK. cbn [agents currGen genBdrys].
    apply Forall_fmap, Forall_forall.
    intros i [Hi0 Hi]%elem_of_seqZ. unfold compose. cbn [sel_id].
    destruct (at_lt (founderOf p r <$> seqZ 0 (NumAgents p)) i) as [a Ha];
      [rewrite Hlen; lia |].
    exists a. split; [done |]. by apply founderOf_at in Ha as [-> _].
  - erewrite (setCurrGen_tail _ 0 0); cbn [agents genBdrys].
    + unfold with_currGen. cbn [agents genBdrys currGen sim_id matingPairs params].
      do 3 f_equal. rewrite drop_0, <- list_fmap_compose.
      apply list_eq. intros k. rewrite !list_lookup_fmap.
      destruct (decide (k < Z.to_nat (NumAgents p))%nat).
      * rewrite !lookup_seqZ_lt by lia. done.
      * rewrite !lookup_seqZ_ge by lia. done.
    + unfold len. simpl. lia.
    + done.
    + by rewrite Hlen.
    + lia.
Qed.

(** Every turn of the driver keeps the lineage. *)
Lemma simulateFrom_lineage (pairFunc : Z → M St (option Err)) (n : nat) :
  StrategyBreeds pairFunc →
  ∀ (i : Z) (st : St),
    Lineage st.1 → CurrOK st.1 → len (genBdrys st.1) = i →
    wlp (simulateFrom n i pairFunc) st
        (λ e st', Lineage st'.1 ∧ params st'.1 = params st.1
                  ∧ sim_id st'.1 = sim_id st.1).
Proof.
  intros Hpf. induction n as [|n IH]; intros i st Hlin Hcurr Hi; simpl.
  - by apply wlp_ret.
  - apply wlp_bind, wlp_get. case_bool_decide; [by apply wlp_ret |].
    destruct (shuffleCurrGen_perm st) as (cg & Hsh & Hperm).
    apply wlp_bind. intros [] st1 Hst1. rewrite Hsh in Hst1.
    injection Hst1 as <-.
    set (st1 := (with_currGen st.1 cg, _)).
    assert (Lineage st1.1) as Hlin1 by (by eapply Lineage_fields; [..| exact Hlin]).
    assert (CurrOK st1.1) as Hcurr1.
    { unfold CurrOK in *. simpl. by rewrite Hperm. }
    apply wlp_bind. eapply wlp_mono.
    { apply Hpf. by destruct Hlin1 as ([Hids _ _ _ _ _] & _). }
    intros e st2 (HF & k & HB & He). destruct e as [err|].
    + apply wlp_ret. rewrite (He ltac:(done)) in HB. apply Births_zero in HB.
      destruct HF as (Fgb & Fp & Fid & _). simpl in *.
      split; [| split; [congruence | congruence]].
      eapply Lineage_fields; [exact HB | exact Fgb | exact Fp | exact Hlin1].
    + subst i.
      destruct (Lineage_step st1.1 st2.1 k Hlin1 Hcurr1 HF HB)
        as (s3 & Hset & Hlin3 & Hcurr3 & Hgb3 & Hag3 & Hp3 & Hid3 & _).
      apply wlp_bind, wlp_onSim, wlp_bind, wlp_get, wlp_put.
      apply wlp_bind, wlp_onSim. simpl. intros [] s3' Hs3'.
      simpl in Hset. rewrite Hset in Hs3'. injection Hs3' as <-.
      eapply wlp_mono.
      { apply IH; [done | done |]. simpl. rewrite Hgb3.
        unfold len. rewrite length_app. simpl. lia. }
      intros e st' (Hlin' & Hp' & Hid'). simpl in *.
      split; [done |]. split; congruence.
Qed.

(** The state from which a run returns is lineal. *)
Lemma run_lineage (p : Parameters) (r : Rng) (e : option Err) (st : St) :
  run p r = Some (e, st) →
  Lineage st.1 ∧ params st.1 = p ∧ sim_id st.1 = SimulationId p.
Proof.
  unfold run. destruct (NewSimulation p r) as [[s r1]|] eqn:Hnew; [| done].
  destruct (NewSimulation_lineage _ _ _ _ Hnew)
    as (Hlin & Hcurr & Hp & Hid & Hone & Hset).
  unfold Simulate. erewrite bind_Some by (unfold onSim; simpl; rewrite Hset; reflexivity).
  rewrite (bind_Some _ _ (s, r1) (s, r1) (s, r1)) by done.
  intros Hsim.
  destruct (simulateFrom_lineage (setPairFunc s) (Z.to_nat (Generations (params s)))
              (setPairFunc_breeds s) 1 (s, r1) Hlin Hcurr Hone e st Hsim)
    as (Hlin' & Hp' & Hid').
  simpl in *. split; [done |]. split; congruence.
Qed.

(** ** The arena of a run *)

Lemma Layout_mono (s : Simulation) (i j : Z) (a b : Agent) :
  Sorted Z.le (genBdrys s) → Layout s →
  at_ (agents s) i = Some a → at_ (agents s) j = Some b → i ≤ j →
  generation a ≤ generation b.
Proof.
  intros Hsorted Hlay Ha Hb Hij.
  destruct (Hlay _ _ Ha) as [_ Hlo]. destruct (Hlay _ _ Hb) as [(hi & Hhi & Hjhi) _].
  destruct (decide (generation a ≤ generation b)) as [| Hgt]; [done |].
  destruct Hlo as [H0 | (lo & Hlo & Hilo)].
  - apply at_Some in Hhi as [? _]. lia.
  - assert (hi ≤ lo); [| lia].
    eapply Sorted_at_le; [exact Hsorted | exact Hhi | exact Hlo | lia].
Qed.

Lemma Lineage_generational (s : Simulation) :
  Lineage s → ArenaGenerational (agents s).
Proof.
  intros (Hlin & [Hsorted Hlast] & Hlay). split.
  - apply (lin_ids _ _ Hlin).
  - intros i a Ha. destruct (Hlay _ _ Ha) as [(hi & [? _]%at_Some & _) _]. done.
  - intros i j a b. by apply Layout_mono.
  - intros i a Ha Hg.
    destruct (lin_parents _ _ Hlin i a Ha Hg) as (m & f & Hm & Hf & Hmg & Hfg).
    by exists m, f.
Qed.

(** X8 (arena of a run): every run returns, and whatever it returns, with
    an error or without, its arena is ordered by generation: the id of
    every agent is its index, the generations never decrease along the
    arena, the two parents of an agent that is no founder are agents of
    the generation just before its own, every agent lies in the
    generation index between the boundary before its generation and the
    boundary of its generation, and no ancestor is resolved yet. *)
Theorem run_arena_generational (p : Parameters) (r : Rng) :
  ∃ e s r',
    run p r = Some (e, (s, r'))
    ∧ ArenaGenerational (agents s)
    ∧ (∀ j a, at_ (agents s) j = Some a →
              InGeneration (genBdrys s) (generation a) j)
    ∧ (∀ j a, at_ (agents s) j = Some a →
              ancestorVec a = [] ∧ ancestorSet a = ∅).
Proof.
  destruct (run_total p r) as (e & [s r'] & Hrun).
  destruct (run_lineage _ _ _ _ Hrun) as (Hlin & _).
  exists e, s, r'. split; [done |]. split; [by apply Lineage_generational |].
  destruct Hlin as (Hlin & _ & Hlay). split; [done |].
  apply (lin_unresolved _ _ Hlin).
Qed.

(** X9 (genes of a run): every run returns, and in its arena every agent
    has exactly [NumGenes] genes (none when [NumGenes] is negative); the
    gene at position [k] of an agent is the gene [k] that [NewSimulation]
    printed for some founder, an agent of generation 0 of the arena,
    followed by one backtick for each mutation, and by none unless the
    mutation rate is positive. *)
Theorem run_genes_from_founders (p : Parameters) (r : Rng) :
  ∃ e s r',
    run p r = Some (e, (s, r'))
    ∧ ∀ j a, at_ (agents s) j = Some a →
             length (genes a) = Z.to_nat (NumGenes p)
             ∧ ∀ k g, genes a !! k = Some g →
                      ∃ f fa n,
                        at_ (agents s) f = Some fa ∧ generation fa = 0
                        ∧ g = mutated n (founderGene f (Z.of_nat k))
                        ∧ (Qltb 0 (MutationRate p) = false → n = 0%nat).
Proof.
  destruct (run_total p r) as (e & [s r'] & Hrun).
  destruct (run_lineage _ _ _ _ Hrun) as ((Hlin & _) & Hp & _). simpl in *.
  exists e, s, r'. split; [done |]. rewrite Hp in Hlin.
  apply (lin_genes _ _ Hlin).
Qed.

(** X10 (children of a run): every run returns, and in its arena the list of
    children of the agent at index [j] holds exactly the ids of the agents
    that are no founders and have [j] as their mother or as their father.
    The parents of a founder are set to 0, which makes no founder a child
    of agent 0. *)
Theorem run_children (p : Parameters) (r : Rng) :
  ∃ e s r',
    run p r = Some (e, (s, r'))
    ∧ (∀ j a c, at_ (agents s) j = Some a →
         (c ∈ children a
          ↔ ∃ k, at_ (agents s) c = Some k ∧ generation k ≠ 0
                 ∧ (mother k = j ∨ father k = j)))
    ∧ (∀ j a, at_ (agents s) j = Some a → generation a = 0 →
              mother a = 0 ∧ father a = 0).
Proof.
  destruct (run_total p r) as (e & [s r'] & Hrun).
  destruct (run_lineage _ _ _ _ Hrun) as ((Hlin & _) & _). simpl in *.
  exists e, s, r'. split; [done |]. split.
  - intros j a c Ha. apply (lin_children _ _ Hlin j a Ha).
  - apply (lin_founders _ _ Hlin).
Qed.

Lemma StronglySorted_lt_NoDup (l : list Z) : StronglySorted Z.lt l → NoDup l.
Proof.
  induction 1 as [|x l Hs IH Hx]; constructor; [| done].
  intros Hin. rewrite Forall_forall in Hx. specialize (Hx _ Hin). lia.
Qed.

Lemma StronglySorted_lt_ext (l1 l2 : list Z) :
  StronglySorted Z.lt l1 → StronglySorted Z.lt l2 →
  (∀ x, x ∈ l1 ↔ x ∈ l2) → l1 = l2.
Proof.
  intros H1 H2 Hin. apply (StronglySorted_unique_strong Z.lt); [| done | done |].
  - intros x1 x2 _ _ ??. lia.
  - apply NoDup_Permutation; [by apply StronglySorted_lt_NoDup .. | done].
Qed.

Lemma Sorted_at_lt (l : list Z) (i j x y : Z) :
  StronglySorted Z.lt l → at_ l i = Some x → at_ l j = Some y → i < j → x < y.
Proof.
  intros Hs [Hi Hx]%at_Some [Hj Hy]%at_Some Hij.
  apply (StronglySorted_lookup Z.lt l Hs (Z.to_nat i) (Z.to_nat j)); [done | done | lia].
Qed.

(** On a lineal state without an empty generation, [SetGenBdrys] finds
    the index that the engine has kept. *)
Lemma SetGenBdrys_lineage (s : Simulation) :
  Lineage s → StronglySorted Z.lt (0 :: genBdrys s) →
  SetGenBdrys s = Some (tt, s).
Proof.
  intros (Hlin & [Hsorted Hlast] & Hlay) Hstrict.
  apply StronglySorted_inv in Hstrict as [Hstrict Hpos].
  rewrite Forall_forall in Hpos.
  destruct (SetGenBdrys_spec s) as (bdrys & Hset & Hs' & _ & _ & Hin).
  rewrite Hset. do 2 f_equal.
  assert (bdrys = genBdrys s) as ->; [| by destruct s].
  apply StronglySorted_lt_ext; [done | done |]. intros b. rewrite Hin. split.
  - intros [[Hne ->] | (a & a' & Ha & Ha' & Hg)].
    + destruct (genBdrys s) as [|x l] eqn:E using rev_ind; [done |].
      rewrite last_snoc in Hlast. injection Hlast as ->. set_solver.
    + assert (generation a ≤ generation a') as Hle
        by (eapply (Layout_mono s (b - 1) b); [done | done | done | done | lia]).
      destruct (Hlay _ _ Ha) as [(hi & Hhi & Hbhi) _].
      destruct (Hlay _ _ Ha') as [_ [Hz | (lo & Hlo & Hblo)]].
      { apply at_Some in Hhi as [? _]. lia. }
      assert (hi ≤ lo)
        by (eapply Sorted_at_le; [exact Hsorted | exact Hhi | exact Hlo | lia]).
      assert (b = lo) as -> by lia.
      apply at_Some in Hlo as [_ Hlo]. by eapply list_elem_of_lookup_2.
  - intros [k Hk]%list_elem_of_lookup.
    assert (at_ (genBdrys s) (Z.of_nat k) = Some b) as Hb by (by rewrite at_of_nat).
    assert (0 < b) as Hb0 by (apply Hpos; by eapply list_elem_of_lookup_2).
    destruct (decide (S k = length (genBdrys s))) as [Hend | Hmid].
    + left. assert (b = len (agents s)) as ->.
      { rewrite last_lookup in Hlast.
        replace (Nat.pred (length (genBdrys s))) with k in Hlast by lia. congruence. }
      split; [| done]. intros E. rewrite E in Hb0. unfold len in Hb0. simpl in Hb0. lia.
    + right. apply lookup_lt_Some in Hk as Hklt.
      destruct (lookup_lt_is_Some_2 (genBdrys s) (S k)) as [b' Hb']; [lia |].
      assert (at_ (genBdrys s) (Z.of_nat k + 1) = Some b') as Hb1.
      { replace (Z.of_nat k + 1) with (Z.of_nat (S k)) by lia. by rewrite at_of_nat. }
      assert (b < b') by (eapply Sorted_at_lt; [exact Hstrict | exact Hb | exact Hb1 | lia]).
      assert (b' ≤ len (agents s)).
      { rewrite last_lookup in Hlast.
        assert (at_ (genBdrys s) (Z.of_nat (Nat.pred (length (genBdrys s))))
                = Some (len (agents s))) as Hl by (by rewrite at_of_nat).
        eapply Sorted_at_le; [exact Hsorted | exact Hb1 | exact Hl | lia]. }
      destruct (at_lt (agents s) (b - 1)) as [a Ha]; [lia |].
      destruct (at_lt (agents s) b) as [a' Ha']; [lia |].
      exists a, a'. split; [done |]. split; [done |].
      assert (generation a ≤ Z.of_nat k).
      { destruct (Hlay _ _ Ha) as [_ [Hz | (lo & Hlo & Hblo)]]; [lia |].
        destruct (decide (generation a ≤ Z.of_nat k)) as [| Hgt]; [done |].
        assert (b ≤ lo); [| lia].
        eapply Sorted_at_le; [exact Hsorted | exact Hb | exact Hlo | lia]. }
      assert (Z.of_nat k < generation a'); [| lia].
      destruct (Hlay _ _ Ha') as [(hi & Hhi & Hbhi) _].
      destruct (decide (Z.of_nat k < generation a')) as [| Hle]; [done |].
      assert (hi ≤ b); [| lia].
      eapply Sorted_at_le; [exact Hsorted | exact Hhi | exact Hb | lia].
Qed.

(** X11 (round trip of the index): every run returns, and when no
    generation of its arena is empty, that is when the generation index is
    strictly increasing from a first entry above 0, [SetGenBdrys] computes
    from the generations of the agents the very index that the engine has
    kept, and so leaves the simulation as it is. *)
Theorem SetGenBdrys_run (p : Parameters) (r : Rng) :
  ∃ e s r',
    run p r = Some (e, (s, r'))
    ∧ (StronglySorted Z.lt (0 :: genBdrys s) → SetGenBdrys s = Some (tt, s)).
Proof.
  destruct (run_total p r) as (e & [s r'] & Hrun).
  destruct (run_lineage _ _ _ _ Hrun) as (Hlin & _).
  exists e, s, r'. split; [done |]. by apply SetGenBdrys_lineage.
Qed.

(** X12 (NewSimulation): creating a simulation always returns.  It makes
    [NumAgents] founders (none when that is not positive): the founder [i]
    has the id [i], generation 0, both parents set to 0, no child, no
    resolved ancestor, the genes ["i-0"] to ["i-(NumGenes-1)"], and the
    sex that the draw [i] of the random source decides; the generation
    index is the number of founders alone, the current generation is all
    founders in order and unmated, there is no pair; and one value of the
    random source is read for each founder. *)
Theorem NewSimulation_founders (p : Parameters) (r : Rng) :
  NewSimulation p r
  = Some (newSimulation p r, mkRng (stream r) (pos r + Z.to_nat (NumAgents p)))
  ∧ len (agents (newSimulation p r)) = Z.max 0 (NumAgents p)
  ∧ ∀ i, 0 ≤ i < NumAgents p →
         at_ (agents (newSimulation p r)) i
         = Some {| id := i; generation := 0;
                   sex := sexOfDraw (stream r (pos r + Z.to_nat i));
                   mother := 0; father := 0; children := [];
                   ancestorVec := []; ancestorSet := ∅;
                   genes := founderGene i <$> seqZ 0 (NumGenes p) |}.
Proof.
  split; [apply NewSimulation_returns |]. split.
  - unfold len. simpl. rewrite length_fmap, length_seqZ. lia.
  - intros i Hi. apply at_Some. split; [lia |]. simpl.
    rewrite list_lookup_fmap, lookup_seqZ_lt by lia. simpl.
    by replace (0 + Z.of_nat (Z.to_nat i)) with i by lia.
Qed.

Lemma Simulate_start (p : Parameters) (r : Rng) :
  run p r
  = simulateFrom (Z.to_nat (Generations p)) 1 (setPairFunc (newSimulation p r))
      (newSimulation p r, mkRng (stream r) (pos r + Z.to_nat (NumAgents p))).
Proof.
  unfold run. rewrite NewSimulation_returns. fold (newSimulation p r).
  destruct (NewSimulation_lineage p r (newSimulation p r)
              (mkRng (stream r) (pos r + Z.to_nat (NumAgents p))))
    as (_ & _ & _ & _ & _ & Hset); [apply NewSimulation_returns |].
  unfold Simulate.
  erewrite bind_Some by (unfold onSim; simpl fst; rewrite Hset; reflexivity).
  by erewrite bind_Some by reflexivity.
Qed.

(** X13 (runs that breed nothing): with no generation to run, a run returns
    no error and leaves the simulation as [NewSimulation] created it.
    With at least one generation to run and fewer than two founders, it
    returns the error of insufficient survivors for generation 1, with
    the number of founders as the number of survivors, and again leaves
    the simulation as it was created. *)
Theorem run_nothing_to_breed (p : Parameters) (r : Rng) :
  (Generations p ≤ 0 →
   run p r = Some (None, (newSimulation p r,
                          mkRng (stream r) (pos r + Z.to_nat (NumAgents p)))))
  ∧ (1 ≤ Generations p → NumAgents p < 2 →
     run p r
     = Some (Some (ErrInsufficientSurvivors (SimulationId p)
                     (Z.max 0 (NumAgents p)) 1),
             (newSimulation p r,
              mkRng (stream r) (pos r + Z.to_nat (NumAgents p))))).
Proof.
  rewrite Simulate_start. split.
  - intros Hg. by replace (Z.to_nat (Generations p)) with 0%nat by lia.
  - intros Hg Hn.
    destruct (Z.to_nat (Generations p)) as [|n] eqn:E; [lia |].
    cbn [simulateFrom]. rewrite (bind_Some _ _ _ _ _ eq_refl).
    assert (len (currGen (newSimulation p r)) = Z.max 0 (NumAgents p)) as Hlen.
    { unfold len. simpl. rewrite length_fmap, length_seqZ. lia. }
    cbn [fst]. rewrite Hlen. rewrite bool_decide_eq_true_2 by lia. done.
Qed.

(** ** What a strategy has bred, agent by agent *)







Lemma pooledPair_Lasting (pool : list matingPair) : Lasting (pooledPair pool).
Proof. by intros ags ags' f m _ ?. Qed.







(** ** The pool of the monogamous strategy *)

Lemma wlp_forEach_seqZ {St : Type} (J : Z → St → Prop) (body : Z → M St unit) (n : nat) :
  ∀ (lo : Z) (st : St),
    (∀ i st1, lo ≤ i < lo + Z.of_nat n → J i st1 →
              wlp (body i) st1 (λ _ st2, J (i + 1) st2)) →
    J lo st →
    wlp (forEach (seqZ lo (Z.of_nat n)) body) st (λ _ st', J (lo + Z.of_nat n) st').
Proof.
  induction n as [|n IH]; intros lo st Hbody HJ.
  - simpl. apply wlp_ret. by rewrite Z.add_0_r.
  - rewrite seqZ_cons by lia. simpl. apply wlp_bind.
    eapply wlp_mono; [apply Hbody; [lia | done] |].
    intros ? st1 H1. replace (Z.pred (Z.of_nat (S n))) with (Z.of_nat n) by lia.
    eapply wlp_mono.
    { apply (IH (Z.succ lo)).
      - intros i st2 Hi. apply Hbody. lia.
      - by replace (Z.succ lo) with (lo + 1) by lia. }
    intros ? st2 H2. simpl in H2.
    by replace (lo + Z.of_nat (S n)) with (Z.succ lo + Z.of_nat n) by lia.
Qed.

Lemma compatible_Keeps (s0 s : Simulation) (a b : Agent) :
  Keeps s0 s → compatible s a b = compatible s0 a b.
Proof. intros (Ha & _ & Hp & _). unfold compatible. by rewrite Ha, Hp. Qed.

Lemma at_markMated (cg cg' : list selectedAgent) (i k : Z) :
  markMated cg i = Some cg' →
  at_ cg' k = (λ c, if bool_decide (k = i) then mkSelected (sel_id c) true else c)
              <$> at_ cg k.
Proof.
  unfold markMated. destruct (at_ cg i) as [c|] eqn:Hc; [| done].
  simpl. intros [= <-]. pose proof (at_Some_lt _ _ _ Hc) as Hi.
  case_bool_decide as Hk.
  - subst k. rewrite at_set_at_eq by done. by rewrite Hc.
  - rewrite at_set_at_ne by lia. by destruct (at_ cg k).
Qed.

Lemma positions_snoc (ps : list (Z * Z)) (i j : Z) :
  positions (ps ++ [(i, j)]) = positions ps ++ [i; j].
Proof. unfold positions. rewrite bind_app. simpl. done. Qed.

Lemma at_same_id (cg cg0 : list selectedAgent) (k : Z) (c : selectedAgent) :
  sel_id <$> cg = sel_id <$> cg0 → at_ cg k = Some c →
  ∃ c0, at_ cg0 k = Some c0 ∧ sel_id c0 = sel_id c.
Proof.
  intros Hids [Hk Hc]%at_Some.
  assert ((sel_id <$> cg0) !! Z.to_nat k = Some (sel_id c)) as H0
    by (by rewrite <- Hids, list_lookup_fmap, Hc).
  rewrite list_lookup_fmap in H0.
  destruct (cg0 !! Z.to_nat k) as [c0|] eqn:Hc0; [| done].
  exists c0. split; [by apply at_Some | by injection H0].
Qed.

(** The inner loop of [pairAgents] for the unpaired member at position
    [i]: it makes at most one pair, and if it makes none it has refused
    every unpaired member up to [hi]. *)
Lemma pairScan_inv (s0 : Simulation) (agentA : Agent) (ci0 : selectedAgent) (i hi : Z) :
  at_ (currGen s0) i = Some ci0 → at_ (agents s0) (sel_id ci0) = Some agentA →
  hi ≤ i + MatingK (params s0) →
  ∀ (n : nat) (j : Z) (s : Simulation) (ps : list (Z * Z)),
    PairingInv s0 s ps → i ∉ positions ps → i < j → hi - j ≤ Z.of_nat n →
    (∀ j', i < j' < j → RefusedAt s0 ps i j') →
    wlp (pairScan n agentA i j hi) s
        (λ _ s', ∃ ps', PairingInv s0 s' ps'
                        ∧ (∀ k, k ∈ positions ps → k ∈ positions ps')
                        ∧ ∀ j', i < j' < hi → RefusedAt s0 ps' i j').
Proof.
  intros Hci0 HA Hhi. induction n as [|n IH]; intros j s ps Hinv Hi Hij Hn Href; simpl.
  - apply wlp_ret. exists ps. split; [done |]. split; [done |].
    intros j' Hj'. apply Href. lia.
  - case_bool_decide as Hjhi; cycle 1.
    { apply wlp_ret. exists ps. split; [done |]. split; [done |].
      intros j' Hj'. apply Href. lia. }
    apply wlp_bind, wlp_get, wlp_bind, wlp_lift. intros cj Hcj.
    destruct (at_same_id _ _ _ _ (pi_ids _ _ _ Hinv) Hcj) as (cj0 & Hcj0 & Hidj).
    assert (∀ ps', (∀ j', i < j' < j → RefusedAt s0 ps' i j') →
                   RefusedAt s0 ps' i j →
                   ∀ j', i < j' < j + 1 → RefusedAt s0 ps' i j') as Hext.
    { intros ps' H1 H2 j' Hj'. destruct (decide (j' = j)) as [-> | ?]; [done |].
      apply H1. lia. }
    destruct (mated cj) eqn:Hm.
    { apply IH; [done | done | lia | lia |]. apply Hext; [done |].
      intros _ Hjn. exfalso. apply Hjn. by apply (pi_mated _ _ _ Hinv j cj). }
    apply wlp_bind, wlp_lift. intros agentB HB.
    apply wlp_bind, wlp_lift. intros ok Hok.
    rewrite (compatible_Keeps s0 s) in Hok by apply (pi_keeps _ _ _ Hinv).
    destruct (pi_keeps _ _ _ Hinv) as (Hags & _). rewrite Hags, <- Hidj in HB.
    destruct ok; cycle 1.
    { apply IH; [done | done | lia | lia |]. apply Hext; [done |].
      intros _ _ ci cj' a b Hci Hcj' Ha Hb.
      assert (ci = ci0) as -> by congruence. assert (cj' = cj0) as -> by congruence.
      assert (a = agentA) as -> by congruence. assert (b = agentB) as -> by congruence.
      done. }
    apply wlp_bind, wlp_lift. intros cg1 Hcg1.
    apply wlp_bind, wlp_lift. intros cg2 Hcg2. apply wlp_put.
    assert (j ∉ positions ps) as Hj.
    { intros Hin. apply (pi_mated _ _ _ Hinv j cj Hcj) in Hin. congruence. }
    exists (ps ++ [(i, j)]). split; [| split].
    + destruct Hinv as [HK Hids Hpairs Hnd Hmated]. split; simpl.
      * exact HK.
      * by rewrite (markMated_ids _ _ _ Hcg2), (markMated_ids _ _ _ Hcg1).
      * apply Forall2_app; [done |]. constructor; [| constructor].
        exists ci0, cj0, agentA, agentB. simpl. repeat split; try done; lia.
      * rewrite positions_snoc. apply NoDup_app. split; [done |]. split.
        -- intros k Hk Hk'. apply list_elem_of_In in Hk'. simpl in Hk'.
           destruct Hk' as [<- | [<- | []]]; done.
        -- apply NoDup_cons. split; [| apply NoDup_singleton].
           rewrite list_elem_of_singleton. lia.
      * intros k c. rewrite (at_markMated _ _ _ _ Hcg2), (at_markMated _ _ _ _ Hcg1).
        rewrite positions_snoc, elem_of_app.
        destruct (at_ (currGen s) k) as [c0|] eqn:Hc0; [| done]. simpl.
        intros [= <-]. specialize (Hmated k c0 Hc0).
        repeat case_bool_decide; simpl; subst; set_solver.
    + intros k Hk. rewrite positions_snoc. set_solver.
    + intros j' _ Hin. exfalso. apply Hin. rewrite positions_snoc. set_solver.
Qed.

(** The outer loop of [pairAgents]. *)
Lemma pairStep_inv (s0 : Simulation) (i : Z) (s : Simulation) (ps : list (Z * Z)) :
  PairingInv s0 s ps →
  (∀ i' j', 0 ≤ i' < i → i' < j' < i' + MatingK (params s0) → RefusedAt s0 ps i' j') →
  wlp (pairStep i) s
      (λ _ s', ∃ ps', PairingInv s0 s' ps'
                      ∧ ∀ i' j', 0 ≤ i' < i + 1 →
                                 i' < j' < i' + MatingK (params s0) →
                                 RefusedAt s0 ps' i' j').
Proof.
  intros Hinv Hdone. unfold pairStep.
  apply wlp_bind, wlp_get, wlp_bind, wlp_lift. intros ci Hci.
  apply wlp_bind, wlp_lift. intros agentA HA.
  destruct (at_same_id _ _ _ _ (pi_ids _ _ _ Hinv) Hci) as (ci0 & Hci0 & Hidi).
  destruct (pi_keeps _ _ _ Hinv) as (Hags & _ & Hp & _).
  rewrite Hags, <- Hidi in HA.
  pose proof (at_Some_lt _ _ _ Hci) as Hil.
  destruct (mated ci) eqn:Hm.
  - apply wlp_ret. exists ps. split; [done |].
    intros i' j' Hi' Hj'. destruct (decide (i' = i)) as [-> | ?]; [| apply Hdone; lia].
    intros Hin. exfalso. apply Hin. by apply (pi_mated _ _ _ Hinv i ci).
  - assert (i ∉ positions ps) as Hi.
    { intros Hin. apply (pi_mated _ _ _ Hinv i ci Hci) in Hin. congruence. }
    eapply wlp_mono.
    { eapply (pairScan_inv s0 agentA ci0 i); try done.
      - rewrite Hp. lia.
      - lia.
      - unfold len. lia.
      - intros j' Hj'. lia. }
    intros u s' (ps' & Hinv' & Hsub & Href). exists ps'. split; [done |].
    intros i' j' Hi' Hj'. destruct (decide (i' = i)) as [-> | ?].
    + destruct (decide (j' < len (currGen s))) as [Hlt | Hge].
      * apply Href. rewrite Hp. lia.
      * intros _ _ ci' cj' a b _ Hcj'. apply at_Some_lt in Hcj'.
        assert (length (currGen s) = length (currGen s0)) as Hlen.
        { pose proof (f_equal length (pi_ids _ _ _ Hinv)) as E.
          by rewrite !length_fmap in E. }
        unfold len in *. lia.
    + intros H1 H2. apply Hdone; [lia | lia | |].
      * intros Hin. by apply H1, Hsub.
      * intros Hin. by apply H2, Hsub.
Qed.

Lemma pairAgents_inv (s : Simulation) :
  Forall (λ c, mated c = false) (currGen s) →
  wlp pairAgents s
      (λ _ s', ∃ ps, PairingInv (with_matingPairs s []) s' ps
                     ∧ ∀ i j, 0 ≤ i → i < j < i + MatingK (params s) →
                              RefusedAt (with_matingPairs s []) ps i j).
Proof.
  intros Hun. unfold pairAgents. apply wlp_bind, wlp_get, wlp_bind, wlp_put.
  set (s0 := with_matingPairs s []).
  eapply wlp_mono.
  - unfold len. apply (wlp_forEach_seqZ
             (λ i s', ∃ ps, PairingInv s0 s' ps
                            ∧ ∀ i' j', 0 ≤ i' < i →
                                       i' < j' < i' + MatingK (params s0) →
                                       RefusedAt s0 ps i' j')).
    + intros i s1 Hi (ps & Hinv & Hdone). by apply (pairStep_inv s0 i s1 ps).
    + exists []. split; [| intros; lia]. split.
      * by repeat split.
      * done.
      * constructor.
      * constructor.
      * intros k c [_ Hc%list_elem_of_lookup_2]%at_Some. simpl in Hc.
        rewrite Forall_forall in Hun. rewrite (Hun c Hc).
        split; [done | by intros ?%elem_of_nil].
  - intros u s' (ps & Hinv & Hdone). exists ps. split; [done |].
    intros i j Hi Hj. destruct (decide (i < 0 + Z.of_nat (length (currGen s)))).
    + apply Hdone; [lia | done].
    + intros _ _ ci cj a b Hci%at_Some_lt. simpl in Hci. unfold len in Hci. lia.
Qed.







(** With a search width of at most 1 no pair is ever made, and the
    monogamous strategy fails. *)
Lemma pairAgents_narrow (s : Simulation) :
  MatingK (params s) ≤ 1 →
  Forall (λ c, mated c = false) (currGen s) →
  wlp pairAgents s (λ _ s', matingPairs s' = []).
Proof.
  intros HK Hun. eapply wlp_mono; [by apply pairAgents_inv |].
  intros ? s' (ps & [_ _ Hpairs _ _] & _).
  destruct Hpairs as [|pr p prs ps Hmade _]; [done |].
  destruct Hmade as (_ & _ & _ & _ & _ & _ & _ & _ & Hp & _). simpl in Hp. lia.
Qed.

(** ** Runs of the monogamous strategy with a narrow search *)

Lemma monogamousMating_narrow (gen : Z) (st : St) :
  MatingK (params st.1) ≤ 1 →
  Forall (λ c, mated c = false) (currGen st.1) →
  wlp (monogamousMating gen) st
      (λ e st', e = Some (ErrNoMatingPairs (sim_id st.1) gen)
                ∧ Keeps st.1 st'.1).
Proof.
  intros HK Hun. unfold monogamousMating. apply wlp_bind, wlp_onSim.
  eapply wlp_mono.
  { apply wlp_conj; [by apply pairAgents_narrow | apply pairAgents_Keeps]. }
  intros ? s1 [Hnil HKeeps]. apply wlp_bind, wlp_get. simpl.
  rewrite Hnil. rewrite bool_decide_eq_true_2 by done. apply wlp_ret.
  split; [| done]. destruct HKeeps as (? & ? & ? & ->). done.
Qed.

(** X17 (narrow monogamous search): under the monogamous strategy with a
    search width [MatingK] of at most 1, at least two founders and at
    least one generation to run, every run fails in its first generation
    step for want of mating pairs, whatever the sexes of the founders:
    the second loop of [pairAgents] never looks at another member.  The
    arena and the generation index are as [NewSimulation] made them. *)
Theorem run_monogamous_narrow (p : Parameters) (r : Rng)
    (Hmonogamous : Monogamous p = true) (Hnarrow : MatingK p ≤ 1)
    (Hfounders : 2 ≤ NumAgents p) (Hgenerations : 1 ≤ Generations p) :
  ∃ s r',
    run p r = Some (Some (ErrNoMatingPairs (SimulationId p) 1), (s, r'))
    ∧ agents s = agents (newSimulation p r)
    ∧ genBdrys s = [NumAgents p].
Proof.
  destruct (run_total p r) as (e & [s r'] & Hrun).
  exists s, r'. rewrite Hrun. rewrite Simulate_start in Hrun.
  destruct (Z.to_nat (Generations p)) as [|n] eqn:E; [lia |].
  cbn [simulateFrom] in Hrun. rewrite (bind_Some _ _ _ _ _ eq_refl) in Hrun.
  cbn [fst] in Hrun.
  assert (len (currGen (newSimulation p r)) = Z.max 0 (NumAgents p)) as Hlen.
  { unfold len. simpl. rewrite length_fmap, length_seqZ. lia. }
  rewrite bool_decide_eq_false_2 in Hrun by lia.
  destruct (shuffleCurrGen_perm
              (newSimulation p r, mkRng (stream r) (pos r + Z.to_nat (NumAgents p))))
    as (cg & Hsh & Hperm).
  rewrite (bind_Some _ _ _ _ _ Hsh) in Hrun.
  rewrite setPairFunc_monogamous in Hrun by done.
  unfold bind at 1 in Hrun.
  destruct (monogamousMating 1 _) as [[e1 st1]|] eqn:Hmono; [| done].
  apply monogamousMating_narrow in Hmono as [-> HK].
  - destruct st1 as [s1 r1]. injection Hrun as <- <- <-.
    destruct HK as (Ha & Hg & _). simpl in *.
    split; [done |]. split; [done |]. rewrite Hg. f_equal. lia.
  - done.
  - cbn [fst currGen with_currGen]. rewrite Hperm. simpl.
    apply Forall_fmap, Forall_forall. done.
Qed.

Lemma run_monogamous_narrow_witness :
  ∃ s r',
    run monogamousNarrow zeroRng
    = Some (Some (ErrNoMatingPairs (SimulationId monogamousNarrow) 1), (s, r'))
    ∧ agents s = agents (newSimulation monogamousNarrow zeroRng)
    ∧ genBdrys s = [NumAgents monogamousNarrow].
Proof.
  apply (run_monogamous_narrow monogamousNarrow zeroRng).
  - reflexivity.
  - simpl. lia.
  - simpl. lia.
  - simpl. lia.
Defined.

(** ** Runs of the unconstrained strategy *)








(** ** The ancestors that resolution finds *)

Lemma addParent_step (vec : list Z) (set : gset Z) (p : Z) :
  vec ≠ [] → set = list_to_set (tail vec) →
  ∃ new, (addParent (vec, set) p).1 = vec ++ new
         ∧ (addParent (vec, set) p).2 = list_to_set (tail (vec ++ new))
         ∧ Forall (λ x, x = p) new
         ∧ p ∈ tail (vec ++ new).
Proof.
  intros Hne ->. destruct vec as [|h rest]; [done |]. unfold addParent. simpl.
  case_bool_decide as Hin.
  - exists []. rewrite app_nil_r. simpl. split; [done |]. split; [done |].
    split; [constructor | set_solver].
  - exists [p]. simpl. split; [done |]. split; [| split].
    + rewrite list_to_set_app_L. set_solver.
    + by repeat constructor.
    + set_solver.
Qed.

Lemma addParents_step (vec : list Z) (set : gset Z) (m f : Z) :
  vec ≠ [] → set = list_to_set (tail vec) →
  ∃ new, (foldl addParent (vec, set) [m; f]).1 = vec ++ new
         ∧ (foldl addParent (vec, set) [m; f]).2 = list_to_set (tail (vec ++ new))
         ∧ Forall (λ x, x = m ∨ x = f) new
         ∧ m ∈ tail (vec ++ new) ∧ f ∈ tail (vec ++ new).
Proof.
  intros Hne Hset. simpl.
  destruct (addParent_step vec set m Hne Hset) as (new1 & H1 & H2 & H3 & H4).
  destruct (addParent (vec, set) m) as [vec1 set1]. simpl in *. subst vec1.
  destruct (addParent_step (vec ++ new1) set1 f) as (new2 & H5 & H6 & H7 & H8).
  { by destruct vec. }
  { done. }
  exists (new1 ++ new2). rewrite app_assoc. split; [done |]. split; [done |].
  split; [| split; [| done]].
  - apply Forall_app. split; (eapply Forall_impl; [eassumption |]); naive_solver.
  - destruct vec as [|h rest]; [done |]. simpl in *. set_solver.
Qed.

Lemma Ancestor_valid (ags : list Agent) (i x : Z) :
  ArenaGenerational ags → Ancestor ags i x →
  ∃ c, at_ ags x = Some c.
Proof.
  intros Harena. destruct 1 as [a x Ha Hg Hx | y c x _ Hc Hg Hx].
  - destruct (garena_parents _ Harena _ _ Ha Hg) as (m & f & Hm & Hf & _).
    destruct Hx as [-> | ->]; eauto.
  - destruct (garena_parents _ Harena _ _ Hc Hg) as (m & f & Hm & Hf & _).
    destruct Hx as [-> | ->]; eauto.
Qed.

Section Closure.
Variable ags : list Agent.
Variable id_ : Z.
Hypothesis Harena : ArenaGenerational ags.

Lemma BfsInv_step (sp : nat) (vec : list Z) (set : gset Z) (curr : Z) (c : Agent) :
  BfsInv ags id_ sp vec set →
  vec !! sp = Some curr → at_ ags curr = Some c → generation c ≠ 0 →
  BfsInv ags id_ (S sp) (foldl addParent (vec, set) [mother c; father c]).1
         (foldl addParent (vec, set) [mother c; father c]).2.
Proof.
  intros Hinv Hcurr Hc Hg.
  destruct Hinv as [Hhead Hset Hsound Hdone Horder Hfront].
  assert (vec ≠ []) as Hne by (by destruct vec).
  destruct (addParents_step vec set (mother c) (father c) Hne Hset)
    as (new & -> & -> & Hnew & Hm & Hf).
  destruct (garena_parents _ Harena _ _ Hc Hg) as (mo & fa & Hmo & Hfa & Hmog & Hfag).
  assert (∀ x, x ∈ new → ∃ cx, at_ ags x = Some cx
                                ∧ generation cx = generation c - 1) as Hnewgen.
  { intros x Hx. rewrite Forall_forall in Hnew.
    destruct (Hnew x Hx) as [-> | ->]; eauto. }
  assert (tail (vec ++ new) = tail vec ++ new) as Htail by (by destruct vec).
  assert (Ancestor ags id_ (mother c) ∧ Ancestor ags id_ (father c)) as [Ham Haf].
  { assert (curr = id_ ∨ Ancestor ags id_ curr) as [-> | Hanc].
    { destruct vec as [|h rest]; [done |]. simpl in Hhead. injection Hhead as ->.
      destruct sp as [|sp]; simpl in Hcurr; [left; congruence |].
      right. simpl in Hsound. rewrite Forall_forall in Hsound.
      by eapply Hsound, list_elem_of_lookup_2. }
    - split; eapply Ancestor_parent; eauto.
    - split; eapply Ancestor_more; eauto. }
  split.
  - by destruct vec.
  - done.
  - rewrite Htail. apply Forall_app. split; [done |].
    eapply Forall_impl; [exact Hnew |]. by intros x [-> | ->].
  - intros k x cx Hk Hx Hcx.
    destruct (decide (k = sp)) as [-> | Hksp].
    + rewrite lookup_app_l in Hx by (by eapply lookup_lt_Some).
      assert (x = curr) as -> by congruence. assert (cx = c) as -> by congruence.
      done.
    + assert (vec !! k = Some x) as Hx'.
      { apply lookup_lt_Some in Hcurr.
        rewrite lookup_app_l in Hx by lia. done. }
      destruct (Hdone k x cx) as (H1 & H2 & H3); [lia | done | done |].
      rewrite Htail. set_solver.
  - intros k1 k2 x1 x2 c1 c2 Hk Hx1 Hx2 Hc1 Hc2.
    apply lookup_app_Some in Hx2 as [Hx2 | [Hlen Hx2]].
    + apply lookup_lt_Some in Hx2 as Hk2.
      rewrite lookup_app_l in Hx1 by lia. by eapply (Horder k1 k2).
    + destruct (Hnewgen x2) as (c2' & Hc2' & Hg2); [by eapply list_elem_of_lookup_2 |].
      assert (c2' = c2) as -> by congruence. rewrite Hg2.
      apply lookup_app_Some in Hx1 as [Hx1 | [_ Hx1]].
      * eapply (Hfront curr c x1 c1); [done | done | | done].
        by eapply list_elem_of_lookup_2.
      * destruct (Hnewgen x1) as (c1' & Hc1' & Hg1); [by eapply list_elem_of_lookup_2 |].
        assert (c1' = c1) as -> by congruence. lia.
  - intros y cy x cx Hy Hcy Hx Hcx.
    assert (generation cy ≤ generation c) as Hyc.
    { apply lookup_app_Some in Hy as [Hy | [Hlen Hy]].
      - by eapply (Horder sp (S sp) curr y); [lia | ..].
      - destruct (Hnewgen y) as (cy' & Hcy' & Hgy); [by eapply list_elem_of_lookup_2 |].
        assert (cy' = cy) as -> by congruence. lia. }
    apply elem_of_app in Hx as [Hx | Hx].
    + assert (generation c - 1 ≤ generation cx); [| lia].
      by eapply (Hfront curr c x cx).
    + destruct (Hnewgen x Hx) as (cx' & Hcx' & Hgx).
      assert (cx' = cx) as -> by congruence. lia.
Qed.

(** When the loop of [setAncestors] ends, the vector is closed: it holds
    the parents of each of its entries that is no founder. *)
Lemma ancestorsLoop_closed (fuel : nat) :
  ∀ (sp : nat) (vec : list Z) (set : gset Z) (gen : Z) (res : list Z * gset Z),
    BfsInv ags id_ sp vec set →
    ancestorsLoop fuel ags vec set sp gen = Some res →
    head res.1 = Some id_
    ∧ res.2 = list_to_set (tail res.1)
    ∧ Forall (Ancestor ags id_) (tail res.1)
    ∧ ∀ x c, x ∈ res.1 → at_ ags x = Some c → generation c ≠ 0 →
             mother c ∈ tail res.1 ∧ father c ∈ tail res.1.
Proof.
  induction fuel as [|fuel IH]; intros sp vec set gen res Hinv; [done |].
  rewrite ancestorsLoop_S. case_bool_decide as Hsp.
  - destruct (lookup_lt_is_Some_2 vec sp Hsp) as [curr Hcurr]. rewrite Hcurr. simpl.
    destruct (at_ ags curr) as [c|] eqn:Hc; [| done]. simpl.
    case_bool_decide as Hg.
    + intros [= <-]. simpl.
      split; [apply (bfs_head _ _ _ _ _ Hinv) |].
      split; [apply (bfs_set _ _ _ _ _ Hinv) |].
      split; [apply (bfs_sound _ _ _ _ _ Hinv) |].
      intros x cx [k Hk]%list_elem_of_lookup Hcx Hgx.
      destruct (decide (k < sp)%nat) as [Hlt | Hge].
      * by destruct (bfs_done _ _ _ _ _ Hinv k x cx Hlt Hk Hcx) as (_ & ? & ?).
      * exfalso.
        assert (generation cx ≤ generation c)
          by (eapply (bfs_order _ _ _ _ _ Hinv sp k curr x); [lia | done ..]).
        pose proof (garena_nonneg _ Harena _ _ Hcx). lia.
    + intros Hres. eapply IH; [| exact Hres]. by apply (BfsInv_step sp vec set curr c).
  - intros [= <-]. simpl.
    split; [apply (bfs_head _ _ _ _ _ Hinv) |].
    split; [apply (bfs_set _ _ _ _ _ Hinv) |].
    split; [apply (bfs_sound _ _ _ _ _ Hinv) |].
    intros x cx [k Hk]%list_elem_of_lookup Hcx Hgx.
    apply lookup_lt_Some in Hk as Hkl.
    by destruct (bfs_done _ _ _ _ _ Hinv k x cx ltac:(lia) Hk Hcx) as (_ & ? & ?).
Qed.

Lemma BfsInv_start (set : gset Z) : set = ∅ → BfsInv ags id_ 0 [id_] set.
Proof.
  intros ->. split; simpl; try done.
  - intros k x c Hk. lia.
  - intros k1 k2 x1 x2 c1 c2 _ H1 H2.
    apply list_lookup_singleton_Some in H1 as [_ <-].
    apply list_lookup_singleton_Some in H2 as [_ <-]. intros ??. simplify_eq. lia.
  - intros y cy x c [= <-] Hcy ->%list_elem_of_singleton Hc. simplify_eq. lia.
Qed.
End Closure.
Lemma set_at_inj {A : Type} (l : list A) (i : Z) (x y : A) :
  0 ≤ i < len l → set_at l i x = set_at l i y → x = y.
Proof.
  intros Hi Heq.
  pose proof (at_set_at_eq l i x Hi) as Hx. rewrite Heq, at_set_at_eq in Hx by done.
  congruence.
Qed.

(** What [setAncestors] stores for an agent of an arena ordered by
    generation: the ancestors of the agent, each once. *)
Lemma setAncestors_exact (ags : list Agent) (id_ : Z) (a : Agent) :
  ArenaGenerational ags → at_ ags id_ = Some a →
  ∃ rest,
    setAncestors ags id_
    = Some (set_at ags id_ (setAncestry a (merge_sort (≤) rest) (list_to_set rest)))
    ∧ NoDup rest
    ∧ Forall (λ x, 0 ≤ x < id_) rest
    ∧ ∀ x, x ∈ rest ↔ Ancestor ags id_ x.
Proof.
  intros Harena Ha.
  pose proof (ArenaGenerational_ordered _ Harena) as [Hids Hnn Hmono Hpar].
  pose proof (at_Some_lt _ _ _ Ha) as Hid.
  destruct (setAncestors_found ags id_ a (λ x, 0 ≤ x < id_))
    as (rest & Hres & Hnd & Hlow & _).
  { done. }
  { intros curr c Hcurr Hc Hg. destruct (Hpar curr c Hc Hg).
    destruct Hcurr as [-> | ?]; lia. }
  { done. }
  { by apply (Hnn id_). }
  exists rest. split; [done |]. split; [done |]. split; [done |].
  pose proof Hres as Hres'. unfold setAncestors in Hres'. rewrite Ha in Hres'.
  simpl in Hres'. case_bool_decide; [done |].
  destruct (ancestorsLoop (length ags + 2) ags [id_] ∅ 0 (generation a))
    as [acc|] eqn:Hloop; [| done].
  simpl in Hres'. injection Hres' as Hres'.
  apply set_at_inj in Hres'; [| done].
  assert (acc.2 = list_to_set rest) as Hset by (by injection Hres').
  destruct (ancestorsLoop_closed ags id_ Harena _ _ _ _ _ _
              (BfsInv_start ags id_ ∅ eq_refl) Hloop)
    as (Hhead & Hacc & Hsound & Hclosed).
  assert (∀ x, x ∈ rest ↔ x ∈ tail acc.1) as Hsame.
  { intros x. rewrite <- (elem_of_list_to_set (C := gset Z)), <- Hset, Hacc.
    by rewrite elem_of_list_to_set. }
  intros x. rewrite Hsame. split.
  - intros Hx. rewrite Forall_forall in Hsound. by apply Hsound.
  - assert (id_ ∈ acc.1) as Hin.
    { destruct acc.1 as [|h t]; [done |]. simpl in Hhead. injection Hhead as ->. by left. }
    induction 1 as [a' x Ha' Hg Hx | y c x _ IH Hc Hg Hx].
    + destruct (Hclosed id_ a' Hin Ha' Hg) as [Hm Hf]. by destruct Hx as [-> | ->].
    + assert (y ∈ acc.1) as Hy.
      { destruct acc.1 as [|h t]; [done |]. simpl in IH. by right. }
      destruct (Hclosed y c Hy Hc Hg) as [Hm Hf]. by destruct Hx as [-> | ->].
Qed.

(** X19 (ancestors resolved): in an arena ordered by generation in which
    the parents of every agent that is no founder are of the generation
    just before its own, as every arena that the engine makes is,
    resolving the ancestors of an agent returns and changes this agent
    only, in its ancestor vector and its ancestor set.  The set holds
    exactly the ancestors of the agent: its parents, their parents, and so
    on up to the founders; the vector lists the same ids once each, in
    ascending order. *)
Theorem setAncestors_ancestors (ags : list Agent) (id_ : Z) (a : Agent)
    (Harena : ArenaGenerational ags) (Hagent : at_ ags id_ = Some a) :
  ∃ vec set,
    setAncestors ags id_ = Some (set_at ags id_ (setAncestry a vec set))
    ∧ (∀ x, x ∈ set ↔ Ancestor ags id_ x)
    ∧ (∀ x, x ∈ vec ↔ Ancestor ags id_ x)
    ∧ StronglySorted Z.lt vec.
Proof.
  destruct (setAncestors_exact ags id_ a Harena Hagent)
    as (rest & Hres & Hnd & _ & Hanc).
  exists (merge_sort (≤) rest), (list_to_set rest). split; [done |].
  split; [| split].
  - intros x. by rewrite elem_of_list_to_set.
  - intros x. by rewrite merge_sort_Permutation.
  - by apply sorted_NoDup_ascending.
Qed.

Lemma setAncestors_ancestors_witness :
  ∃ vec set,
    setAncestors testArena 9
    = Some (set_at testArena 9 (setAncestry (testAgent 9 3 MALE 5 7 []) vec set))
    ∧ (∀ x, x ∈ set ↔ Ancestor testArena 9 x)
    ∧ (∀ x, x ∈ vec ↔ Ancestor testArena 9 x)
    ∧ StronglySorted Z.lt vec.
Proof.
  apply (setAncestors_ancestors testArena 9 (testAgent 9 3 MALE 5 7 [])).
  - apply testArena_generational.
  - reflexivity.
Defined.
(** ** The number of ancestors *)

Lemma Ancestor_split (ags : list Agent) (i x : Z) :
  Ancestor ags i x →
  ∃ a, at_ ags i = Some a ∧ generation a ≠ 0
       ∧ (x = mother a ∨ x = father a
          ∨ Ancestor ags (mother a) x ∨ Ancestor ags (father a) x).
Proof.
  induction 1 as [a x Ha Hg Hx | y c x _ IH Hc Hg Hx].
  - exists a. split; [done |]. split; [done |]. by destruct Hx; auto.
  - destruct IH as (a & Ha & Hga & Hy). exists a. split; [done |]. split; [done |].
    right. right. destruct Hy as [-> | [-> | [Hy | Hy]]].
    + left. by eapply Ancestor_parent.
    + right. by eapply Ancestor_parent.
    + left. by eapply Ancestor_more.
    + right. by eapply Ancestor_more.
Qed.

Lemma size_union_le (X Y : gset Z) : (size (X ∪ Y) ≤ size X + size Y)%nat.
Proof.
  rewrite size_union_alt. apply Nat.add_le_mono_l, subseteq_size. set_solver.
Qed.

(** An agent of generation [n] has at most [2^(n+1) - 2] ancestors. *)
Lemma Ancestor_bound (ags : list Agent) (n : nat) :
  ArenaGenerational ags →
  ∀ i a, at_ ags i = Some a → generation a = Z.of_nat n →
         ∃ S : gset Z, (∀ x, Ancestor ags i x → x ∈ S)
                       ∧ Z.of_nat (size S) ≤ 2 ^ (Z.of_nat n + 1) - 2.
Proof.
  intros Harena. induction n as [|n IH]; intros i a Ha Hg.
  - exists ∅. split; [| by rewrite size_empty].
    intros x (a' & Ha' & Hg' & _)%Ancestor_split.
    assert (a' = a) as -> by congruence. simpl in Hg. done.
  - destruct (garena_parents _ Harena _ _ Ha) as (m & f & Hm & Hf & Hmg & Hfg); [lia |].
    destruct (IH _ _ Hm) as (Sm & Hm1 & Hm2); [lia |].
    destruct (IH _ _ Hf) as (Sf & Hf1 & Hf2); [lia |].
    exists ({[mother a]} ∪ {[father a]} ∪ Sm ∪ Sf). split.
    + intros x (a' & Ha' & _ & Hx)%Ancestor_split.
      assert (a' = a) as -> by congruence.
      destruct Hx as [-> | [-> | [Hx | Hx]]]; [set_solver | set_solver | |].
      * apply Hm1 in Hx. set_solver.
      * apply Hf1 in Hx. set_solver.
    + pose proof (size_union_le ({[mother a]} ∪ {[father a]} ∪ Sm) Sf).
      pose proof (size_union_le ({[mother a]} ∪ {[father a]}) Sm).
      pose proof (size_union_le {[mother a]} {[father a]}).
      rewrite !size_singleton in *.
      replace (Z.of_nat (S n) + 1) with (Z.succ (Z.of_nat n + 1)) by lia.
      rewrite Z.pow_succ_r by lia. lia.
Qed.

(** X20 (number of ancestors): in an arena ordered by generation in which
    parents are of the generation just before, the ancestors resolved for
    an agent of generation [g] with the id [id_] are as many in the vector
    as in the set, at most [2^(g+1) - 2], the figure that the report on
    the number of ancestors prints as [max-ancestors], and at most [id_],
    since every ancestor has a smaller id. *)
Theorem setAncestors_count (ags : list Agent) (id_ : Z) (a : Agent)
    (Harena : ArenaGenerational ags) (Hagent : at_ ags id_ = Some a) :
  ∃ ags' a',
    setAncestors ags id_ = Some ags'
    ∧ at_ ags' id_ = Some a'
    ∧ len (ancestorVec a') = Z.of_nat (size (ancestorSet a'))
    ∧ len (ancestorVec a') ≤ 2 ^ (generation a + 1) - 2
    ∧ len (ancestorVec a') ≤ id_.
Proof.
  destruct (setAncestors_exact ags id_ a Harena Hagent)
    as (rest & Hres & Hnd & Hlow & Hanc).
  pose proof (at_Some_lt _ _ _ Hagent) as Hid.
  eexists _, _. split; [exact Hres |]. split; [by apply at_set_at_eq |]. simpl.
  assert (len (merge_sort Z.le rest) = Z.of_nat (size (list_to_set rest : gset Z)))
    as Hlen.
  { unfold len. rewrite merge_sort_Permutation. by rewrite size_list_to_set. }
  split; [done |]. split.
  - pose proof (garena_nonneg _ Harena _ _ Hagent) as Hnn.
    destruct (Ancestor_bound ags (Z.to_nat (generation a)) Harena id_ a Hagent)
      as (S & HS & Hsize); [lia |].
    rewrite Z2Nat.id in Hsize by done.
    assert (size (list_to_set rest : gset Z) ≤ size S)%nat; [| lia].
    apply subseteq_size. intros x Hx%elem_of_list_to_set. by apply HS, Hanc.
  - unfold len. rewrite merge_sort_Permutation.
    pose proof (below_length id_ rest Hnd Hlow). lia.
Qed.

Lemma setAncestors_count_witness :
  ∃ ags' a',
    setAncestors testArena 9 = Some ags'
    ∧ at_ ags' 9 = Some a'
    ∧ len (ancestorVec a') = Z.of_nat (size (ancestorSet a'))
    ∧ len (ancestorVec a') ≤ 2 ^ (generation (testAgent 9 3 MALE 5 7 []) + 1) - 2
    ∧ len (ancestorVec a') ≤ 9.
Proof.
  apply (setAncestors_count testArena 9 (testAgent 9 3 MALE 5 7 [])).
  - apply testArena_generational.
  - reflexivity.
Defined.
(** ** The generational distance *)

Lemma generationFoundFrom_spec (ags : list Agent) (avec : list Z) (bset : gset Z) :
  Forall (λ x, is_Some (at_ ags x)) avec →
  ∀ n : nat,
    (n ≤ length avec)%nat →
    ∃ g, generationFoundFrom n ags avec bset = Some g
         ∧ (g = 0 ∧ (∀ k x, (k < n)%nat → avec !! k = Some x → x ∉ bset)
            ∨ ∃ k y c, (k < n)%nat ∧ avec !! k = Some y ∧ y ∈ bset
                       ∧ at_ ags y = Some c ∧ g = generation c
                       ∧ ∀ k' x, (k < k' < n)%nat → avec !! k' = Some x → x ∉ bset).
Proof.
  intros Hvalid. induction n as [|n IH]; intros Hn.
  - exists 0. split; [done |]. left. split; [done |]. intros; lia.
  - simpl. destruct (lookup_lt_is_Some_2 avec n) as [y Hy]; [lia |].
    rewrite Hy. simpl. case_bool_decide as Hin.
    + rewrite Forall_forall in Hvalid.
      destruct (Hvalid y) as [c Hc]; [by eapply list_elem_of_lookup_2 |].
      rewrite Hc. simpl. exists (generation c). split; [done |]. right.
      exists n, y, c. repeat split; try done; [lia |]. intros; lia.
    + destruct IH as (g & Hg & Hcase); [lia |]. exists g. split; [done |].
      destruct Hcase as [[-> Hnone] | (k & y' & c & Hk & Hy' & Hin' & Hc & -> & Hlast)].
      * left. split; [done |]. intros k x Hk Hx.
        destruct (decide (k = n)) as [-> | ?]; [congruence |]. apply (Hnone k); [lia | done].
      * right. exists k, y', c. repeat split; try done; [lia |].
        intros k' x Hk' Hx. destruct (decide (k' = n)) as [-> | ?]; [congruence |].
        apply (Hlast k'); [lia | done].
Qed.



(** ** The reports *)

Lemma emit_returns (o : Output) (s : Simulation) (out : list Output) :
  emit o (s, out) = Some (tt, (s, out ++ [o])).
Proof. done. Qed.

Lemma commonWith_returns (ags : list Agent) (agent : Agent) (js : list Z) :
  Forall (λ j, 0 ≤ j < len ags) js →
  ∀ acc, is_Some (commonWith ags agent js acc).
Proof.
  induction 1 as [|j js Hj _ IH]; intros acc; simpl; [by eexists |].
  destruct (at_lt ags j Hj) as [b ->]. simpl.
  destruct (countCommonLoop_bounds (ancestorVec agent) (ancestorVec b)
              (S (length (ancestorVec agent) + length (ancestorVec b))) 0 0 0)
    as (t & Ht & _); [lia |].
  unfold CountCommonElementsSortedArray. rewrite Ht. simpl. apply IH.
Qed.

Lemma commonAll_returns (ags sl : list Agent) :
  Forall (λ a, 0 ≤ id a) sl → ∀ acc, is_Some (commonAll ags sl acc).
Proof.
  induction 1 as [|a sl Ha _ IH]; intros acc; simpl; [by eexists |].
  destruct (commonWith_returns ags a (seqZ (id a + 1) (len ags - (id a + 1)))) with acc
    as [acc' ->].
  { apply Forall_forall. intros j Hj%elem_of_seqZ. lia. }
  simpl. apply IH.
Qed.

Lemma generationDiff_returns (ags : list Agent) (a b : Agent) :
  Forall (λ x, 0 ≤ x < len ags) (ancestorVec a) → is_Some (generationDiff ags a b).
Proof.
  intros Hvec.
  destruct (generationFoundFrom_spec ags (ancestorVec a) (ancestorSet b))
    with (length (ancestorVec a)) as (g & Hg & _).
  { eapply Forall_impl; [exact Hvec |]. intros x Hx. simpl.
    destruct (at_lt ags x Hx) as [c ->]. by eexists. }
  { lia. }
  unfold generationDiff. rewrite Hg. by eexists.
Qed.

Lemma genDiffInner_returns (ags : list Agent) (lastGen : Z) (a : Agent) :
  Forall (λ x, 0 ≤ x < len ags) (ancestorVec a) →
  ∀ (j : nat) acc, (j < length ags)%nat → is_Some (genDiffInner j ags lastGen a acc).
Proof.
  intros Hvec. induction j as [|j IH]; intros acc Hj; simpl; [by eexists |].
  destruct (lookup_lt_is_Some_2 ags (S j) Hj) as [b ->]. simpl.
  case_bool_decide; [by eexists |].
  destruct (generationDiff_returns ags a b Hvec) as [d ->]. simpl.
  apply IH. lia.
Qed.

Lemma genDiffOuter_returns (ags : list Agent) (lastGen : Z) :
  IdsOK ags →
  (∀ j a, at_ ags j = Some a → Forall (λ x, 0 ≤ x < len ags) (ancestorVec a)) →
  ∀ (n : nat) acc count,
    (n ≤ length ags)%nat → is_Some (genDiffOuter n ags lastGen acc count).
Proof.
  intros Hids Hvec. induction n as [|i IH]; intros acc count Hn; simpl; [by eexists |].
  destruct (lookup_lt_is_Some_2 ags i) as [a Ha]; [lia |]. rewrite Ha. simpl.
  case_bool_decide; [by eexists |].
  assert (at_ ags (Z.of_nat i) = Some a) as Hat by (by rewrite at_of_nat).
  destruct (genDiffInner_returns ags lastGen a (Hvec _ _ Hat)
              (Z.to_nat (id a - 1)) acc) as [acc' ->].
  { rewrite (Hids _ _ Hat). lia. }
  simpl. apply IH. lia.
Qed.

Section Reports.
Variables (s : Simulation) (gen lo : Z).
Hypothesis Hlast : lastGeneration s = Some gen.
Hypothesis Hids : IdsOK (agents s).
Hypothesis Hlo : at_ (genBdrys s) (gen - 1) = Some lo.
Hypothesis Hrange : 0 ≤ lo ≤ len (agents s) - 1.
Hypothesis Hvec : ∀ j a, at_ (agents s) j = Some a →
                         Forall (λ x, 0 ≤ x < len (agents s)) (ancestorVec a).

Lemma reportNumAncestors_returns (out : list Output) :
  ∃ o, reportNumAncestors (s, out) = Some (tt, (s, out ++ [o])).
Proof.
  unfold reportNumAncestors.
  rewrite (bind_Some _ _ (s, out) (s, out) (s, out)) by done. cbn [fst].
  erewrite bind_Some by (unfold lift; rewrite Hlast; reflexivity).
  erewrite bind_Some by (unfold lift; rewrite Hlo; reflexivity).
  destruct (slice_ids (agents s) lo (len (agents s))) as [Hsl _]; [done | lia.. |].
  erewrite bind_Some by (unfold lift; rewrite Hsl; reflexivity).
  rewrite emit_returns. by eexists.
Qed.

Lemma reportCommonAncestors_returns (out : list Output) :
  ∃ o, reportCommonAncestors (s, out) = Some (tt, (s, out ++ [o])).
Proof.
  unfold reportCommonAncestors.
  rewrite (bind_Some _ _ (s, out) (s, out) (s, out)) by done. cbn [fst].
  erewrite bind_Some by (unfold lift; rewrite Hlast; reflexivity).
  erewrite bind_Some by (unfold lift; rewrite Hlo; reflexivity).
  destruct (slice_ids (agents s) lo (len (agents s) - 1)) as [Hsl Hsid];
    [done | lia.. |].
  erewrite bind_Some by (unfold lift; rewrite Hsl; reflexivity).
  match goal with |- context [commonAll ?ags ?sl ?acc] =>
    destruct (commonAll_returns ags sl) with acc as [stats Hstats] end.
  { apply Forall_forall. intros a Ha.
    assert (id a ∈ seqZ lo (len (agents s) - 1 - lo)) as Hin.
    { rewrite <- Hsid. by apply list_elem_of_fmap_2. }
    apply elem_of_seqZ in Hin. lia. }
  erewrite bind_Some by (unfold lift; rewrite Hstats; reflexivity).
  rewrite emit_returns. by eexists.
Qed.

Lemma reportGenDiff_returns (out : list Output) :
  ∃ o, reportGenDiff (s, out) = Some (tt, (s, out ++ [o])).
Proof.
  unfold reportGenDiff.
  rewrite (bind_Some _ _ (s, out) (s, out) (s, out)) by done. cbn [fst].
  erewrite bind_Some by (unfold lift; rewrite Hlast; reflexivity).
  case_bool_decide; [rewrite emit_returns; by eexists |].
  destruct (genDiffOuter_returns (agents s) gen Hids Hvec (length (agents s))
              (mkStats MaxInt 0 0) 0) as [res Hres]; [done |].
  erewrite bind_Some by (unfold lift; rewrite Hres; reflexivity).
  rewrite emit_returns. by eexists.
Qed.

End Reports.
(** ** The gene report *)

Lemma tabulateGenes_returns (gs : list string) :
  Forall Parses gs → ∀ tables, ∃ tables', tabulateGenes gs tables = inl tables'.
Proof.
  induction 1 as [|g gs [i Hg] _ IH]; intros tables; simpl; [by eexists |].
  rewrite Hg. apply IH.
Qed.

Lemma tabulateAgents_returns (ags : list Agent) :
  Forall (λ a, Forall Parses (genes a)) ags →
  ∀ tables, ∃ tables', tabulateAgents ags tables = inl tables'.
Proof.
  induction 1 as [|a ags Ha _ IH]; intros tables; simpl; [by eexists |].
  destruct (tabulateGenes_returns _ Ha tables) as [tables' ->]. apply IH.
Qed.

(** With genes that convert, the analysis of a slice of agents prints its
    line when the slice has an agent, and panics when it has none. *)
Lemma analyzeGenes_returns (sl : list Agent) (s : Simulation) (out : list Output) :
  Forall (λ a, Forall Parses (genes a)) sl →
  (sl = [] → analyzeGenes sl (s, out) = None)
  ∧ (sl ≠ [] → ∃ o, analyzeGenes sl (s, out) = Some (None, (s, out ++ [o]))).
Proof.
  intros Hsl. unfold analyzeGenes.
  rewrite (bind_Some _ _ (s, out) (s, out) (s, out)) by done. cbn [fst].
  destruct (tabulateAgents_returns sl Hsl (∅, ∅)) as [[geneTable individualTable] ->].
  split.
  - intros ->. done.
  - intros Hne. destruct sl as [|first sl]; [done |].
    erewrite bind_Some by reflexivity.
    erewrite bind_Some by apply emit_returns. by eexists.
Qed.

Lemma slice_empty {A : Type} (l : list A) (lo hi : Z) (sl : list A) :
  slice l lo hi = Some sl → (sl = [] ↔ lo = hi).
Proof.
  unfold slice. case_bool_decide as Hr; [| done]. intros [= <-].
  unfold len in Hr. split.
  - intros Hnil. apply (f_equal length) in Hnil.
    rewrite length_take, length_drop in Hnil. simpl in Hnil. lia.
  - intros ->. by rewrite Nat.sub_diag.
Qed.

Lemma slice_Forall {A : Type} (P : A → Prop) (l : list A) (lo hi : Z) (sl : list A) :
  Forall P l → slice l lo hi = Some sl → Forall P sl.
Proof.
  unfold slice. case_bool_decide; [| done]. intros Hl [= <-].
  by apply Forall_take, Forall_drop.
Qed.

(** The loop of [reportGenes] in an arena whose genes convert, over
    boundaries that never decrease from [start] on and lie in the arena:
    it panics when it comes to analyse a generation with no agent, and
    otherwise returns no error and changes nothing but the output. *)
Lemma reportGenesFrom_returns (s : Simulation) (lastGenOnly : bool) :
  Forall (λ a, Forall Parses (genes a)) (agents s) →
  ∀ (bdrys : list Z) (start : Z) (out : list Output),
    0 ≤ start → Sorted Z.le (start :: bdrys) →
    Forall (λ b, b ≤ len (agents s)) bdrys →
    if analysesEmpty bdrys start (len (agents s)) lastGenOnly
    then reportGenesFrom bdrys start lastGenOnly (s, out) = None
    else ∃ out', reportGenesFrom bdrys start lastGenOnly (s, out)
                 = Some (None, (s, out')).
Proof.
  intros Hgenes. induction bdrys as [|stop bdrys IH]; intros start out H0 Hs Hle.
  - simpl. by eexists.
  - apply Sorted_inv in Hs as [Hs Hhd]. apply HdRel_inv in Hhd.
    apply Forall_cons in Hle as [Hstop Hle].
    cbn [analysesEmpty reportGenesFrom].
    rewrite (bind_Some _ _ (s, out) (s, out) (s, out)) by done. cbn [fst].
    destruct (negb lastGenOnly || bool_decide (stop = len (agents s))) eqn:Hsel.
    + assert (slice (agents s) start stop
              = Some (take (Z.to_nat stop - Z.to_nat start)
                           (drop (Z.to_nat start) (agents s)))) as Hsl.
      { unfold slice. by rewrite bool_decide_eq_true_2. }
      set (sl := take _ _) in Hsl.
      destruct (analyzeGenes_returns sl s out) as [Hnil Hcons].
      { by eapply slice_Forall. }
      assert (∀ {B} (k : option Err → M AnSt B),
                bind (bind (lift (slice (agents s) start stop)) analyzeGenes) k (s, out)
                = match analyzeGenes sl (s, out) with
                  | Some (a, st') => k a st'
                  | None => None
                  end) as Hrun.
      { intros B k. unfold bind, lift. by rewrite Hsl. }
      rewrite Hrun. cbn [andb].
      destruct (decide (start = stop)) as [Heq | Hne].
      * rewrite (bool_decide_eq_true_2 _ Heq). cbn [orb].
        rewrite Hnil; [done |]. by apply (slice_empty _ _ _ _ Hsl).
      * rewrite (bool_decide_eq_false_2 _ Hne). cbn [orb].
        destruct Hcons as [o Ho].
        { intros Hnil'. by apply (slice_empty _ _ _ _ Hsl) in Hnil'. }
        rewrite Ho. apply IH; [lia | done | done].
    + cbn [andb orb]. unfold bind at 1. cbn [ret].
      apply IH; [lia | done | done].
Qed.

(** The loop of [reportGenes] comes to analyse an empty generation when
    a boundary that it analyses repeats the boundary before. *)
Lemma analysesEmpty_true (bdrys : list Z) (n : Z) (lastGenOnly : bool) :
  ∀ start,
    analysesEmpty bdrys start n lastGenOnly = true
    ↔ ∃ (k : nat) stop,
        bdrys !! k = Some stop ∧ (start :: bdrys) !! k = Some stop
        ∧ (lastGenOnly = false ∨ stop = n).
Proof.
  induction bdrys as [|b bdrys IH]; intros start; simpl.
  - split; [done |]. by intros (k & stop & Hk & _).
  - rewrite orb_true_iff, andb_true_iff, orb_true_iff, negb_true_iff,
      !bool_decide_eq_true, IH. split.
    + intros [[Hsel ->] | (k & stop & Hk & Hk' & Hsel)].
      * exists 0%nat, b. done.
      * exists (S k), stop. done.
    + intros ([|k] & stop & Hk & Hk' & Hsel); simpl in *.
      * left. simplify_eq. done.
      * right. by exists k, stop.
Qed.
(** ** The state that a run leaves to the analysis *)

(** The loop of [Simulate] only appends to the generation index. *)
Lemma simulateFrom_head (s0 : Simulation) (n : nat) :
  ∀ (i : Z) (st : St),
    genBdrys st.1 ≠ [] →
    wlp (simulateFrom n i (setPairFunc s0)) st
        (λ _ st', head (genBdrys st'.1) = head (genBdrys st.1)).
Proof.
  induction n as [|n IH]; intros i st Hne; simpl.
  - by apply wlp_ret.
  - apply wlp_bind, wlp_get. case_bool_decide; [by apply wlp_ret |].
    apply wlp_bind. eapply wlp_mono; [apply shuffleCurrGen_Keeps |].
    intros ? st1 (_ & Hb1 & _). simpl in Hb1.
    apply wlp_bind. eapply wlp_mono; [apply setPairFunc_Grows |].
    intros e st2 [(_ & Hb2 & _) _]. simpl in Hb2.
    destruct e as [err|]; [apply wlp_ret; congruence |].
    apply wlp_bind, wlp_onSim, wlp_bind, wlp_get, wlp_put.
    apply wlp_bind, wlp_onSim. simpl.
    eapply wlp_mono; [apply setCurrGen_Keeps |].
    intros ? s3 (_ & Hb3 & _). simpl in Hb3.
    eapply wlp_mono.
    + apply (IH (i + 1)). simpl. rewrite Hb3. by destruct (genBdrys st2.1).
    + intros e st' Hhd. simpl in *. rewrite Hhd, Hb3, Hb2, Hb1.
      by destruct (genBdrys st.1).
Qed.

(** The first boundary of a run is the number of founders. *)
Lemma run_first_boundary (p : Parameters) (r : Rng) (e : option Err) (st : St) :
  run p r = Some (e, st) → head (genBdrys st.1) = Some (Z.max 0 (NumAgents p)).
Proof.
  rewrite Simulate_start. intros Hsim.
  by rewrite (simulateFrom_head _ _ 1 (newSimulation p r, _) ltac:(done) e st Hsim).
Qed.

Lemma at_head {A : Type} (l : list A) : at_ l 0 = head l.
Proof. unfold at_. simpl. by destruct l. Qed.

(** The genes of a lineal arena whose founders have ids of type [int]
    convert. *)
Lemma Lineage_Parses (s : Simulation) (b : Z) :
  Lineage s → head (genBdrys s) = Some b → b - 1 ≤ MaxInt →
  Forall (λ a, Forall Parses (genes a)) (agents s).
Proof.
  intros (Hlin & _ & Hlay) Hhd Hb. apply Forall_forall.
  intros a [j Ha]%list_elem_of_lookup. apply Forall_forall.
  intros g [k Hg]%list_elem_of_lookup.
  assert (at_ (agents s) (Z.of_nat j) = Some a) as Hat by (by rewrite at_of_nat).
  destruct (lin_genes _ _ Hlin _ _ Hat) as [_ Hfrom].
  destruct (Hfrom k g Hg) as (f & fa & n & Hfa & Hgen & -> & _).
  destruct (Hlay _ _ Hfa) as [(hi & Hhi & Hf) _].
  rewrite Hgen, at_head, Hhd in Hhi. injection Hhi as <-.
  apply at_Some_lt in Hfa. unfold Parses.
  rewrite Atoi_mutated by lia. by eexists.
Qed.

(** In a lineal arena every generation up to that of an agent has an
    agent. *)
Lemma Lineal_generations (p : Parameters) (ags : list Agent) (n : nat) :
  Lineal p ags →
  ∀ j a k, at_ ags j = Some a → 0 ≤ k → generation a = k + Z.of_nat n →
           ∃ j' a', at_ ags j' = Some a' ∧ generation a' = k.
Proof.
  intros Hlin. induction n as [|n IH]; intros j a k Ha Hk Hg.
  - exists j, a. split; [done | lia].
  - destruct (lin_parents _ _ Hlin j a Ha) as (m & f & Hm & _ & Hgm & _); [lia |].
    apply (IH (mother a) m k); [done | done | lia].
Qed.

Section Index.
Variables (s : Simulation) (gen : Z).
Hypothesis Hlin : Lineage s.
Hypothesis Hlast : lastGeneration s = Some gen.

Lemma last_agent : ∃ a, at_ (agents s) (len (agents s) - 1) = Some a ∧ generation a = gen.
Proof.
  unfold lastGeneration in Hlast.
  destruct (at_ (agents s) (len (agents s) - 1)) as [a|]; [| done].
  exists a. split; [done |]. simpl in Hlast. congruence.
Qed.

Lemma boundary_le_len (k b : Z) :
  at_ (genBdrys s) k = Some b → b ≤ len (agents s).
Proof.
  destruct Hlin as (_ & [Hsorted Hl] & _). intros Hb.
  rewrite last_lookup in Hl.
  assert (at_ (genBdrys s) (Z.of_nat (pred (length (genBdrys s))))
          = Some (len (agents s))) as Hl' by (by rewrite at_of_nat).
  eapply Sorted_at_le; [exact Hsorted | exact Hb | exact Hl' |].
  apply at_Some_lt in Hb. unfold len in Hb. lia.
Qed.

(** The boundary of the generation of the last agent is the length of
    the arena. *)
Lemma last_boundary : 0 ≤ gen ∧ at_ (genBdrys s) gen = Some (len (agents s)).
Proof.
  destruct last_agent as (a & Ha & Hg).
  destruct Hlin as (_ & _ & Hlay).
  destruct (Hlay _ _ Ha) as [(hi & Hhi & Hlt) _]. rewrite Hg in Hhi.
  pose proof (boundary_le_len _ _ Hhi).
  split; [by apply at_Some in Hhi as [? _] |].
  rewrite Hhi. f_equal. lia.
Qed.

(** Up to the generation of the last agent no generation is empty. *)
Lemma boundaries_strict (k : nat) (b : Z) :
  Z.of_nat k ≤ gen →
  genBdrys s !! k = Some b → (0 :: genBdrys s) !! k = Some b → False.
Proof.
  intros Hk Hb Hprev.
  destruct last_agent as (a & Ha & Hg).
  destruct Hlin as (Hl & _ & Hlay).
  destruct (Lineal_generations _ _ (Z.to_nat (gen - Z.of_nat k)) Hl _ a (Z.of_nat k) Ha)
    as (j' & a' & Ha' & Hg'); [lia | lia |].
  destruct (Hlay _ _ Ha') as [(hi & Hhi & Hlt) Hlo]. rewrite Hg', at_of_nat in Hhi.
  assert (hi = b) as -> by congruence.
  destruct Hlo as [H0 | (lo & Hlo & Hle)].
  - rewrite Hg' in H0. assert (k = 0%nat) as -> by lia. simpl in Hprev.
    injection Hprev as <-. apply at_Some_lt in Ha'. lia.
  - rewrite Hg' in Hlo. destruct k as [|k].
    + apply at_Some in Hlo as [? _]. lia.
    + simpl in Hprev. replace (Z.of_nat (S k) - 1) with (Z.of_nat k) in Hlo by lia.
      rewrite at_of_nat in Hlo. assert (lo = b) by congruence. lia.
Qed.

(** The loop of [reportGenes] comes to analyse an empty generation when
    the index has boundaries after that of the last agent. *)
Lemma analysesEmpty_index (lastGenOnly : bool) :
  analysesEmpty (genBdrys s) 0 (len (agents s)) lastGenOnly = true
  ↔ gen + 1 < len (genBdrys s).
Proof.
  destruct last_boundary as [Hgen Hb].
  pose proof Hlin as (_ & [Hsorted _] & _).
  rewrite analysesEmpty_true. split.
  - intros (k & stop & Hk & Hprev & _).
    destruct (decide (Z.of_nat k ≤ gen)) as [Hle | Hgt].
    + destruct (boundaries_strict k stop Hle Hk Hprev).
    + apply lookup_lt_Some in Hk. unfold len. lia.
  - intros Hlt.
    destruct (lookup_lt_is_Some_2 (genBdrys s) (S (Z.to_nat gen))) as [stop Hstop];
      [unfold len in Hlt; lia |].
    assert (at_ (genBdrys s) (Z.of_nat (S (Z.to_nat gen))) = Some stop) as Hstop'
      by (by rewrite at_of_nat).
    assert (stop = len (agents s)) as ->.
    { pose proof (boundary_le_len _ _ Hstop').
      assert (len (agents s) ≤ stop); [| lia].
      eapply Sorted_at_le; [exact Hsorted | exact Hb | exact Hstop' | lia]. }
    exists (S (Z.to_nat gen)), (len (agents s)). split; [done |]. split; [| by right].
    simpl. by apply at_Some in Hb as [_ Hb].
Qed.

End Index.
(** ** Resolving the last generation of a run *)

Lemma setAncestorsGen_effect (gen : Z) (s : Simulation) :
  wlp (setAncestorsGen gen) s
      (λ _ s', s' = with_agents s (agents s')
               ∧ kin <$> agents s' = kin <$> agents s
               ∧ ∀ lo hi,
                   at_ (genBdrys s) (gen - 1) = Some lo →
                   at_ (genBdrys s) gen = Some hi →
                   (∀ j, lo ≤ j < hi →
                         ∃ a1, at_ (agents s') j = Some a1 ∧ Resolved (agents s) j a1)
                   ∧ (∀ j, ¬ lo ≤ j < hi → at_ (agents s') j = at_ (agents s) j)).
Proof.
  unfold setAncestorsGen.
  apply wlp_bind, wlp_get, wlp_bind, wlp_lift. intros lo Hlo.
  apply wlp_bind, wlp_lift. intros hi Hhi.
  eapply wlp_mono; [apply (resolve_each (agents s)); [apply NoDup_seqZ | done | done] |].
  intros ? s' (Hs' & Hkin & Hres & Hother). split; [done |]. split; [done |].
  intros lo' hi' Hlo' Hhi'. rewrite Hlo in Hlo'. rewrite Hhi in Hhi'.
  injection Hlo' as <-. injection Hhi' as <-. split.
  - intros j Hj. apply Hres, elem_of_seqZ. lia.
  - intros j Hj. apply Hother. rewrite elem_of_seqZ. lia.
Qed.

(** In the state of a run, resolving the generation of the last agent,
    when it is not generation 0, returns; it changes ancestor vectors and
    ancestor sets only, and every vector then holds ids of the arena. *)
Lemma setAncestorsGen_lineage (s : Simulation) (gen : Z) :
  Lineage s → lastGeneration s = Some gen → gen ≠ 0 →
  ∃ s1 lo,
    setAncestorsGen gen s = Some (tt, s1)
    ∧ s1 = with_agents s (agents s1)
    ∧ kin <$> agents s1 = kin <$> agents s
    ∧ at_ (genBdrys s) (gen - 1) = Some lo
    ∧ 0 ≤ lo ≤ len (agents s) - 1
    ∧ ∀ j a1, at_ (agents s1) j = Some a1 →
              ∃ a, at_ (agents s) j = Some a ∧ genes a1 = genes a
                   ∧ Forall (λ x, 0 ≤ x < j) (ancestorVec a1).
Proof.
  intros Hlin Hlast Hgen.
  destruct (last_boundary s gen Hlin Hlast) as [Hgen0 Hhi].
  destruct (last_agent s gen Hlast) as (a & Ha & Hg).
  pose proof (Lineage_generational s Hlin) as Harena.
  pose proof Hlin as (Hl & [Hsorted _] & Hlay).
  destruct (Hlay _ _ Ha) as [_ [H0 | (lo & Hlo & Hle)]]; [lia |].
  rewrite Hg in Hlo.
  assert (0 ≤ lo) as Hlo0.
  { destruct (Lineal_generations _ _ (Z.to_nat gen) Hl _ a 0 Ha) as (j' & a' & Ha' & Hg');
      [lia | lia |].
    destruct (Hlay _ _ Ha') as [(b & Hb & Hlt) _]. rewrite Hg' in Hb.
    assert (b ≤ lo) by (eapply Sorted_at_le; [exact Hsorted | exact Hb | exact Hlo | lia]).
    apply at_Some_lt in Ha'. lia. }
  destruct (setAncestorsGen_total gen lo (len (agents s)) s) as ([] & s1 & Hset & _);
    [by apply ArenaGenerational_ordered | done | done | done | lia |].
  destruct (setAncestorsGen_effect gen s tt s1 Hset) as (Hs1 & Hkin & Heff).
  destruct (Heff lo (len (agents s)) Hlo Hhi) as [Hres Hother].
  exists s1, lo. split; [done |]. split; [done |]. split; [done |].
  split; [done |]. split; [lia |].
  intros j a1 Ha1.
  destruct (decide (lo ≤ j < len (agents s))) as [Hj | Hj].
  - destruct (Hres j Hj) as (a1' & Ha1' & ags' & Hags' & Hat).
    assert (a1' = a1) as -> by congruence.
    destruct (at_lt (agents s) j) as [a0 Ha0]; [lia |].
    destruct (setAncestors_exact (agents s) j a0 Harena Ha0)
      as (rest & Hexact & _ & Hlow & _).
    rewrite Hexact in Hags'. injection Hags' as <-.
    rewrite at_set_at_eq in Hat by lia. injection Hat as <-.
    exists a0. split; [done |]. split; [done |]. simpl.
    by rewrite merge_sort_Permutation.
  - rewrite (Hother j Hj) in Ha1. exists a1. split; [done |]. split; [done |].
    destruct (lin_unresolved _ _ Hl _ _ Ha1) as [-> _]. done.
Qed.

(** ** What [Analysis] does *)

Lemma Analysis_no_agents (s : Simulation) (out : list Output) :
  agents s = [] →
  Analysis (s, out)
  = Some (Some ErrNoAgents, (s, out ++ [OutParameters (sim_id s) (params s)])).
Proof.
  intros Hnil. unfold Analysis.
  rewrite (bind_Some _ _ (s, out) (s, out) (s, out)) by done.
  erewrite bind_Some by reflexivity. simpl. by rewrite Hnil.
Qed.

Lemma Analysis_founders_only (s : Simulation) (out : list Output) :
  lastGeneration s = Some 0 →
  Analysis (s, out)
  = Some (Some (ErrOnlyZeroGeneration (sim_id s)),
          (s, out ++ [OutParameters (sim_id s) (params s)])).
Proof.
  intros Hlast. pose proof (lastGeneration_nonempty _ _ Hlast) as Hne.
  unfold Analysis.
  rewrite (bind_Some _ _ (s, out) (s, out) (s, out)) by done.
  erewrite bind_Some by reflexivity. simpl.
  rewrite bool_decide_eq_false_2 by done.
  erewrite bind_Some by (unfold lift; rewrite Hlast; reflexivity). done.
Qed.

Lemma Analysis_statistics (s s1 : Simulation) (out : list Output) (gen : Z) :
  lastGeneration s = Some gen → gen ≠ 0 →
  setAncestorsGen gen s = Some (tt, s1) →
  Analysis (s, out)
  = statistics (Analysis_ (params s))
               (s1, out ++ [OutParameters (sim_id s) (params s)]).
Proof.
  intros Hlast Hgen Hset. pose proof (lastGeneration_nonempty _ _ Hlast) as Hne.
  unfold Analysis.
  rewrite (bind_Some _ _ (s, out) (s, out) (s, out)) by done.
  erewrite bind_Some by reflexivity. simpl.
  rewrite bool_decide_eq_false_2 by done.
  erewrite bind_Some by (unfold lift; rewrite Hlast; reflexivity).
  rewrite bool_decide_eq_false_2 by done.
  unfold bind at 1, onSimA. simpl. by rewrite Hset.
Qed.

Lemma when_returns (b : bool) (m : M AnSt unit) (s : Simulation) (out : list Output) :
  (∀ out, ∃ o, m (s, out) = Some (tt, (s, out ++ [o]))) →
  ∃ out', when b m (s, out) = Some (tt, (s, out')).
Proof.
  intros Hm. destruct b; simpl; [| by eexists].
  destruct (Hm out) as [o ->]. by eexists.
Qed.

Lemma lastGeneration_empty (s : Simulation) :
  lastGeneration s = None ↔ agents s = [].
Proof.
  unfold lastGeneration. split.
  - intros Hnone. destruct (agents s) as [|a ags] eqn:E; [done |].
    destruct (at_lt (a :: ags) (len (a :: ags) - 1)) as [x Hx];
      [unfold len; simpl; lia |].
    rewrite Hx in Hnone. done.
  - intros ->. done.
Qed.
(** The statistics in the state that [Analysis] has resolved, for a
    run: they panic when the gene report is selected and the index has
    boundaries after that of the last agent, and otherwise return no
    error. *)
Lemma statistics_lineage (s s1 : Simulation) (gen lo b : Z) (sel : string)
    (out : list Output) :
  Lineage s → lastGeneration s = Some gen →
  head (genBdrys s) = Some b → 0 ≤ b → b - 1 ≤ MaxInt →
  s1 = with_agents s (agents s1) →
  kin <$> agents s1 = kin <$> agents s →
  at_ (genBdrys s) (gen - 1) = Some lo →
  0 ≤ lo ≤ len (agents s) - 1 →
  (∀ j a1, at_ (agents s1) j = Some a1 →
           ∃ a, at_ (agents s) j = Some a ∧ genes a1 = genes a
                ∧ Forall (λ x, 0 ≤ x < j) (ancestorVec a1)) →
  if contains sel "G" && bool_decide (gen + 1 < len (genBdrys s))
  then statistics sel (s1, out) = None
  else ∃ out', statistics sel (s1, out) = Some (None, (s1, out')).
Proof.
  intros Hlin Hlast Hhd Hb0 Hb Hs1 Hkin Hlo Hrange Hres.
  assert (genBdrys s1 = genBdrys s) as Hgb by (by rewrite Hs1).
  assert (len (agents s1) = len (agents s)) as Hlen.
  { apply (f_equal length) in Hkin. rewrite !length_fmap in Hkin. unfold len. lia. }
  assert (lastGeneration s1 = Some gen) as Hlast1.
  { destruct (last_agent s gen Hlast) as (a & Ha & Hg).
    destruct (at_kin_Some (agents s) (agents s1) _ a (eq_sym Hkin) Ha)
      as (a1 & Ha1 & Hk).
    unfold lastGeneration. rewrite Hlen, Ha1. simpl. f_equal.
    injection Hk as _ -> _ _. done. }
  assert (IdsOK (agents s1)) as Hids1.
  { intros j a1 Ha1.
    destruct (at_kin_Some (agents s1) (agents s) _ a1 Hkin Ha1) as (a & Ha & Hk).
    destruct Hlin as (Hl & _). rewrite <- (lin_ids _ _ Hl _ _ Ha).
    by injection Hk as -> _ _ _. }
  assert (∀ j a1, at_ (agents s1) j = Some a1 →
                  Forall (λ x, 0 ≤ x < len (agents s1)) (ancestorVec a1)) as Hvec1.
  { intros j a1 Ha1. destruct (Hres j a1 Ha1) as (a & _ & _ & Hv).
    apply at_Some_lt in Ha1. eapply Forall_impl; [exact Hv |]. simpl. lia. }
  assert (Forall (λ a, Forall Parses (genes a)) (agents s1)) as Hparse1.
  { pose proof (Lineage_Parses s b Hlin Hhd Hb) as Hparse.
    rewrite Forall_forall in Hparse. apply Forall_forall.
    intros a1 [j Ha1]%list_elem_of_lookup.
    assert (at_ (agents s1) (Z.of_nat j) = Some a1) as Hat by (by rewrite at_of_nat).
    destruct (Hres _ _ Hat) as (a & Ha & -> & _).
    apply Hparse. apply at_Some in Ha as [_ Ha]. by eapply list_elem_of_lookup_2. }
  rewrite <- Hgb in Hlo. rewrite <- Hlen in Hrange.
  unfold statistics.
  destruct (when_returns (contains sel "N") reportNumAncestors s1 out) as [out1 H1].
  { intros o. by eapply reportNumAncestors_returns. }
  destruct (when_returns (contains sel "C") reportCommonAncestors s1 out1) as [out2 H2].
  { intros o. by eapply reportCommonAncestors_returns. }
  destruct (when_returns (contains sel "D") reportGenDiff s1 out2) as [out3 H3].
  { intros o. by eapply reportGenDiff_returns. }
  rewrite (bind_Some _ _ _ _ _ H1), (bind_Some _ _ _ _ _ H2), (bind_Some _ _ _ _ _ H3).
  destruct (contains sel "G"); cbn [andb]; [| by eexists].
  unfold reportGenes. rewrite (bind_Some _ _ (s1, out3) (s1, out3) (s1, out3)) by done.
  cbn [fst].
  pose proof (reportGenesFrom_returns s1 (contains sel "g") Hparse1
                (genBdrys s1) 0 out3) as Hgenes.
  pose proof (analysesEmpty_index s gen Hlin Hlast (contains sel "g")) as Hempty.
  rewrite Hgb, Hlen in Hgenes. rewrite Hgb.
  destruct (analysesEmpty (genBdrys s) 0 (len (agents s)) (contains sel "g")).
  - rewrite bool_decide_eq_true_2 by (by apply Hempty).
    apply Hgenes; [done | |].
    + destruct Hlin as (_ & [Hsorted _] & _). constructor; [done |].
      destruct (genBdrys s); [constructor |]. simpl in Hhd. injection Hhd as ->.
      by constructor.
    + apply Forall_forall. intros x [k Hx]%list_elem_of_lookup.
      apply (boundary_le_len s Hlin (Z.of_nat k)). by rewrite at_of_nat.
  - rewrite bool_decide_eq_false_2 by (intros Hlt; by apply Hempty in Hlt).
    apply Hgenes; [done | |].
    + destruct Hlin as (_ & [Hsorted _] & _). constructor; [done |].
      destruct (genBdrys s); [constructor |]. simpl in Hhd. injection Hhd as ->.
      by constructor.
    + apply Forall_forall. intros x [k Hx]%list_elem_of_lookup.
      apply (boundary_le_len s Hlin (Z.of_nat k)). by rewrite at_of_nat.
Qed.

(** X22 (analysis of a run): every run returns, and whatever it returns,
    with an error or without, [Analysis] of the simulation it leaves
    panics in one case only: the gene report is selected, the last agent
    is no founder, and the generation index has boundaries after that of
    the generation of the last agent, that is the last generation step
    has bred no child; the gene report then analyses a generation with no
    agent.  Otherwise [Analysis] returns: the error of no agents when
    there is none, the error of only generation zero when the last agent
    is a founder, and no error else; a gene never fails to convert, as
    long as the number of founders is of the type [int]. *)
Theorem run_Analysis (p : Parameters) (r : Rng) (Hint : NumAgents p ≤ MaxInt) :
  ∃ e s r',
    run p r = Some (e, (s, r'))
    ∧ ∀ out,
        (Analysis (s, out) = None
         ↔ contains (Analysis_ p) "G" = true
           ∧ ∃ gen, lastGeneration s = Some gen ∧ gen ≠ 0
                    ∧ gen + 1 < len (genBdrys s))
        ∧ ∀ e' st',
            Analysis (s, out) = Some (e', st') →
            (agents s = [] → e' = Some ErrNoAgents)
            ∧ (lastGeneration s = Some 0 →
               e' = Some (ErrOnlyZeroGeneration (SimulationId p)))
            ∧ ((∃ gen, lastGeneration s = Some gen ∧ gen ≠ 0) → e' = None).
Proof.
  destruct (run_total p r) as (e & [s r'] & Hrun).
  destruct (run_lineage _ _ _ _ Hrun) as (Hlin & Hp & Hid).
  pose proof (run_first_boundary _ _ _ _ Hrun) as Hhd. simpl in Hlin, Hp, Hid, Hhd.
  exists e, s, r'. split; [done |]. intros out.
  destruct (lastGeneration s) as [gen|] eqn:Hlast.
  - destruct (decide (gen = 0)) as [-> | Hgen].
    + rewrite (Analysis_founders_only s out Hlast), Hid. split.
      * split; [done |]. intros (_ & gen & [= <-] & Hne & _). done.
      * intros e' st' [= <- _]. split; [| split]; [| done |].
        -- intros Hnil. apply lastGeneration_empty in Hnil. congruence.
        -- intros (gen & [= <-] & Hne). done.
    + destruct (setAncestorsGen_lineage s gen Hlin Hlast Hgen)
        as (s1 & lo & Hset & Hs1 & Hkin & Hlo & Hrange & Hres).
      rewrite (Analysis_statistics s s1 out gen Hlast Hgen Hset), Hp.
      assert (0 ≤ Z.max 0 (NumAgents p)) as Hb0 by lia.
      assert (Z.max 0 (NumAgents p) - 1 ≤ MaxInt) as Hb by (unfold MaxInt in *; lia).
      pose proof (statistics_lineage s s1 gen lo _ (Analysis_ p)
                    (out ++ [OutParameters (sim_id s) p]) Hlin Hlast Hhd
                    Hb0 Hb Hs1 Hkin Hlo Hrange Hres) as Hstat.
      destruct (contains (Analysis_ p) "G"); cbn [andb] in Hstat.
      * case_bool_decide as Hlt.
        -- rewrite Hstat. split.
           ++ split; [| done]. intros _. split; [done |]. by exists gen.
           ++ done.
        -- destruct Hstat as [out' ->]. split.
           ++ split; [done |]. intros (_ & gen' & [= <-] & _ & Hlt'). done.
           ++ intros e' st' [= <- _]. split; [| split]; [| by intros [= ?] | done].
              intros Hnil. apply lastGeneration_empty in Hnil. congruence.
      * destruct Hstat as [out' ->]. split.
        -- split; [done |]. by intros [? _].
        -- intros e' st' [= <- _]. split; [| split]; [| by intros [= ?] | done].
           intros Hnil. apply lastGeneration_empty in Hnil. congruence.
  - pose proof Hlast as Hnil%lastGeneration_empty.
    rewrite (Analysis_no_agents s out Hnil). split.
    + split; [done |]. intros (_ & gen & ? & _). done.
    + intros e' st' [= <- _]. split; [done |]. split; [done |].
      intros (gen & ? & _). done.
Qed.

Lemma run_Analysis_witness :
  ∃ e s r',
    run siblingsOnly countingRng = Some (e, (s, r'))
    ∧ ∀ out,
        (Analysis (s, out) = None
         ↔ contains (Analysis_ siblingsOnly) "G" = true
           ∧ ∃ gen, lastGeneration s = Some gen ∧ gen ≠ 0
                    ∧ gen + 1 < len (genBdrys s))
        ∧ ∀ e' st',
            Analysis (s, out) = Some (e', st') →
            (agents s = [] → e' = Some ErrNoAgents)
            ∧ (lastGeneration s = Some 0 →
               e' = Some (ErrOnlyZeroGeneration (SimulationId siblingsOnly)))
            ∧ ((∃ gen, lastGeneration s = Some gen ∧ gen ≠ 0) → e' = None).
Proof. apply (run_Analysis siblingsOnly countingRng). vm_compute. discriminate. Defined.

(** The panic is met: with a male and a female founder and siblings not
    allowed to mate, the children of generation 1 are all siblings, the
    step of generation 2 breeds none and returns no error, and the gene
    report of the run then panics. *)
Lemma siblingsOnly_gene_report :
  ∃ s r',
    run siblingsOnly countingRng = Some (None, (s, r'))
    ∧ genBdrys s = [2; 5; 5]
    ∧ lastGeneration s = Some 1
    ∧ Analysis (s, []) = None.
Proof.
  eexists _, _. split; [vm_compute; reflexivity |].
  split; [reflexivity |]. split; [reflexivity |]. vm_compute. reflexivity.
Qed.

(** ** Compatibility within a generation *)

Lemma isSibling_sym (a b : Agent) :
  generation a = generation b → isSibling a b = isSibling b a.
Proof.
  intros Hg. unfold isSibling. rewrite Hg. f_equal.
  apply eq_true_iff_eq. rewrite !orb_true_iff, !bool_decide_eq_true.
  intuition congruence.
Qed.

Lemma isCousin_sym (ags : list Agent) (a b : Agent) (i j : Z) :
  ArenaGenerational ags → at_ ags i = Some a → at_ ags j = Some b →
  generation a = generation b →
  ∃ c, isCousin ags a b = Some c ∧ isCousin ags b a = Some c.
Proof.
  intros Harena Ha Hb Hg. unfold isCousin. rewrite Hg.
  destruct (bool_decide (generation b < 2)) eqn:E; simpl; [by eexists |].
  apply bool_decide_eq_false in E.
  destruct (garena_parents _ Harena _ _ Ha) as (am & af & Ham & Haf & Hgam & Hgaf); [lia |].
  destruct (garena_parents _ Harena _ _ Hb) as (bm & bf & Hbm & Hbf & Hgbm & Hgbf); [lia |].
  rewrite Ham, Haf, Hbm, Hbf. simpl. eexists. split; [done |]. f_equal.
  rewrite (isSibling_sym bm am), (isSibling_sym bm af), (isSibling_sym bf am),
    (isSibling_sym bf af) by lia.
  by destruct (isSibling am bm), (isSibling af bm), (isSibling am bf), (isSibling af bf).
Qed.

(** X23 (compatibility is mutual): in an arena ordered by generation in
    which the parents of every agent that is no founder are of the
    generation just before its own, as every arena of a run is, the
    compatibility check of two agents of the same generation returns, and
    returns the same whichever of the two is given first. *)
Theorem compatible_mutual (s : Simulation) (a b : Agent) (i j : Z)
    (Harena : ArenaGenerational (agents s))
    (Hfirst : at_ (agents s) i = Some a) (Hsecond : at_ (agents s) j = Some b)
    (Hsame : generation a = generation b) :
  ∃ c, compatible s a b = Some c ∧ compatible s b a = Some c.
Proof.
  unfold compatible.
  rewrite (isSibling_sym b a) by done.
  replace (bool_decide (id b = id a)) with (bool_decide (id a = id b))
    by (apply bool_decide_ext; intuition congruence).
  replace (bool_decide (sex b = sex a)) with (bool_decide (sex a = sex b))
    by (apply bool_decide_ext; intuition congruence).
  destruct (negb (MateSelf (params s)) && bool_decide (id a = id b)); [by eexists |].
  destruct (negb (MateSameSex (params s)) && bool_decide (sex a = sex b)); [by eexists |].
  destruct (negb (MateSibling (params s)) && isSibling a b); [by eexists |].
  destruct (MateCousin (params s)); [| by eexists].
  destruct (isCousin_sym _ a b i j Harena Hfirst Hsecond Hsame) as (c & -> & ->).
  by eexists.
Qed.

Lemma compatible_mutual_witness :
  ∃ c,
    compatible (testSim (allowCousins NewParameters))
               (testAgent 9 3 MALE 5 7 []) (testAgent 13 3 FEMALE 8 6 []) = Some c
    ∧ compatible (testSim (allowCousins NewParameters))
                 (testAgent 13 3 FEMALE 8 6 []) (testAgent 9 3 MALE 5 7 []) = Some c.
Proof.
  apply (compatible_mutual (testSim (allowCousins NewParameters))
           (testAgent 9 3 MALE 5 7 []) (testAgent 13 3 FEMALE 8 6 []) 9 13).
  - apply testArena_generational.
  - reflexivity.
  - reflexivity.
  - reflexivity.
Defined.

(** ** The report on the number of ancestors *)







